(** * FireCross: track reconstruction and wildfire proximity

    A shallow embedding of the balloon-track reconstruction route
    ([app/api/balloons/route.ts]), its helpers ([lib/geo.ts],
    [lib/safe-json.ts]), the proximity route ([app/api/insights/route.ts]),
    the fires route ([app/api/fires/route.ts]) and the polyline segmenter
    of the page ([app/page.tsx]), followed by the properties the
    specification states about them and by further properties of the code.

    JavaScript numbers are IEEE-754 binary64 values and are modelled by
    Rocq's primitive floats, so that NaN, the infinities and the comparison
    rules are those of the source.  What the language runtime leaves
    implementation-defined or what lives in the runtime library (the
    trigonometric functions, number/string conversions, [JSON.parse],
    [Date.parse]) is gathered in the class [Runtime]; the general theorems
    hold for every runtime, and a reference runtime is supplied to run the
    code on concrete inputs. *)

From Stdlib Require Import Floats ZArith Lia Bool Zpower Ascii String List DecimalString.
From stdpp Require Import gmap strings list sorting.
From Stdlib Require DecimalNat.

(** ** The JavaScript runtime *)

Local Open Scope string_scope.
Local Open Scope float_scope.

(** Values produced by [JSON.parse]; an object lists its own properties in
    enumeration order. *)
#[local] Unset Elimination Schemes.
Inductive json : Type :=
  | JNull
  | JBool (b : bool)
  | JNum (x : float)
  | JStr (s : string)
  | JArr (items : list json)
  | JObj (props : list (string * json)).
#[local] Set Elimination Schemes.

(** The part of the runtime the code calls and does not define.  The
    trigonometric functions and [**] are implementation-approximated in
    ECMAScript; the conversions and parsers are precisely specified but
    large, and the code only relies on them through the calls below. *)
Class Runtime := {
  Math_sin : float -> float;
  Math_cos : float -> float;
  Math_asin : float -> float;
  Math_pow : float -> float -> float;          (* [x ** y] *)
  Number_toString : float -> string;           (* [`${x}`] *)
  Number_toFixed : float -> nat -> string;     (* [x.toFixed(d)] *)
  StringToNumber : string -> float;            (* [Number(s)] on a string *)
  Date_parse : string -> float;                (* [Date.parse(s)] *)
  JSON_parse : string -> option json;          (* [None]: a SyntaxError is thrown *)
}.

Definition Math_PI : float := 0x1.921fb54442d18p+1.
Definition Math_abs : float -> float := abs.
Definition Math_sqrt : float -> float := sqrt.
Definition isFinite : float -> bool := is_finite.
Definition Number_isNaN : float -> bool := is_nan.

(** [Math.floor]: below 2^52 in magnitude, adding and removing 2^52 rounds
    to the nearest integer, which is then corrected downwards. *)
Definition Math_floor (x : float) : float :=
  if is_nan x then x
  else if 0x1p52 <=? abs x then x
  else if x =? 0 then x
  else
    let r := (abs x + 0x1p52) - 0x1p52 in
    if 0 <? x then (if abs x <? r then r - 1 else r)
    else - (if r <? abs x then r + 1 else r).

(** [Math.round]: nearest integer, halves towards +infinity, and a zero
    result keeps the sign of the argument. *)
Definition Math_round (x : float) : float :=
  if is_nan x then x
  else if 0x1p52 <=? abs x then x
  else if x =? 0 then x
  else
    let f := Math_floor x in
    let r := if 0.5 <=? x - f then f + 1 else f in
    if r =? 0 then (if x <? 0 then PrimFloat.neg_zero else PrimFloat.zero) else r.

(** An array index or counter as a number. *)
Definition Number_of_nat (n : nat) : float :=
  of_uint63 (Uint63Axioms.of_Z (Z.of_nat n)).

(** [Array.prototype.sort] with a comparator: a stable sort; [cmp a b > 0]
    moves [a] behind [b], any other result (negative, zero or NaN) keeps the
    order. *)
Section Sort.
Context {A : Type} (cmp : A -> A -> float).

Fixpoint sort_insert (x : A) (l : list A) : list A :=
  match l with
  | [] => [x]
  | y :: l' => if 0 <? cmp x y then y :: sort_insert x l' else x :: l
  end.

Definition Array_sort (l : list A) : list A := fold_right sort_insert [] l.
End Sort.

(** Property access [v.k] on a non-null value, [None] standing for
    [undefined]; the keys the code reads exist on no prototype. *)
Fixpoint lookup_key (k : string) (props : list (string * json)) : option json :=
  match props with
  | [] => None
  | (k', v) :: rest => if String.eqb k k' then Some v else lookup_key k rest
  end.

Definition getProp (v : json) (k : string) : option json :=
  match v with
  | JObj props => lookup_key k props
  | _ => None
  end.

(** [a ?? b] and [v != null] *)
Definition coalesce (a b : option json) : option json :=
  match a with
  | None | Some JNull => b
  | Some _ => a
  end.
Infix "??" := coalesce (at level 65, right associativity).

Definition notNullish (v : option json) : bool :=
  match v with
  | None | Some JNull => false
  | Some _ => true
  end.

(** Truthiness of a parsed value *)
Definition truthy (v : json) : bool :=
  match v with
  | JNull => false
  | JBool b => b
  | JNum x => negb ((x =? 0) || is_nan x)
  | JStr s => negb (String.eqb s "")
  | JArr _ | JObj _ => true
  end.

(** [Object.hasOwn(v, k)] for an object [v] with the properties [props] *)
Definition hasOwn (props : list (string * json)) (k : string) : bool :=
  match lookup_key k props with
  | Some _ => true
  | None => false
  end.

Section Conversions.
Context {RT : Runtime}.

(** [String(v)]; [None]: the conversion raises a TypeError.  An object
    converts through the [toString] it inherits, unless it has a property
    [toString] of its own: a parsed value is no function, no method is left
    to call, and the conversion raises.  An array joins the texts of its
    entries, a null entry printing as the empty string. *)
Fixpoint ToString (v : json) : option string :=
  match v with
  | JNull => Some "null"
  | JBool true => Some "true"
  | JBool false => Some "false"
  | JNum x => Some (Number_toString x)
  | JStr s => Some s
  | JArr items =>
      (fix join (l : list json) : option string :=
         match l with
         | [] => Some ""
         | [x] => match x with JNull => Some "" | _ => ToString x end
         | x :: rest =>
             here ← match x with JNull => Some "" | _ => ToString x end;
             there ← join rest;
             Some (here ++ "," ++ there)
         end) items
  | JObj props => if hasOwn props "toString" then None else Some "[object Object]"
  end.

(** [Number(v)]; [None]: the conversion raises a TypeError.  An object is
    first asked for its [valueOf], which yields no primitive value, then
    for its [toString] as in [ToString]; the text [[object Object]] is no
    number. *)
Definition Number (v : json) : option float :=
  match v with
  | JNull => Some 0
  | JBool true => Some 1
  | JBool false => Some 0
  | JNum x => Some x
  | JStr s => Some (StringToNumber s)
  | JArr _ => StringToNumber <$> ToString v
  | JObj props => if hasOwn props "toString" then None else Some nan
  end.

(** [Number(v)] where [v] may be [undefined] *)
Definition NumberOpt (v : option json) : option float :=
  match v with
  | Some v => Number v
  | None => Some nan
  end.

(** A [for] loop over [l] that appends what [f] yields for each entry;
    [None] as soon as [f] raises. *)
Section Collect.
Context {A B : Type} (f : A -> option (list B)).

Fixpoint collect (l : list A) : option (list B) :=
  match l with
  | [] => Some []
  | x :: rest =>
      here ← f x;
      there ← collect rest;
      Some (here ++ there)%list
  end.
End Collect.
End Conversions.

(** ** lib/geo.ts *)

Module LatLon.
Record t := mk { lat : float; lon : float }.
End LatLon.

(** [Omit<TrackPoint, "id">]: an observation not yet assigned to a track *)
Module Observation.
Record t := mk { ts : float; lat : float; lon : float; alt : option float }.
End Observation.

Module TrackPoint.
Record t := mk { id : string; ts : float; lat : float; lon : float; alt : option float }.
End TrackPoint.

Module Track.
Record t := mk { id : string; points : list TrackPoint.t }.
End Track.

Module Geo.
Section WithRuntime.
Context {RT : Runtime}.

Definition haversineKm (a b : LatLon.t) : float :=
  let R := 6371 in
  let dLat := (LatLon.lat b - LatLon.lat a) * Math_PI / 180 in
  let dLon := (LatLon.lon b - LatLon.lon a) * Math_PI / 180 in
  let lat1 := LatLon.lat a * Math_PI / 180 in
  let lat2 := LatLon.lat b * Math_PI / 180 in
  let x := Math_pow (Math_sin (dLat / 2)) 2
           + Math_cos lat1 * Math_cos lat2 * Math_pow (Math_sin (dLon / 2)) 2 in
  2 * R * Math_asin (Math_sqrt x).

(** the deduplication key of [dedupeAndSort] *)
Definition pointKey (p : TrackPoint.t) : string :=
  TrackPoint.id p ++ "|" ++ Number_toString (TrackPoint.ts p)
    ++ "|" ++ Number_toFixed (TrackPoint.lat p) 5
    ++ "|" ++ Number_toFixed (TrackPoint.lon p) 5.

Definition pointFinite (p : TrackPoint.t) : bool :=
  isFinite (TrackPoint.lat p) && isFinite (TrackPoint.lon p) && isFinite (TrackPoint.ts p).

(** the [for] loop of [dedupeAndSort], threading [seen] and [out] *)
Fixpoint dedupeLoop (points : list TrackPoint.t) (seen : gset string)
    (out : list TrackPoint.t) : list TrackPoint.t :=
  match points with
  | [] => out
  | p :: rest =>
      let key := pointKey p in
      if bool_decide (key ∉ seen) && pointFinite p
      then dedupeLoop rest ({[ key ]} ∪ seen) (out ++ [p])
      else dedupeLoop rest seen out
  end.

Definition dedupeAndSort (points : list TrackPoint.t) : list TrackPoint.t :=
  Array_sort (fun a b => TrackPoint.ts a - TrackPoint.ts b) (dedupeLoop points ∅ []).
End WithRuntime.
End Geo.

(** ** lib/safe-json.ts

    Text is the UTF-8 encoding of the JavaScript string, a byte string.
    The regular expressions of the source are written out as matchers at a
    position: each returns the replacement and the number of bytes of the
    match.  A character outside ASCII takes two or three bytes: U+FEFF is
    [EF BB BF], and the white space of [\s] and of [trim] is spelled out
    with its encodings. *)

Module SafeJson.

Local Open Scope char_scope.

(** the white space of ASCII: TAB, LF, VT, FF, CR and the space *)
Definition isSpace (c : ascii) : bool :=
  match c with
  | "009" | "010" | "011" | "012" | "013" | " " => true
  | _ => false
  end.

Definition lower (c : ascii) : ascii :=
  let n := nat_of_ascii c in
  if (Nat.leb 65 n && Nat.leb n 90)%bool then ascii_of_nat (n + 32) else c.

(** the white space of two bytes, U+00A0, and of three bytes: U+1680,
    U+2000 to U+200A, U+2028, U+2029, U+202F, U+205F, U+3000 and U+FEFF *)
Definition isSpace2 (a b : nat) : bool :=
  (Nat.eqb a 194 && Nat.eqb b 160)%bool.

Definition isSpace3 (a b c : nat) : bool :=
  ((Nat.eqb a 225 && Nat.eqb b 154 && Nat.eqb c 128)
   || (Nat.eqb a 226 && Nat.eqb b 128
       && ((Nat.leb 128 c && Nat.leb c 138) || Nat.eqb c 168 || Nat.eqb c 169
           || Nat.eqb c 175))
   || (Nat.eqb a 226 && Nat.eqb b 129 && Nat.eqb c 159)
   || (Nat.eqb a 227 && Nat.eqb b 128 && Nat.eqb c 128)
   || (Nat.eqb a 239 && Nat.eqb b 187 && Nat.eqb c 191))%bool.

Local Open Scope string_scope.

(** the number of bytes of the white space character [s] begins with
    (what [\s] matches there), 0 when it begins with none *)
Definition spaceWidth (s : string) : nat :=
  match s with
  | EmptyString => 0
  | String a rest =>
      if isSpace a then 1
      else
        match rest with
        | EmptyString => 0
        | String b rest2 =>
            if isSpace2 (nat_of_ascii a) (nat_of_ascii b) then 2
            else
              match rest2 with
              | EmptyString => 0
              | String c _ =>
                  if isSpace3 (nat_of_ascii a) (nat_of_ascii b) (nat_of_ascii c)
                  then 3 else 0
              end
        end
  end.

(** white space skipped by [\s*]: what follows, and how many bytes were
    skipped; [pending] counts the bytes left of the character being
    skipped *)
Fixpoint skipSpacesFrom (pending : nat) (s : string) : string * nat :=
  match s with
  | EmptyString => (s, 0%nat)
  | String _ rest =>
      match pending with
      | S k => let '(r, n) := skipSpacesFrom k rest in (r, S n)
      | O =>
          match spaceWidth s with
          | S k => let '(r, n) := skipSpacesFrom k rest in (r, S n)
          | O => (s, 0%nat)
          end
      end
  end.

Definition skipSpaces (s : string) : string * nat := skipSpacesFrom 0 s.

(** does [s] start with the lower-case word [w], ignoring case ([/i]) *)
Fixpoint startsWithCI (w s : string) : bool :=
  match w, s with
  | EmptyString, _ => true
  | String a w', String c s' => Ascii.eqb a (lower c) && startsWithCI w' s'
  | String _ _, EmptyString => false
  end.

(** [s.replace(re, ...)] with the [g] flag, for a [re] that cannot match
    the empty string: [matchAt] tells whether a match starts here. *)
Fixpoint replaceAll (matchAt : string -> option (string * nat)) (skip : nat)
    (s : string) : string :=
  match s with
  | EmptyString => EmptyString
  | String c rest =>
      match skip with
      | S k => replaceAll matchAt k rest
      | O =>
          match matchAt s with
          | Some (rep, S k) => rep ++ replaceAll matchAt k rest
          | _ => String c (replaceAll matchAt 0 rest)
          end
      end
  end.

(** [/^\uFEFF/] *)
Definition stripBOM (s : string) : string :=
  match s with
  | String "239" (String "187" (String "191" rest)) => rest
  | _ => s
  end.

(** [/,\s*([}\]])/] replaced by ["$1"] *)
Definition trailingComma (s : string) : option (string * nat) :=
  match s with
  | String "," rest =>
      match skipSpaces rest with
      | (String d _, n) =>
          if (Ascii.eqb d "}" || Ascii.eqb d "]")%bool
          then Some (String d EmptyString, S (S n)) else None
      | _ => None
      end
  | _ => None
  end.

(** [/:\s*word/i] replaced by [": null"] *)
Definition colonWord (w : string) (s : string) : option (string * nat) :=
  match s with
  | String ":" rest =>
      let '(r, n) := skipSpaces rest in
      if startsWithCI w r then Some (": null", (S n + String.length w)%nat) else None
  | _ => None
  end.

Definition dquote : string := String "034"%char EmptyString.

(** the body of a single-quoted string: the text up to the next quote *)
Fixpoint quotedBody (s : string) : option string :=
  match s with
  | EmptyString => None
  | String "'" _ => Some EmptyString
  | String c rest => option_map (String c) (quotedBody rest)
  end.

(** a colon, white space and a single-quoted string without inner quote:
    the string is re-quoted with double quotes *)
Definition singleQuoted (s : string) : option (string * nat) :=
  match s with
  | String ":" rest =>
      match skipSpaces rest with
      | (String "'" r, n) =>
          match quotedBody r with
          | Some body =>
              Some (": " ++ dquote ++ body ++ dquote,
                    (S (S n) + String.length body + 1)%nat)
          | None => None
          end
      | _ => None
      end
  | _ => None
  end.

(** stage 2, "light cleanup" *)
Definition cleanup (clean0 : string) : string :=
  replaceAll singleQuoted 0
    (replaceAll (colonWord "-infinity") 0
      (replaceAll (colonWord "infinity") 0
        (replaceAll (colonWord "nan") 0
          (replaceAll trailingComma 0 clean0)))).

(** [s.split(/\r?\n/)] *)
Fixpoint splitLines (s : string) : list string :=
  match s with
  | EmptyString => [EmptyString]
  | String "013" (String "010" rest) => EmptyString :: splitLines rest
  | String "010" rest => EmptyString :: splitLines rest
  | String c rest =>
      match splitLines rest with
      | l :: ls => String c l :: ls
      | [] => [String c EmptyString]
      end
  end.

(** [s.trim()]: the white space at both ends is removed *)
Definition trimStart (s : string) : string := (skipSpaces s).1.

(** white space only *)
Definition blank (s : string) : bool :=
  match trimStart s with
  | EmptyString => true
  | String _ _ => false
  end.

Fixpoint trimEnd (s : string) : string :=
  match s with
  | EmptyString => EmptyString
  | String c rest => if blank s then EmptyString else String c (trimEnd rest)
  end.

Definition trim (s : string) : string := trimEnd (trimStart s).

(** [l && /[\{\[]/.test(l[0])] *)
Definition looksLikeRecord (l : string) : bool :=
  match l with
  | String c _ => (Ascii.eqb c "{" || Ascii.eqb c "[")%bool
  | EmptyString => false
  end.

Definition jsonlLines (cleaned : string) : list string :=
  List.filter looksLikeRecord (List.map trim (splitLines cleaned)).

(** longest prefix ending in a closing bracket or brace *)
Fixpoint uptoLastCloser (s : string) : option string :=
  match s with
  | EmptyString => None
  | String c rest =>
      match uptoLastCloser rest with
      | Some p => Some (String c p)
      | None =>
          if (Ascii.eqb c "]" || Ascii.eqb c "}")%bool
          then Some (String c EmptyString) else None
      end
  end.

(** [cleaned.match(/([\[{][\s\S]*[\]}])/)]: from the first opening
    bracket or brace to the last closing one after it *)
Fixpoint firstBlock (s : string) : option string :=
  match s with
  | EmptyString => None
  | String c rest =>
      if (Ascii.eqb c "[" || Ascii.eqb c "{")%bool
      then option_map (String c) (uptoLastCloser rest)
      else firstBlock rest
  end.

Section WithRuntime.
Context {RT : Runtime}.

(** stage 3: the lines that parse, when there is at least one *)
Definition parseJsonl (cleaned : string) : option json :=
  let lines := jsonlLines cleaned in
  if (0 <? List.length lines)%nat then
    let arr := omap JSON_parse lines in
    if (0 <? List.length arr)%nat then Some (JArr arr) else None
  else None.

(** [None] is the final [return null] *)
Definition safeParseJSON (text : string) : option json :=
  let clean0 := stripBOM text in
  match JSON_parse clean0 with
  | Some v => Some v
  | None =>
      let cleaned := cleanup clean0 in
      match JSON_parse cleaned with
      | Some v => Some v
      | None =>
          match parseJsonl cleaned with
          | Some arr => Some arr
          | None =>
              match firstBlock cleaned with
              | Some m => JSON_parse m
              | None => None
              end
          end
      end
  end.
End WithRuntime.
End SafeJson.

(** ** app/api/balloons/route.ts *)

Module Balloons.
Section WithRuntime.
Context {RT : Runtime}.

(** [Date.now()], in milliseconds, is the input [now] of a call. *)
Definition toEpochSecondsFromHourIdx (now : float) (hourIdx : nat) : float :=
  Math_floor (now / 1000) - Number_of_nat hourIdx * 3600.

(** the [typeof x === "number"] branch of [toEpochSeconds] *)
Definition toEpochSecondsNum (x : float) : float :=
  if 1e11 <? x then Math_round (x / 1000) else Math_round x.

(** [None] is the [null] result; the argument may be [undefined] *)
Definition toEpochSeconds (x : option json) : option float :=
  match x with
  | None | Some JNull => None
  | Some (JNum x) => Some (toEpochSecondsNum x)
  | Some (JStr s) =>
      let n := StringToNumber s in
      if negb (Number_isNaN n) then Some (toEpochSecondsNum n)
      else
        let d := Date_parse s in
        if negb (Number_isNaN d) then Some (Math_round (d / 1000)) else None
  | Some _ => None
  end.

Definition isArray (v : json) : bool :=
  match v with JArr _ => true | _ => false end.

(** [typeof v === "object"] *)
Definition isObjectType (v : json) : bool :=
  match v with JNull | JArr _ | JObj _ => true | _ => false end.

(** Case A, one [row] of the payload; [None]: a conversion raises *)
Definition rowPoints (ts : float) (row : json) : option (list Observation.t) :=
  match row with
  | JArr (r0 :: r1 :: more) =>
      lat ← Number r0;
      lon ← Number r1;
      alt ← match more with
            | r2 :: _ => Some <$> Number r2
            | [] => Some None
            end;
      Some (if isFinite lat && isFinite lon then [Observation.mk ts lat lon alt] else [])
  | _ => Some []
  end.

(** Case B, one [obj] of the payload; [None]: reading a property of
    [null] raises a TypeError, or a conversion raises *)
Definition recordPoints (ts : float) (obj : json) : option (list Observation.t) :=
  match obj with
  | JNull => None
  | _ =>
      let lat := getProp obj "lat" ?? getProp obj "latitude" ?? getProp obj "y"
                 ?? getProp obj "Lat" ?? getProp obj "Y" in
      let lon := getProp obj "lon" ?? getProp obj "lng" ?? getProp obj "longitude"
                 ?? getProp obj "x" ?? getProp obj "Lon" ?? getProp obj "X" in
      let alt := getProp obj "alt" ?? getProp obj "altitude" ?? getProp obj "Alt" in
      if notNullish lat && notNullish lon then
        latN ← NumberOpt lat;
        lonN ← NumberOpt lon;
        if isFinite latN && isFinite lonN then
          altN ← (if notNullish alt then Some <$> NumberOpt alt else Some None);
          Some [Observation.mk ts latN lonN altN]
        else Some []
      else Some []
  end.

(** Case C; [None]: a conversion raises *)
Definition pushIfValid (ts : float) (obj : json) : option (list Observation.t) :=
  match obj with
  | JArr _ | JObj _ =>
      let lat := getProp obj "lat" ?? getProp obj "latitude" ?? getProp obj "Lat"
                 ?? getProp obj "y" ?? getProp obj "Y" in
      let lon := getProp obj "lon" ?? getProp obj "lng" ?? getProp obj "long"
                 ?? getProp obj "longitude" ?? getProp obj "Lon" ?? getProp obj "x"
                 ?? getProp obj "X" in
      let alt := getProp obj "alt" ?? getProp obj "altitude" ?? getProp obj "Alt" in
      let tsRaw := getProp obj "ts" ?? getProp obj "time" ?? getProp obj "timestamp"
                   ?? getProp obj "t" ?? getProp obj "epoch" ?? getProp obj "updated_at"
                   ?? getProp obj "date" in
      let t := match toEpochSeconds tsRaw with Some t => t | None => ts end in
      if notNullish lat && notNullish lon then
        latN ← NumberOpt lat;
        lonN ← NumberOpt lon;
        if isFinite latN && isFinite lonN then
          altN ← (if notNullish alt then Some <$> NumberOpt alt else Some None);
          Some [Observation.mk t latN lonN altN]
        else Some []
      else Some []
  | _ => Some []
  end.

Fixpoint walk (ts : float) (node : json) : option (list Observation.t) :=
  match node with
  | JArr items => collect (walk ts) items
  | JObj props =>
      here ← pushIfValid ts node;
      there ← collect (fun kv => walk ts kv.2) props;
      Some (here ++ there)%list
  | _ => Some []
  end.

(** [None]: the call raises *)
Definition extractHourPoints (now : float) (payload : json) (hourIdx : nat)
    : option (list Observation.t) :=
  let ts := toEpochSecondsFromHourIdx now hourIdx in
  match payload with
  | JArr ((first :: _) as items) =>
      if isArray first then collect (rowPoints ts) items
      else if isObjectType first then collect (recordPoints ts) items
      else walk ts payload
  | _ => walk ts payload
  end.

(** *** linkTracks *)

Definition MAX_LINK_KM_PER_H : float := 200.

(** [{ ...p, id }] *)
Definition withId (p : Observation.t) (id : string) : TrackPoint.t :=
  TrackPoint.mk id (Observation.ts p) (Observation.lat p) (Observation.lon p)
    (Observation.alt p).

(** [`T${n}`] *)
Definition trackName (n : nat) : string :=
  "T" ++ NilEmpty.string_of_uint (Nat.to_uint n).

Record LinkState := { nextId : nat; tracks : list Track.t }.

(** [const id = `T${nextId++}`; tracks.push({ id, points: [{ ...p, id }] })] *)
Definition startTrack (st : LinkState) (p : Observation.t) : LinkState :=
  let id := trackName (nextId st) in
  {| nextId := S (nextId st);
     tracks := tracks st ++ [Track.mk id [withId p id]] |}.

(** [tr.points.push({ ...p, id: tr.id })] *)
Definition pushPoint (p : Observation.t) (tr : Track.t) : Track.t :=
  Track.mk (Track.id tr) (Track.points tr ++ [withId p (Track.id tr)]).

(** The inner loop over [tracks] for one observation [p], from index [t]
    on, with the running [bestIdx] ([None] for -1) and [bestKm].  An open
    track always has a last point (see [linkHour_tracks_nonempty]); a
    track without one is passed over. *)
Fixpoint scanTracks (p : Observation.t) (usedTrack : gset string)
    (trs : list Track.t) (t : nat) (bestIdx : option nat) (bestKm : float)
    : option nat * float :=
  match trs with
  | [] => (bestIdx, bestKm)
  | tr :: rest =>
      if bool_decide (Track.id tr ∈ usedTrack)
      then scanTracks p usedTrack rest (S t) bestIdx bestKm
      else
        match last (Track.points tr) with
        | None => scanTracks p usedTrack rest (S t) bestIdx bestKm
        | Some lastp =>
            let dt := Observation.ts p - TrackPoint.ts lastp in
            if (dt <? 1800) || (5400 <? dt)
            then scanTracks p usedTrack rest (S t) bestIdx bestKm
            else
              let km := Geo.haversineKm
                          (LatLon.mk (TrackPoint.lat lastp) (TrackPoint.lon lastp))
                          (LatLon.mk (Observation.lat p) (Observation.lon p)) in
              let hours := dt / 3600 in
              let allowed := MAX_LINK_KM_PER_H * hours in
              if allowed <? km
              then scanTracks p usedTrack rest (S t) bestIdx bestKm
              else if km <? bestKm
              then scanTracks p usedTrack rest (S t) (Some t) km
              else scanTracks p usedTrack rest (S t) bestIdx bestKm
        end
  end.

Definition bestTrack (p : Observation.t) (usedTrack : gset string)
    (trs : list Track.t) : option nat :=
  fst (scanTracks p usedTrack trs 0 None infinity).

(** The loop over the observations [pts] of one hour, from index [i] on *)
Fixpoint linkPoints (pts : list Observation.t) (i : nat) (trs : list Track.t)
    (usedTrack : gset string) (usedPoint : gset nat) : list Track.t * gset nat :=
  match pts with
  | [] => (trs, usedPoint)
  | p :: rest =>
      match bestTrack p usedTrack trs with
      | Some bestIdx =>
          match trs !! bestIdx with
          | Some tr =>
              linkPoints rest (S i) (alter (pushPoint p) bestIdx trs)
                ({[ Track.id tr ]} ∪ usedTrack) ({[ i ]} ∪ usedPoint)
          | None => linkPoints rest (S i) trs usedTrack usedPoint
          end
      | None => linkPoints rest (S i) trs usedTrack usedPoint
      end
  end.

(** "leftover points start new tracks" *)
Fixpoint leftover (pts : list Observation.t) (i : nat) (usedPoint : gset nat)
    (st : LinkState) : LinkState :=
  match pts with
  | [] => st
  | p :: rest =>
      if bool_decide (i ∈ usedPoint) then leftover rest (S i) usedPoint st
      else leftover rest (S i) usedPoint (startTrack st p)
  end.

(** the body of the loop over the hours *)
Definition linkHour (st : LinkState) (pts : list Observation.t) : LinkState :=
  match pts with
  | [] => st
  | _ :: _ =>
      match tracks st with
      | [] => fold_left startTrack pts st
      | _ :: _ =>
          let '(trs, usedPoint) := linkPoints pts 0 (tracks st) ∅ ∅ in
          leftover pts 0 usedPoint {| nextId := nextId st; tracks := trs |}
      end
  end.

Definition linkAll (hourly : list (list Observation.t)) : LinkState :=
  fold_left linkHour (rev hourly) {| nextId := 1; tracks := [] |}.

Definition finish (tr : Track.t) : Track.t :=
  Track.mk (Track.id tr) (Geo.dedupeAndSort (Track.points tr)).

Definition linkTracks (hourly : list (list Observation.t)) : list Track.t :=
  List.filter (fun t => (2 <=? List.length (Track.points t))%nat)
    (List.map finish (tracks (linkAll hourly))).

(** *** GET

    [fetchText i] is the outcome of fetching hour [i]: the body, or
    [None] when the request fails (time-out, network error, status);
    [clock i] is what [Date.now()] reads when hour [i] is extracted.
    The handler answers with [{ updatedAt, tracks }]; the function below
    is its [tracks]. *)
Definition hourPoints (now : float) (idx : nat) (fetched : option string)
    : list Observation.t :=
  match fetched with
  | None => []
  | Some txt =>
      match SafeJson.safeParseJSON txt with
      | Some value =>
          if truthy value then
            match extractHourPoints now value idx with
            | Some pts => pts
            | None => []
            end
          else []
      | None => []
      end
  end.

Definition collectHourly (clock : nat -> float) (fetchText : nat -> option string)
    : list (list Observation.t) :=
  List.map (fun idx => hourPoints (clock idx) idx (fetchText idx)) (seq 0 24).

Definition GET (clock : nat -> float) (fetchText : nat -> option string)
    : list Track.t :=
  linkTracks (collectHourly clock fetchText).
End WithRuntime.
End Balloons.

(** ** app/api/balloons/route.ts: the requests of [GET]

    The handler sends its 24 requests at once and reads their outcomes
    after [Promise.allSettled].  A promise that has settled is fulfilled
    with a value or rejected, and awaiting a rejected promise raises in the
    function that awaits it.  The network is a function from the address of
    a request to what becomes of it. *)

Module Handler.

Inductive Settled (A : Type) : Type :=
  | Fulfilled (value : A)
  | Rejected.
Arguments Fulfilled {A} value.
Arguments Rejected {A}.

(** [p.then(f)], also [await p] followed by [f]: a rejection goes through *)
Definition then_ {A B : Type} (p : Settled A) (f : A -> Settled B) : Settled B :=
  match p with
  | Fulfilled value => f value
  | Rejected => Rejected
  end.

(** [p.catch(() => ...)] *)
Definition catch_ {A : Type} (p : Settled A) (onRejected : Settled A) : Settled A :=
  match p with
  | Fulfilled _ => p
  | Rejected => onRejected
  end.

(** [Promise.allSettled(ps)]: fulfilled with the outcomes, whatever they are *)
Definition Promise_allSettled {A : Type} (ps : list (Settled A))
    : Settled (list (Settled A)) :=
  Fulfilled ps.

(** What becomes of a request: no response ([fetch] rejects on a network
    error, or when the timer aborts it), or a response with its [ok] flag
    and its body, [None] when reading the body fails or is aborted. *)
Inductive Exchange : Type :=
  | NoResponse
  | Response (ok : bool) (body : option string).

Definition fetchText (net : string -> Exchange) (url : string) : Settled string :=
  match net url with
  | NoResponse => Rejected
  | Response ok body =>
      if negb ok then Rejected
      else
        match body with
        | Some text => Fulfilled text
        | None => Rejected
        end
  end.

Definition base : string := "https://a.windbornesystems.com/treasure".

(** [String(i).padStart(2, "0")] *)
Definition padStart2 (s : string) : string :=
  (String.string_of_list_ascii (repeat "0"%char (2 - String.length s)) ++ s)%string.

Definition url (i : nat) : string :=
  (base ++ "/" ++ padStart2 (NilEmpty.string_of_uint (Nat.to_uint i)) ++ ".json")%string.

Section WithRuntime.
Context {RT : Runtime}.

(** [tasks], settled *)
Definition tasks (net : string -> Exchange) : list (Settled (option json)) :=
  List.map
    (fun i =>
       catch_
         (then_ (fetchText net (url i))
            (fun txt => Fulfilled (SafeJson.safeParseJSON txt)))
         (Fulfilled None))
    (seq 0 24).

(** the callback of [results.forEach]: what is put in [hourly[idx]] *)
Definition hourOf (clock : nat -> float) (idx : nat) (r : Settled (option json))
    : list Observation.t :=
  match r with
  | Fulfilled (Some value) =>
      if truthy value then
        match Balloons.extractHourPoints (clock idx) value idx with
        | Some pts => pts
        | None => []
        end
      else []
  | _ => []
  end.

(** the call: [Rejected] when the handler raises, else the [tracks] of
    the answer *)
Definition GET (clock : nat -> float) (net : string -> Exchange)
    : Settled (list Track.t) :=
  then_ (Promise_allSettled (tasks net))
    (fun results => Fulfilled (Balloons.linkTracks (imap (hourOf clock) results))).
End WithRuntime.
End Handler.

(** ** app/api/insights/route.ts *)

Module Insights.

(** one entry of [stats] *)
Record Stat := {
  id : string;
  closest_km : float;
  near_count : nat;
  closest_ts : option float
}.

(** the three variables of the loops: [minKm], [minWhen], [nearCount] *)
Record Acc := { minKm : float; minWhen : option float; nearCount : nat }.

Section WithRuntime.
Context {RT : Runtime}.

Definition PROX_KM : float := 100.

(** the body of the inner loop, for the point [p] and the fire [f] *)
Definition visit (p : TrackPoint.t) (acc : Acc) (f : LatLon.t) : Acc :=
  let km := Geo.haversineKm (LatLon.mk (TrackPoint.lat p) (TrackPoint.lon p))
              (LatLon.mk (LatLon.lat f) (LatLon.lon f)) in
  let acc1 :=
    if km <? minKm acc
    then {| minKm := km; minWhen := Some (TrackPoint.ts p); nearCount := nearCount acc |}
    else acc in
  if km <=? PROX_KM
  then {| minKm := minKm acc1; minWhen := minWhen acc1; nearCount := S (nearCount acc1) |}
  else acc1.

Definition scan (points : list TrackPoint.t) (firePts : list LatLon.t) : Acc :=
  fold_left (fun acc p => fold_left (visit p) firePts acc) points
    {| minKm := infinity; minWhen := None; nearCount := 0 |}.

(** the function mapped over [tracks] *)
Definition stat (firePts : list LatLon.t) (t : Track.t) : Stat :=
  let acc := scan (Track.points t) firePts in
  {| id := Track.id t;
     closest_km := Math_round (minKm acc * 10) / 10;
     near_count := nearCount acc;
     closest_ts := minWhen acc |}.

(** [balloons] and [fires] are the bodies of the two sub-requests, [None]
    when a request fails; the function is the [stats] of the answer. *)
Definition GET (balloons : option (list Track.t)) (fires : option (list LatLon.t))
    : list Stat :=
  let tracks := default [] balloons in
  let firePts := default [] fires in
  Array_sort (fun a b => closest_km a - closest_km b) (List.map (stat firePts) tracks).
End WithRuntime.
End Insights.

(** ** app/api/fires/route.ts

    [Papa.parse(csv, { header: true, dynamicTyping: true })] belongs to the
    papaparse library; the route only reads the rows it returns, objects
    keyed by the header of the file.  The rows are given by the function
    [parse], a parameter of the model. *)

Module Fires.

Record Fire := {
  lat : float;
  lon : float;
  conf : float;
  frp : option float;
  acq : option float;
  src : json
}.

(** [x.padStart(4, '0')], [x.slice(0, 2)] and [x.slice(2)] *)
Definition padStart4 (s : string) : string :=
  (String.string_of_list_ascii (repeat "0"%char (4 - String.length s)) ++ s)%string.

Definition slice02 (s : string) : string := String.substring 0 2 s.

Definition slice2 (s : string) : string := String.substring 2 (String.length s - 2) s.

(** the outcome of [tryFetch]: [resp] is the body of an answer with a
    success status, [None] when the request fails or the status is not one;
    a blank body counts as a failure *)
Definition tryFetch (resp : option string) : option string :=
  match resp with
  | Some text =>
      if (String.length (SafeJson.trim text) =? 0)%nat then None else Some text
  | None => None
  end.

(** the loop over the candidates: [csv] after the loop *)
Fixpoint firstCsv (candidates : list (option string)) : option string :=
  match candidates with
  | [] => None
  | resp :: rest =>
      match tryFetch resp with
      | Some csv => Some csv
      | None => firstCsv rest
      end
  end.

Section WithRuntime.
Context {RT : Runtime}.
Variable parse : string -> list (list (string * json)).

Definition truthyOpt (v : option json) : bool :=
  match v with Some v => truthy v | None => false end.

Definition ToStringOpt (v : option json) : option string :=
  match v with Some v => ToString v | None => Some "undefined" end.

(** the function mapped over the rows; [None]: a conversion raises *)
Definition fireOf (row : list (string * json)) : option Fire :=
  let r := JObj row in
  lat ← NumberOpt (getProp r "latitude" ?? getProp r "Latitude" ?? getProp r "lat");
  lon ← NumberOpt (getProp r "longitude" ?? getProp r "Longitude" ?? getProp r "lon");
  conf ← NumberOpt (getProp r "confidence" ?? getProp r "confidence_text"
                    ?? getProp r "confidence_level" ?? getProp r "conf");
  frp ← (if notNullish (getProp r "frp") then Some <$> NumberOpt (getProp r "frp")
         else Some None);
  acq ← (if truthyOpt (getProp r "acq_date") && truthyOpt (getProp r "acq_time")
         then
           date ← ToStringOpt (getProp r "acq_date");
           time ← ToStringOpt (getProp r "acq_time");
           let hhmm := padStart4 time in
           Some (Some (Date_parse (date ++ "T" ++ slice02 hhmm ++ ":" ++ slice2 hhmm
                                   ++ ":00Z")%string / 1000))
         else Some None);
  Some {| lat := lat; lon := lon; conf := conf; frp := frp; acq := acq;
          src := match getProp r "instrument" ?? getProp r "satellite"
                       ?? getProp r "source" with
                 | None | Some JNull => JStr "FIRMS"
                 | Some v => v
                 end |}.

(** the [fires] of the answer; [candidates] holds the outcomes of the
    requests to the three addresses, in the order they are tried; [None]:
    the handler raises *)
Definition GET (candidates : list (option string)) : option (list Fire) :=
  match firstCsv candidates with
  | None => Some []
  | Some csv =>
      fires ← mapM fireOf (parse csv);
      Some (List.filter (fun f => isFinite (lat f) && isFinite (lon f)) fires)
  end.
End WithRuntime.
End Fires.

(** ** app/page.tsx *)

Module Page.
Section WithRuntime.
Context {RT : Runtime}.

(** the page's own copy of the distance function *)
Definition haversineKm (a b : LatLon.t) : float :=
  let R := 6371 in
  let toRad := fun x : float => (x * Math_PI) / 180 in
  let dLat := toRad (LatLon.lat b - LatLon.lat a) in
  let dLon := toRad (LatLon.lon b - LatLon.lon a) in
  let lat1 := toRad (LatLon.lat a) in
  let lat2 := toRad (LatLon.lat b) in
  let h := Math_pow (Math_sin (dLat / 2)) 2
           + Math_cos lat1 * Math_cos lat2 * Math_pow (Math_sin (dLon / 2)) 2 in
  2 * R * Math_asin (Math_sqrt h).

(** [[p.lat, p.lon]]; the page's [TrackPoint] has no [id] *)
Definition coord (p : Observation.t) : float * float :=
  (Observation.lat p, Observation.lon p).

(** [if (cur.length >= 2) segs.push(cur)] *)
Definition pushSeg (segs : list (list (float * float))) (cur : list (float * float))
    : list (list (float * float)) :=
  if (2 <=? List.length cur)%nat then segs ++ [cur] else segs.

(** the [for] loop from [i] on, with [a = filtered[i - 1]] and the points
    from [filtered[i]] on in [rest], then the final push *)
Fixpoint walkSegments (maxHopKm : float) (a : Observation.t) (rest : list Observation.t)
    (cur : list (float * float)) (segs : list (list (float * float)))
    : list (list (float * float)) :=
  match rest with
  | [] => pushSeg segs cur
  | b :: rest' =>
      let crossesDateline := 180 <? Math_abs (Observation.lon b - Observation.lon a) in
      let hopKm := haversineKm (LatLon.mk (Observation.lat a) (Observation.lon a))
                     (LatLon.mk (Observation.lat b) (Observation.lon b)) in
      let bigHop := maxHopKm <? hopKm in
      if crossesDateline || bigHop
      then walkSegments maxHopKm b rest' [coord b] (pushSeg segs cur)
      else walkSegments maxHopKm b rest' (cur ++ [coord b]) segs
  end.

Definition splitByDatelineAndHops (pts : list Observation.t) (cutoffTs : float)
    (maxHopKm : float) : list (list (float * float)) :=
  let filtered := List.filter (fun p => cutoffTs <=? Observation.ts p) pts in
  if (List.length filtered <? 2)%nat then []
  else
    match filtered with
    | first :: rest => walkSegments maxHopKm first rest [coord first] []
    | [] => []
    end.

(** the default of the parameter, and the value the page passes *)
Definition defaultMaxHopKm : float := 1000.
Definition pageMaxHopKm : float := 800.
End WithRuntime.
End Page.

(** ** app/page.tsx: the values [Page] computes for the map *)

Module PageMemo.

(** the page's [Track] *)
Record Track := { id : string; points : list Observation.t }.

Section WithRuntime.
Context {RT : Runtime}.

(** [hourCutoffTs], for the clock reading [now] and the slider value [hour] *)
Definition hourCutoffTs (now hour : float) : float :=
  Math_floor (now / 1000) - hour * 3600.

(** [segments]: [{ id: `${t.id}:${idx}`, pts: seg }] for the segments of
    each track, in order *)
Definition segments (tracks : list Track) (hourCutoffTs : float)
    : list (string * list (float * float)) :=
  flat_map
    (fun t =>
       imap (fun idx seg =>
               ((id t ++ ":" ++ Number_toString (Number_of_nat idx))%string, seg))
         (Page.splitByDatelineAndHops (points t) hourCutoffTs 800))
    tracks.
End WithRuntime.

(** [seg.id.split(":")[0]], the text of a segment's tooltip *)
Fixpoint tooltip (segId : string) : string :=
  match segId with
  | EmptyString => EmptyString
  | String c rest => if Ascii.eqb c ":" then EmptyString else String c (tooltip rest)
  end.
End PageMemo.

(** ** A reference runtime

    An executable instance of [Runtime], used to run the code on concrete
    inputs.  The trigonometric functions are polynomial approximations
    (accurate to a few units in the last place on the arguments used
    here); the conversions and parsers are exact on the domain each one
    states.  No general theorem depends on this instance. *)

Module Reference.


(** *** Trigonometry: argument reduction and Taylor polynomials *)

(** [1 - x2/(a(a+1)) (1 - x2/((a+2)(a+3)) (...))], [n] factors deep *)
Fixpoint alternating (n : nat) (a : nat) (x2 : float) : float :=
  match n with
  | O => 1
  | S n' =>
      1 - x2 / (Number_of_nat a * Number_of_nat (S a)) * alternating n' (S (S a)) x2
  end.

Definition sinPoly (x : float) : float := x * alternating 14 2 (x * x).
Definition cosPoly (x : float) : float := alternating 14 1 (x * x).

(** bring [x] into [-pi, pi] *)
Definition reduce (x : float) : float :=
  if abs x <=? Math_PI then x else x - Math_round (x / (2 * Math_PI)) * (2 * Math_PI).

Definition sin (x : float) : float :=
  let r := reduce x in
  if Math_PI / 2 <? r then sinPoly (Math_PI - r)
  else if r <? - (Math_PI / 2) then sinPoly (- Math_PI - r)
  else sinPoly r.

Definition cos (x : float) : float :=
  let r := abs (reduce x) in
  if Math_PI / 2 <? r then - cosPoly (Math_PI - r) else cosPoly r.

(** the series of asin, summed from the term of index [k] on *)
Fixpoint asinSeries (n : nat) (k : nat) (term : float) (y2 : float) : float :=
  match n with
  | O => 0
  | S n' =>
      let a := Number_of_nat (2 * k + 1) in
      let next := term * y2 * (a * a)
                  / (Number_of_nat (2 * k + 2) * Number_of_nat (2 * k + 3)) in
      term + asinSeries n' (S k) next y2
  end.

Definition asinSmall (y : float) : float := asinSeries 40 0 y (y * y).

Definition asin (y : float) : float :=
  if abs y <=? 0.5 then asinSmall y
  else if abs y <=? 1 then
    let a := Math_PI / 2 - 2 * asinSmall (sqrt ((1 - abs y) / 2)) in
    if y <? 0 then - a else a
  else nan.

(** [x ** y] for the exponents 0, 1 and 2 *)
Definition pow (x y : float) : float :=
  if y =? 2 then x * x else if y =? 1 then x else if y =? 0 then 1 else nan.


(** *** Numbers and text *)

Definition digitsZ (z : Z) : string := NilZero.string_of_uint (N.to_uint (Z.to_N z)).

Fixpoint zeros (n : nat) : string :=
  match n with O => EmptyString | S n' => String "0" (zeros n') end.

Definition padLeft (width : nat) (s : string) : string :=
  zeros (width - String.length s) ++ s.

Fixpoint dropTrailingZeros (s : string) : string :=
  match s with
  | EmptyString => EmptyString
  | String c rest =>
      match dropTrailingZeros rest with
      | EmptyString => if Ascii.eqb c "0" then EmptyString else String c EmptyString
      | r => String c r
      end
  end.

(** the exact decimal expansion of a finite value; it is the text of
    ECMAScript for the integers up to 2^53 in magnitude *)
Definition toString (x : float) : string :=
  match Prim2SF x with
  | S754_nan => "NaN"
  | S754_infinity false => "Infinity"
  | S754_infinity true => "-Infinity"
  | S754_zero _ => "0"
  | S754_finite s m e =>
      (if s then "-" else "") ++
      (if (0 <=? e)%Z then digitsZ (Zpos m * 2 ^ e)
       else
         let d := (2 ^ (- e))%Z in
         let frac := (Zpos m mod d)%Z in
         if (frac =? 0)%Z then digitsZ (Zpos m / d)
         else digitsZ (Zpos m / d) ++ "." ++
              dropTrailingZeros
                (padLeft (Z.to_nat (- e)) (digitsZ (frac * 10 ^ (- e) / d))))
  end.

(** [x.toFixed(d)] below 1e21 in magnitude: the integer [n] nearest to
    [x * 10^d], the larger one on a tie, printed with [d] decimals *)
Definition toFixed (x : float) (d : nat) : string :=
  match Prim2SF x with
  | S754_finite s m e =>
      if 1e21 <=? abs x then toString x
      else
        let scale := (10 ^ Z.of_nat d)%Z in
        let n := if (0 <=? e)%Z then (Zpos m * 2 ^ e * scale)%Z
                 else ((2 * Zpos m * scale + 2 ^ (- e)) / (2 * 2 ^ (- e)))%Z in
        let ds := padLeft (S d) (digitsZ n) in
        let k := (String.length ds - d)%nat in
        (if s then "-" else "") ++ substring 0 k ds ++
        (if (d =? 0)%nat then "" else "." ++ substring k d ds)
  | S754_zero _ => "0" ++ (if (d =? 0)%nat then "" else "." ++ zeros d)
  | _ => toString x
  end.

(** the binary64 value nearest to [(-1)^neg * n * 10^e] *)
Definition decimal (neg : bool) (n e : Z) : float :=
  if (n =? 0)%Z then (if neg then PrimFloat.neg_zero else PrimFloat.zero)
  else if (0 <=? e)%Z then
    SF2Prim (binary_normalize prec emax (if neg then - (n * 10 ^ e) else n * 10 ^ e) 0 false)
  else
    let '(q, e2, l) := SFdiv_core_binary prec emax n 0 (10 ^ (- e)) 0 in
    SF2Prim (binary_round_aux prec emax neg q e2 l).

Definition isDigit (c : ascii) : bool :=
  (Nat.leb 48 (nat_of_ascii c) && Nat.leb (nat_of_ascii c) 57)%bool.

(** a run of digits: its value after [acc], its length, and the rest *)
Fixpoint readDigits (s : string) (acc : Z) : Z * nat * string :=
  match s with
  | String c rest =>
      if isDigit c then
        let '(v, n, r) := readDigits rest (acc * 10 + Z.of_nat (nat_of_ascii c - 48))%Z in
        (v, S n, r)
      else (acc, O, s)
  | EmptyString => (acc, O, s)
  end.

(** an optional exponent part [e[+-]digits] *)
Definition readExponent (s : string) : Z * string :=
  match s with
  | String c rest =>
      if (Ascii.eqb c "e" || Ascii.eqb c "E")%bool then
        let '(neg, rest') :=
          match rest with
          | String "-" r => (true, r)
          | String "+" r => (false, r)
          | _ => (false, rest)
          end in
        match readDigits rest' 0 with
        | (_, O, _) => (0%Z, s)
        | (v, _, r) => ((if neg then - v else v)%Z, r)
        end
      else (0%Z, s)
  | EmptyString => (0%Z, s)
  end.

(** an unsigned decimal literal [digits[.digits][exponent]] with at least
    one digit; [strict] is the grammar of JSON (no leading zero, digits on
    both sides of the point) *)
Definition readDecimal (strict : bool) (neg : bool) (s : string) : option (float * string) :=
  let '(ip, ni, r1) := readDigits s 0 in
  let leadingZero := match s with String "0" _ => Nat.ltb 1 ni | _ => false end in
  let '(all, nf, r2, pointOk) :=
    match r1 with
    | String "." r =>
        let '(v, n, r') := readDigits r ip in
        (v, n, r', negb strict || Nat.ltb 0 n)
    | _ => (ip, O, r1, true)
    end in
  if (Nat.eqb (ni + nf) 0 || (strict && (Nat.eqb ni 0 || leadingZero)) || negb pointOk)%bool
  then None
  else
    let '(ex, r3) := readExponent r2 in
    Some (decimal neg all (ex - Z.of_nat nf), r3).

Fixpoint trimStart (s : string) : string :=
  match s with
  | String c rest =>
      if (Nat.leb 9 (nat_of_ascii c) && Nat.leb (nat_of_ascii c) 13 || Ascii.eqb c " ")%bool
      then trimStart rest else s
  | EmptyString => s
  end.

Fixpoint trimEnd (s : string) : string :=
  match s with
  | EmptyString => EmptyString
  | String c rest =>
      match trimEnd rest with
      | EmptyString =>
          if (Nat.leb 9 (nat_of_ascii c) && Nat.leb (nat_of_ascii c) 13 || Ascii.eqb c " ")%bool
          then EmptyString else String c EmptyString
      | r => String c r
      end
  end.

(** [Number(s)] for decimal literals, the infinities and blank text *)
Definition stringToNumber (s : string) : float :=
  let t := trimEnd (trimStart s) in
  if String.eqb t "" then 0
  else
    let '(neg, r) :=
      match t with
      | String "-" r => (true, r)
      | String "+" r => (false, r)
      | _ => (false, t)
      end in
    if String.eqb r "Infinity" then (if neg then neg_infinity else infinity)
    else
      match readDecimal false neg r with
      | Some (x, EmptyString) => x
      | _ => nan
      end.

(** exactly [n] digits *)
Fixpoint readFixed (n : nat) (s : string) (acc : Z) : option (Z * string) :=
  match n with
  | O => Some (acc, s)
  | S n' =>
      match s with
      | String c rest =>
          if isDigit c
          then readFixed n' rest (acc * 10 + Z.of_nat (nat_of_ascii c - 48))%Z
          else None
      | EmptyString => None
      end
  end.

Definition expect (c : ascii) (s : string) : option string :=
  match s with
  | String c' rest => if Ascii.eqb c c' then Some rest else None
  | EmptyString => None
  end.

(** days between 1970-01-01 and the civil date [y-m-d] *)
Definition daysFromCivil (y m d : Z) : Z :=
  let y' := (if m <=? 2 then y - 1 else y)%Z in
  let era := (y' / 400)%Z in
  let yoe := (y' - era * 400)%Z in
  let doy := ((153 * (if m <=? 2 then m + 9 else m - 3) + 2) / 5 + d - 1)%Z in
  let doe := (yoe * 365 + yoe / 4 - yoe / 100 + doy)%Z in
  (era * 146097 + doe - 719468)%Z.

(** [Date.parse(s)] for [YYYY-MM-DD] and [YYYY-MM-DDTHH:mm:ssZ] *)
Definition dateParse (s : string) : float :=
  let result :=
    '(y, r) ← readFixed 4 s 0;
    r ← expect "-" r;
    '(m, r) ← readFixed 2 r 0;
    r ← expect "-" r;
    '(d, r) ← readFixed 2 r 0;
    if negb ((1 <=? m) && (m <=? 12) && (1 <=? d) && (d <=? 31))%Z then None
    else
      let days := daysFromCivil y m d in
      match r with
      | EmptyString => Some (days * 86400000)%Z
      | _ =>
          r ← expect "T" r;
          '(hh, r) ← readFixed 2 r 0;
          r ← expect ":" r;
          '(mm, r) ← readFixed 2 r 0;
          r ← expect ":" r;
          '(ss, r) ← readFixed 2 r 0;
          if (String.eqb r "Z" && (hh <? 24)%Z && (mm <? 60)%Z && (ss <? 60)%Z)%bool
          then Some ((((days * 24 + hh) * 60 + mm) * 60 + ss) * 1000)%Z
          else None
      end in
  match result with
  | Some ms => decimal (ms <? 0)%Z (Z.abs ms) 0
  | None => nan
  end.

(** *** JSON.parse *)

Fixpoint skipWs (s : string) : string :=
  match s with
  | String c rest =>
      if (Ascii.eqb c " " || Ascii.eqb c "009" || Ascii.eqb c "010" || Ascii.eqb c "013")%bool
      then skipWs rest else s
  | EmptyString => s
  end.

Definition hexVal (c : ascii) : option nat :=
  let n := nat_of_ascii c in
  if (Nat.leb 48 n && Nat.leb n 57)%bool then Some (n - 48)%nat
  else if (Nat.leb 97 n && Nat.leb n 102)%bool then Some (n - 87)%nat
  else if (Nat.leb 65 n && Nat.leb n 70)%bool then Some (n - 55)%nat
  else None.

(** the bytes of the code point [n] of the basic plane *)
Definition utf8 (n : nat) (tail : string) : string :=
  if (n <? 128)%nat then String (ascii_of_nat n) tail
  else if (n <? 2048)%nat then
    String (ascii_of_nat (192 + n / 64)) (String (ascii_of_nat (128 + n mod 64)) tail)
  else
    String (ascii_of_nat (224 + n / 4096))
      (String (ascii_of_nat (128 + (n / 64) mod 64))
         (String (ascii_of_nat (128 + n mod 64)) tail)).

Definition escape (c : ascii) : option ascii :=
  match c with
  | "034" => Some "034"
  | "\" => Some "\"
  | "/" => Some "/"
  | "b" => Some "008"
  | "f" => Some "012"
  | "n" => Some "010"
  | "r" => Some "013"
  | "t" => Some "009"
  | _ => None
  end%char.

(** the text of a string literal after its opening quote, and the rest *)
Fixpoint readString (s : string) : option (string * string) :=
  match s with
  | EmptyString => None
  | String "034" rest => Some (EmptyString, rest)
  | String "\" (String "u" (String h1 (String h2 (String h3 (String h4 rest))))) =>
      a ← hexVal h1; b ← hexVal h2; c ← hexVal h3; d ← hexVal h4;
      '(body, r) ← readString rest;
      Some (utf8 (((a * 16 + b) * 16 + c) * 16 + d) body, r)
  | String "\" (String e rest) =>
      c ← escape e;
      '(body, r) ← readString rest;
      Some (String c body, r)
  | String c rest =>
      if (nat_of_ascii c <? 32)%nat then None
      else '(body, r) ← readString rest; Some (String c body, r)
  end.

(** a later duplicate of a key replaces the value in place *)
Fixpoint setProp (k : string) (v : json) (props : list (string * json))
    : list (string * json) :=
  match props with
  | [] => [(k, v)]
  | (k', v') :: rest =>
      if String.eqb k k' then (k, v) :: rest else (k', v') :: setProp k v rest
  end.

(** keys that are array indices are enumerated first, in ascending order *)
Definition indexKey (k : string) : option Z :=
  match readDigits k 0 with
  | (v, S n, EmptyString) =>
      if ((String.eqb k "0" || negb (String.prefix "0" k)) && (v <? 4294967295)%Z)%bool
      then Some v else None
  | _ => None
  end.

Fixpoint insertIndex (i : Z) (kv : string * json) (l : list (Z * (string * json)))
    : list (Z * (string * json)) :=
  match l with
  | [] => [(i, kv)]
  | (j, kv') :: rest =>
      if (i <? j)%Z then (i, kv) :: l else (j, kv') :: insertIndex i kv rest
  end.

Definition propertyOrder (props : list (string * json)) : list (string * json) :=
  let indexed :=
    fold_left (fun acc kv => match indexKey (fst kv) with
                             | Some i => insertIndex i kv acc
                             | None => acc
                             end) props [] in
  (List.map snd indexed
    ++ List.filter (fun kv => match indexKey (fst kv) with Some _ => false | None => true end)
         props)%list.

Fixpoint readValue (fuel : nat) (s : string) : option (json * string) :=
  match fuel with
  | O => None
  | S fuel' =>
      match skipWs s with
      | String "{" rest =>
          match skipWs rest with
          | String "}" r => Some (JObj [], r)
          | r => readMembers fuel' r []
          end
      | String "[" rest =>
          match skipWs rest with
          | String "]" r => Some (JArr [], r)
          | r => readElements fuel' r []
          end
      | String "034" rest => '(str, r) ← readString rest; Some (JStr str, r)
      | String "t" (String "r" (String "u" (String "e" r))) => Some (JBool true, r)
      | String "f" (String "a" (String "l" (String "s" (String "e" r)))) =>
          Some (JBool false, r)
      | String "n" (String "u" (String "l" (String "l" r))) => Some (JNull, r)
      | String "-" rest => '(x, r) ← readDecimal true true rest; Some (JNum x, r)
      | t => '(x, r) ← readDecimal true false t; Some (JNum x, r)
      end
  end
with readElements (fuel : nat) (s : string) (acc : list json) : option (json * string) :=
  match fuel with
  | O => None
  | S fuel' =>
      '(v, r) ← readValue fuel' s;
      match skipWs r with
      | String "," r' => readElements fuel' r' (v :: acc)
      | String "]" r' => Some (JArr (rev (v :: acc)), r')
      | _ => None
      end
  end
with readMembers (fuel : nat) (s : string) (acc : list (string * json))
    : option (json * string) :=
  match fuel with
  | O => None
  | S fuel' =>
      match skipWs s with
      | String "034" rest =>
          '(k, r) ← readString rest;
          r ← expect ":" (skipWs r);
          '(v, r) ← readValue fuel' r;
          match skipWs r with
          | String "," r' => readMembers fuel' r' (setProp k v acc)
          | String "}" r' => Some (JObj (propertyOrder (setProp k v acc)), r')
          | _ => None
          end
      | _ => None
      end
  end.

(** [None]: the text is not JSON *)
Definition jsonParse (s : string) : option json :=
  '(v, r) ← readValue (2 * String.length s + 2) s;
  if String.eqb (skipWs r) "" then Some v else None.
End Reference.

Definition referenceRuntime : Runtime := {|
  Math_sin := Reference.sin;
  Math_cos := Reference.cos;
  Math_asin := Reference.asin;
  Math_pow := Reference.pow;
  Number_toString := Reference.toString;
  Number_toFixed := Reference.toFixed;
  StringToNumber := Reference.stringToNumber;
  Date_parse := Reference.dateParse;
  JSON_parse := Reference.jsonParse;
|}.

(** * Properties *)

(** ** Facts about binary64 arithmetic *)

Module FloatFacts.

Local Open Scope Z_scope.

Definition sf_nan (a : spec_float) : bool :=
match a with S754_nan => true | _ => false end.

Definition sf_fin (a : spec_float) : bool :=
match a with S754_zero _ | S754_finite _ _ _ => true | _ => false end.

(** the shapes a rounded result of sign [s] can take *)
Definition sf_signed (s : bool) (r : spec_float) : bool :=
match r with
| S754_zero s' | S754_infinity s' | S754_finite s' _ _ => Bool.eqb s s'
| S754_nan => false
end.

Ltac cmp_cases :=
repeat match goal with
| |- context [Z.compare ?x ?y] => destruct (Z.compare_spec x y)
| H : context [Z.compare ?x ?y] |- _ => destruct (Z.compare_spec x y)
| |- context [Pos.compare_cont Eq ?x ?y] =>
    change (Pos.compare_cont Eq x y) with (Pos.compare x y);
    destruct (Pos.compare_spec x y)
| H : context [Pos.compare_cont Eq ?x ?y] |- _ =>
    change (Pos.compare_cont Eq x y) with (Pos.compare x y) in H;
    destruct (Pos.compare_spec x y)
end.

Ltac sf_order :=
unfold SFltb, SFleb, SFeqb, SFcompare; intros;
repeat match goal with
| a : spec_float |- _ => destruct a
| s : bool |- _ => destruct s
end; simpl in *; try congruence; try reflexivity;
cmp_cases; simpl in *; subst; try congruence; try lia.

Lemma SFltb_false_leb a b :
sf_nan a = false -> sf_nan b = false -> SFltb a b = false -> SFleb b a = true.
Proof. sf_order. Qed.

Lemma SFleb_false_ltb a b :
sf_nan a = false -> sf_nan b = false -> SFleb a b = false -> SFltb b a = true.
Proof. sf_order. Qed.

Lemma SFltb_leb a b : SFltb a b = true -> SFleb a b = true.
Proof. sf_order. Qed.

Lemma SFltb_not_leb a b : SFltb a b = true -> SFleb b a = false.
Proof. sf_order. Qed.

Lemma SFleb_not_ltb a b : SFleb a b = true -> SFltb b a = false.
Proof. sf_order. Qed.

Lemma SFltb_trans a b c : SFltb a b = true -> SFltb b c = true -> SFltb a c = true.
Proof. sf_order. Qed.

Lemma SFleb_ltb_trans a b c : SFleb a b = true -> SFltb b c = true -> SFltb a c = true.
Proof. sf_order. Qed.

Lemma SFltb_leb_trans a b c : SFltb a b = true -> SFleb b c = true -> SFltb a c = true.
Proof. sf_order. Qed.

Lemma SFleb_trans a b c : SFleb a b = true -> SFleb b c = true -> SFleb a c = true.
Proof. sf_order. Qed.

Lemma SFltb_nonnan a b : SFltb a b = true -> sf_nan a = false /\ sf_nan b = false.
Proof. sf_order; auto. Qed.

Lemma SFleb_nonnan a b : SFleb a b = true -> sf_nan a = false /\ sf_nan b = false.
Proof. sf_order; auto. Qed.

Lemma SFltb_infinity a : SFltb a (S754_infinity false) = sf_fin a || SFeqb a (S754_infinity true).
Proof. unfold SFltb, SFeqb. destruct a as [s|s| |s m e]; try destruct s; reflexivity. Qed.

Lemma SFeqb_refl a : SFeqb a a = negb (sf_nan a).
Proof.
unfold SFeqb, SFcompare. destruct a as [s|s| |s m e]; try destruct s; simpl; try reflexivity;
rewrite Z.compare_refl; change (Pos.compare_cont Eq m m) with (Pos.compare m m);
rewrite Pos.compare_refl; reflexivity.
Qed.

(** shr keeps mantissas non-negative *)
Lemma shr_1_nonneg mrs : 0 <= shr_m mrs -> 0 <= shr_m (shr_1 mrs).
Proof.
destruct mrs as [m r s]. simpl. destruct m as [|p|p]; try destruct p; simpl; lia.
Qed.

Lemma iter_shr_1_nonneg p : forall mrs, 0 <= shr_m mrs -> 0 <= shr_m (SpecFloat.iter_pos shr_1 p mrs).
Proof.
induction p; intros mrs H; simpl; auto using shr_1_nonneg.
Qed.

Lemma shr_nonneg mrs e n : 0 <= shr_m mrs -> 0 <= shr_m (fst (shr mrs e n)).
Proof.
intros H. unfold shr. destruct n; simpl; auto using iter_shr_1_nonneg.
Qed.

Lemma shr_fexp_nonneg m e l : 0 <= m -> 0 <= shr_m (fst (shr_fexp prec emax m e l)).
Proof.
intros H. unfold shr_fexp. apply shr_nonneg.
destruct l as [|c]; [|destruct c]; simpl; exact H.
Qed.

Lemma round_nearest_even_nonneg m l : 0 <= m -> 0 <= round_nearest_even m l.
Proof.
intros H. unfold round_nearest_even. destruct l as [|c]; [|destruct c]; try lia.
destruct (Z.even m); lia.
Qed.



Lemma binary_round_aux_signed s m e l :
0 <= m -> sf_signed s (binary_round_aux prec emax s m e l) = true.
Proof.
intros H. unfold binary_round_aux.
pose proof (shr_fexp_nonneg m e l H) as H1.
destruct (shr_fexp prec emax m e l) as [mrs' e']. simpl in H1.
pose proof (shr_fexp_nonneg _ e' loc_Exact
              (round_nearest_even_nonneg _ (loc_of_shr_record mrs') H1)) as H2.
destruct (shr_fexp prec emax _ e' loc_Exact) as [mrs'' e'']. simpl in H2.
destruct (shr_m mrs'') as [|p|p]; simpl.
- apply eqb_reflx.
- destruct (e'' <=? _); simpl; apply eqb_reflx.
- lia.
Qed.

Lemma binary_round_signed s m e : sf_signed s (binary_round prec emax s m e) = true.
Proof.
unfold binary_round. destruct (shl_align _ _ _) as [mz ez].
apply binary_round_aux_signed. lia.
Qed.

Lemma binary_normalize_nonnan m e sz : sf_nan (binary_normalize prec emax m e sz) = false.
Proof.
destruct m as [|p|p]; simpl; try reflexivity.
- pose proof (binary_round_signed false p e). destruct (binary_round _ _ _ _ _); auto; discriminate.
- pose proof (binary_round_signed true p e). destruct (binary_round _ _ _ _ _); auto; discriminate.
Qed.

Lemma binary_normalize_nonpos m e :
m <= 0 -> SFleb (binary_normalize prec emax m e false) (S754_zero false) = true.
Proof.
intros H. destruct m as [|p|p]; simpl; try reflexivity; try lia.
pose proof (binary_round_signed true p e).
destruct (binary_round _ _ _ _ _) as [s|s| |s m' e']; simpl in *; try discriminate;
destruct s; try discriminate; reflexivity.
Qed.

(** canonical mantissas *)
Lemma digits2_bounds m :
2 ^ (Zpos (digits2_pos m) - 1) <= Zpos m < 2 ^ Zpos (digits2_pos m).
Proof.
induction m as [m IH|m IH|]; simpl digits2_pos.
- rewrite Pos2Z.inj_succ. replace (Z.succ (Zpos (digits2_pos m)) - 1) with (Zpos (digits2_pos m)) by lia.
  rewrite Z.pow_succ_r by lia.
  assert (2 ^ Zpos (digits2_pos m) = 2 * 2 ^ (Zpos (digits2_pos m) - 1)) as E.
  { rewrite <- Z.pow_succ_r by lia. f_equal. lia. }
  lia.
- rewrite Pos2Z.inj_succ. replace (Z.succ (Zpos (digits2_pos m)) - 1) with (Zpos (digits2_pos m)) by lia.
  rewrite Z.pow_succ_r by lia.
  assert (2 ^ Zpos (digits2_pos m) = 2 * 2 ^ (Zpos (digits2_pos m) - 1)) as E.
  { rewrite <- Z.pow_succ_r by lia. f_equal. lia. }
  lia.
- simpl. lia.
Qed.

Lemma canonical_lt m1 e1 m2 e2 :
canonical_mantissa prec emax m1 e1 = true ->
canonical_mantissa prec emax m2 e2 = true ->
e1 < e2 -> Zpos m1 < Zpos m2 * 2 ^ (e2 - e1).
Proof.
unfold canonical_mantissa, fexp. intros H1 H2 Hlt.
apply Z.eqb_eq in H1, H2.
pose proof (digits2_bounds m1) as [_ B1].
pose proof (digits2_bounds m2) as [B2 _].
set (d1 := Zpos (digits2_pos m1)) in *. set (d2 := Zpos (digits2_pos m2)) in *.
assert (d1 + e1 < d2 + e2) as Hd by lia.
assert (0 < d1) by (unfold d1; lia). assert (0 < d2) by (unfold d2; lia).
assert (2 ^ d1 <= 2 ^ (d2 - 1 + (e2 - e1))) as Hp by (apply Z.pow_le_mono_r; lia).
rewrite Z.pow_add_r in Hp by lia.
assert (0 < 2 ^ (e2 - e1)) by (apply Z.pow_pos_nonneg; lia).
nia.
Qed.

Lemma shl_align_fst m e e' :
e' <= e -> Zpos (fst (shl_align m e e')) = Zpos m * 2 ^ (e - e').
Proof.
intros H. unfold shl_align.
destruct (e' - e) as [|d|d] eqn:E; cbn [fst].
- replace (e - e') with 0 by lia. rewrite Z.pow_0_r. lia.
- lia.
- change (Pos.iter xO m d) with (shift_pos d m). rewrite shift_pos_correct.
  rewrite Z.pow_pos_fold.
  assert (e - e' = Zpos d) as -> by (rewrite <- Pos2Z.opp_neg, <- E; ring).
  ring.
Qed.

Lemma SFsub_nonnan a b :
sf_nan a = false -> sf_fin b = true -> sf_nan (SF64sub a b) = false.
Proof.
unfold SF64sub, SFsub. intros Ha Hb.
destruct a as [sa|sa| |sa ma ea]; destruct b as [sb|sb| |sb mb eb];
  try discriminate; try reflexivity;
  try (destruct sa, sb; reflexivity).
apply binary_normalize_nonnan.
Qed.

Lemma SFsub_le a b :
SpecFloat.valid_binary prec emax a = true -> SpecFloat.valid_binary prec emax b = true ->
sf_fin a = true -> sf_fin b = true ->
SFleb a b = true -> SFleb (SF64sub a b) (S754_zero false) = true.
Proof.
intros Va Vb Fa Fb Hle. unfold SF64sub, SFsub.
destruct a as [sa|sa| |sa ma ea]; destruct b as [sb|sb| |sb mb eb]; try discriminate.
- destruct sa, sb; reflexivity.
- destruct sb; [discriminate|reflexivity].
- destruct sa; [reflexivity|discriminate].
- apply binary_normalize_nonpos.
  simpl in Va, Vb. unfold bounded in Va, Vb.
  apply andb_prop in Va as [Ca _]. apply andb_prop in Vb as [Cb _].
  rewrite !shl_align_fst by lia.
  unfold SFleb, SFcompare in Hle.
  assert (0 < 2 ^ (ea - Z.min ea eb)) by (apply Z.pow_pos_nonneg; lia).
  assert (0 < 2 ^ (eb - Z.min ea eb)) by (apply Z.pow_pos_nonneg; lia).
  destruct sa, sb; unfold cond_Zopp; simpl in Hle; try discriminate; try lia.
  + (* both negative *)
    destruct (Z.compare_spec ea eb) as [E|L|G]; try discriminate.
    * subst. rewrite Z.min_id, Z.sub_diag. simpl (2 ^ 0).
      change (Pos.compare_cont Eq ma mb) with (Pos.compare ma mb) in Hle.
      destruct (Pos.compare_spec ma mb); simpl in Hle; try discriminate; subst; lia.
    * pose proof (canonical_lt _ _ _ _ Cb Ca G).
      rewrite Z.min_r by lia. rewrite Z.sub_diag. simpl (2 ^ 0). lia.
  + destruct (Z.compare_spec ea eb) as [E|L|G]; try discriminate.
    * subst. rewrite Z.min_id, Z.sub_diag. simpl (2 ^ 0).
      change (Pos.compare_cont Eq ma mb) with (Pos.compare ma mb) in Hle.
      destruct (Pos.compare_spec ma mb); simpl in Hle; try discriminate; subst; lia.
    * pose proof (canonical_lt _ _ _ _ Ca Cb L).
      rewrite Z.min_l by lia. rewrite Z.sub_diag. simpl (2 ^ 0). lia.
Qed.

Lemma SFadd_nonnan a b :
sf_nan a = false -> sf_fin b = true -> sf_nan (SF64add a b) = false.
Proof.
unfold SF64add, SFadd. intros Ha Hb.
destruct a as [sa|sa| |sa ma ea]; destruct b as [sb|sb| |sb mb eb];
  try discriminate; try reflexivity;
  try (destruct sa, sb; reflexivity).
apply binary_normalize_nonnan.
Qed.

(** *** Values that are never NaN *)

Lemma SFdiv_core_nonneg m1 e1 m2 e2 :
(0 <= m1)%Z -> (0 < m2)%Z ->
(0 <= fst (fst (SFdiv_core_binary prec emax m1 e1 m2 e2)))%Z.
Proof.
intros H1 H2. unfold SFdiv_core_binary.
set (s := (e1 - e2 - _)%Z).
set (m' := match s with Zpos _ => Z.shiftl m1 s | Z0 => m1 | Zneg _ => Z0 end).
assert (0 <= m')%Z as Hm'.
{ unfold m'. destruct s; try lia. apply Z.shiftl_nonneg. exact H1. }
pose proof (Z.div_pos m' m2 Hm' H2) as Hq. unfold Z.div in Hq.
destruct (Z.div_eucl m' m2) as [q r]. simpl in *. exact Hq.
Qed.

Lemma SFdiv_nonnan a s m e :
sf_nan a = false -> sf_nan (SF64div a (S754_finite s m e)) = false.
Proof.
unfold SF64div, SFdiv. intros Ha.
destruct a as [sa|sa| |sa ma ea]; try discriminate; try reflexivity.
pose proof (SFdiv_core_nonneg (Zpos ma) ea (Zpos m) e ltac:(lia) ltac:(lia)) as Hq.
destruct (SFdiv_core_binary prec emax (Zpos ma) ea (Zpos m) e) as [[q e'] l].
simpl in Hq.
pose proof (binary_round_aux_signed (xorb sa s) q e' l Hq) as Hs.
destruct (binary_round_aux _ _ _ _ _ _); simpl in *; congruence.
Qed.

Lemma SFmul_finite a b : sf_fin a = true -> sf_fin b = true -> sf_nan (SF64mul a b) = false.
Proof.
unfold SF64mul, SFmul. intros Ha Hb.
destruct a as [sa|sa| |sa ma ea]; destruct b as [sb|sb| |sb mb eb];
  try discriminate; try reflexivity.
pose proof (binary_round_aux_signed (xorb sa sb) (Zpos (ma * mb)) (ea + eb) loc_Exact
              ltac:(lia)) as Hs.
destruct (binary_round_aux _ _ _ _ _ _); simpl in *; congruence.
Qed.

Lemma SFmul_nonnan s m e b :
sf_nan b = false -> sf_nan (SF64mul (S754_finite s m e) b) = false.
Proof.
unfold SF64mul, SFmul. intros Hb.
destruct b as [sb|sb| |sb mb eb]; try discriminate; try reflexivity.
pose proof (binary_round_aux_signed (xorb s sb) (Zpos (m * mb)) (e + eb) loc_Exact
              ltac:(lia)) as Hs.
destruct (binary_round_aux _ _ _ _ _ _); simpl in *; congruence.
Qed.

(** a difference of a finite and an infinite value falls outside any finite window *)
Lemma SFsub_mixed a b lo hi :
sf_nan a = false -> sf_nan b = false -> sf_fin a <> sf_fin b ->
sf_fin lo = true -> sf_fin hi = true ->
SFltb (SF64sub b a) lo || SFltb hi (SF64sub b a) = true.
Proof.
unfold SF64sub, SFsub, SFltb. intros Ha Hb Hab Hlo Hhi.
destruct a as [sa|sa| |sa ma ea]; destruct b as [sb|sb| |sb mb eb];
  try discriminate; simpl in Hab; try congruence;
  destruct lo as [s1|s1| |s1 m1 e1]; try discriminate;
  destruct hi as [s2|s2| |s2 m2 e2]; try discriminate;
  try destruct sa; try destruct sb; reflexivity.
Qed.

(** *** The same facts on primitive floats *)

Local Open Scope float_scope.

Lemma Prim2SF_infinity : Prim2SF infinity = S754_infinity false.
Proof. reflexivity. Qed.

Lemma is_nan_spec f : is_nan f = sf_nan (Prim2SF f).
Proof. unfold is_nan. rewrite FloatAxioms.eqb_spec, SFeqb_refl. apply negb_involutive. Qed.

Lemma is_finite_spec f : is_finite f = sf_fin (Prim2SF f).
Proof.
unfold is_finite, is_infinity.
rewrite is_nan_spec, FloatAxioms.eqb_spec, abs_spec, Prim2SF_infinity.
destruct (Prim2SF f) as [s|s| |s m e]; try destruct s; reflexivity.
Qed.

Lemma finite_nonnan f : is_finite f = true -> is_nan f = false.
Proof.
rewrite is_finite_spec, is_nan_spec. destruct (Prim2SF f); simpl; congruence.
Qed.

Lemma ltb_false_leb x y :
is_nan x = false -> is_nan y = false -> (x <? y) = false -> (y <=? x) = true.
Proof. rewrite !is_nan_spec, ltb_spec, leb_spec. apply SFltb_false_leb. Qed.

Lemma leb_false_ltb x y :
is_nan x = false -> is_nan y = false -> (x <=? y) = false -> (y <? x) = true.
Proof. rewrite !is_nan_spec, ltb_spec, leb_spec. apply SFleb_false_ltb. Qed.

Lemma ltb_leb x y : (x <? y) = true -> (x <=? y) = true.
Proof. rewrite ltb_spec, leb_spec. apply SFltb_leb. Qed.

Lemma ltb_not_leb x y : (x <? y) = true -> (y <=? x) = false.
Proof. rewrite ltb_spec, leb_spec. apply SFltb_not_leb. Qed.

Lemma leb_not_ltb x y : (x <=? y) = true -> (y <? x) = false.
Proof. rewrite ltb_spec, leb_spec. apply SFleb_not_ltb. Qed.

Lemma ltb_trans x y z : (x <? y) = true -> (y <? z) = true -> (x <? z) = true.
Proof. rewrite !ltb_spec. apply SFltb_trans. Qed.

Lemma leb_ltb_trans x y z : (x <=? y) = true -> (y <? z) = true -> (x <? z) = true.
Proof. rewrite !ltb_spec, leb_spec. apply SFleb_ltb_trans. Qed.

Lemma ltb_leb_trans x y z : (x <? y) = true -> (y <=? z) = true -> (x <? z) = true.
Proof. rewrite !ltb_spec, leb_spec. apply SFltb_leb_trans. Qed.

Lemma leb_trans x y z : (x <=? y) = true -> (y <=? z) = true -> (x <=? z) = true.
Proof. rewrite !leb_spec. apply SFleb_trans. Qed.

Lemma ltb_nonnan x y : (x <? y) = true -> is_nan x = false /\ is_nan y = false.
Proof. rewrite ltb_spec, !is_nan_spec. apply SFltb_nonnan. Qed.

Lemma leb_nonnan x y : (x <=? y) = true -> is_nan x = false /\ is_nan y = false.
Proof. rewrite leb_spec, !is_nan_spec. apply SFleb_nonnan. Qed.

Lemma leb_refl x : is_nan x = false -> (x <=? x) = true.
Proof.
intros H. destruct (x <=? x) eqn:E; [reflexivity|].
pose proof (leb_false_ltb _ _ H H E) as L.
pose proof (ltb_not_leb _ _ L). pose proof (ltb_leb _ _ L). congruence.
Qed.

Lemma sub_nonnan x y : is_nan x = false -> is_finite y = true -> is_nan (x - y) = false.
Proof. rewrite !is_nan_spec, is_finite_spec, sub_spec. apply SFsub_nonnan. Qed.

Lemma add_nonnan x y : is_nan x = false -> is_finite y = true -> is_nan (x + y) = false.
Proof. rewrite !is_nan_spec, is_finite_spec, add_spec. apply SFadd_nonnan. Qed.

Lemma sub_le x y :
is_finite x = true -> is_finite y = true -> (x <=? y) = true -> (x - y <=? 0) = true.
Proof.
rewrite !is_finite_spec, !leb_spec, sub_spec. intros Fx Fy H.
apply SFsub_le; auto using Prim2SF_valid.
Qed.

(** when the rounded difference [y - x] is at least a positive bound, [x < y] *)
Lemma sub_lower_bound x y c :
is_finite x = true -> is_finite y = true -> (0 <? c) = true ->
(y - x <? c) = false -> (x <? y) = true.
Proof.
intros Fx Fy Hc H.
destruct (x <? y) eqn:E; [reflexivity|].
pose proof (ltb_false_leb _ _ (finite_nonnan _ Fx) (finite_nonnan _ Fy) E) as L.
pose proof (sub_le _ _ Fy Fx L) as S.
rewrite (leb_ltb_trans _ _ _ S Hc) in H. discriminate.
Qed.

Lemma sub_window_finite x y lo hi :
is_nan x = false -> is_nan y = false ->
is_finite lo = true -> is_finite hi = true ->
(y - x <? lo) || (hi <? y - x) = false -> is_finite x = is_finite y.
Proof.
rewrite !is_nan_spec, !is_finite_spec, !ltb_spec, sub_spec. intros Hx Hy Hlo Hhi H.
destruct (bool_decide (sf_fin (Prim2SF x) = sf_fin (Prim2SF y))) eqn:E.
- apply bool_decide_eq_true in E. exact E.
- apply bool_decide_eq_false in E.
  rewrite (SFsub_mixed _ _ _ _ Hx Hy E Hlo Hhi) in H. discriminate.
Qed.

(** a finite number other than zero *)
Definition properNumber (c : float) : bool :=
match Prim2SF c with S754_finite _ _ _ => true | _ => false end.

Lemma div_nonnan x c : is_nan x = false -> properNumber c = true -> is_nan (x / c) = false.
Proof.
unfold properNumber. rewrite !is_nan_spec, div_spec. intros Hx Hc.
destruct (Prim2SF c) as [| | |s m e]; try discriminate. apply SFdiv_nonnan. exact Hx.
Qed.

Lemma mul_nonnan c x : properNumber c = true -> is_nan x = false -> is_nan (c * x) = false.
Proof.
unfold properNumber. rewrite !is_nan_spec, mul_spec. intros Hc Hx.
destruct (Prim2SF c) as [| | |s m e]; try discriminate. apply SFmul_nonnan. exact Hx.
Qed.

Lemma abs_nonnan x : is_nan x = false -> is_nan (abs x) = false.
Proof. rewrite !is_nan_spec, abs_spec. destruct (Prim2SF x); simpl; congruence. Qed.

Lemma opp_nonnan x : is_nan x = false -> is_nan (- x) = false.
Proof. rewrite !is_nan_spec, opp_spec. destruct (Prim2SF x); simpl; congruence. Qed.

End FloatFacts.

(** ** The sign of a difference of two numbers *)

Module FloatSub.
Import FloatFacts.
Local Open Scope Z_scope.

Lemma fexp_ge_emin x : SpecFloat.emin prec emax <= fexp prec emax x.
Proof. unfold fexp. lia. Qed.

Lemma canonical_ge_emin m e :
canonical_mantissa prec emax m e = true -> SpecFloat.emin prec emax <= e.
Proof.
unfold canonical_mantissa. intros H. apply Z.eqb_eq in H. rewrite <- H. apply fexp_ge_emin.
Qed.

Lemma shr_1_half mrs : 0 <= shr_m mrs -> shr_m (shr_1 mrs) = shr_m mrs / 2.
Proof.
destruct mrs as [m r s]. cbn [shr_m]. intros H.
destruct m as [|p|p]; [reflexivity| |lia].
destruct p as [p|p|]; cbn [shr_1 shr_m].
- rewrite Pos2Z.inj_xI. apply Z.div_unique with 1; lia.
- rewrite Pos2Z.inj_xO. apply Z.div_unique with 0; lia.
- reflexivity.
Qed.

Lemma iter_shr_1_div p :
forall mrs, 0 <= shr_m mrs ->
  shr_m (SpecFloat.iter_pos shr_1 p mrs) = shr_m mrs / 2 ^ Zpos p.
Proof.
induction p as [p IH|p IH|]; intros mrs H; cbn [SpecFloat.iter_pos].
- rewrite IH, IH, shr_1_half by
    (try apply iter_shr_1_nonneg; try apply shr_1_nonneg; exact H).
  rewrite !Z.div_div by (try apply Z.pow_pos_nonneg; lia).
  f_equal. replace (Zpos p~1) with (1 + Zpos p + Zpos p) by lia.
  rewrite !Z.pow_add_r by lia. change (2 ^ 1) with 2. ring.
- rewrite IH, IH by (try apply iter_shr_1_nonneg; exact H).
  rewrite !Z.div_div by (try apply Z.pow_pos_nonneg; lia).
  f_equal. replace (Zpos p~0) with (Zpos p + Zpos p) by lia.
  rewrite !Z.pow_add_r by lia. ring.
- rewrite shr_1_half by exact H. reflexivity.
Qed.

Lemma shr_record_of_loc_m m l : shr_m (shr_record_of_loc m l) = m.
Proof. destruct l as [|c]; [|destruct c]; reflexivity. Qed.

(** a positive mantissa at an exponent not below [emin] is not shifted away *)
Lemma shr_fexp_pos m e l :
0 < m -> SpecFloat.emin prec emax <= e ->
0 < shr_m (fst (shr_fexp prec emax m e l)) /\ SpecFloat.emin prec emax <= snd (shr_fexp prec emax m e l).
Proof.
intros Hm He. unfold shr_fexp, shr.
destruct m as [|p|p]; try lia. cbn [Zdigits2].
pose proof (digits2_bounds p) as [Hlo _].
set (d := Zpos (digits2_pos p)) in *.
destruct (fexp prec emax (d + e) - e) as [|n|n] eqn:E; cbn [fst snd];
  rewrite ?shr_record_of_loc_m; try (split; lia).
rewrite iter_shr_1_div by (rewrite shr_record_of_loc_m; lia).
rewrite shr_record_of_loc_m.
unfold fexp in E.
assert (Zpos n = d - prec) as En by lia.
split; [|lia].
assert (prec < d) by lia.
apply Z.div_str_pos. split; [apply Z.pow_pos_nonneg; lia|].
rewrite En. etransitivity; [|exact Hlo].
apply Z.pow_le_mono_r; unfold prec; lia.
Qed.

Lemma round_nearest_even_ge m l : m <= round_nearest_even m l.
Proof.
unfold round_nearest_even. destruct l as [|c]; [|destruct c]; try lia.
destruct (Z.even m); lia.
Qed.

Definition sf_positive (r : spec_float) : bool :=
match r with
| S754_infinity false | S754_finite false _ _ => true
| _ => false
end.

Lemma binary_round_aux_pos m e l :
0 < m -> SpecFloat.emin prec emax <= e -> sf_positive (binary_round_aux prec emax false m e l) = true.
Proof.
intros Hm He. unfold binary_round_aux.
pose proof (shr_fexp_pos m e l Hm He) as [H1 H1e].
destruct (shr_fexp prec emax m e l) as [mrs' e']. cbn [fst snd] in H1, H1e.
pose proof (round_nearest_even_ge (shr_m mrs') (loc_of_shr_record mrs')) as Hr.
pose proof (shr_fexp_pos (round_nearest_even (shr_m mrs') (loc_of_shr_record mrs')) e'
              loc_Exact ltac:(lia) H1e) as [H2 _].
destruct (shr_fexp prec emax _ e' loc_Exact) as [mrs'' e'']. cbn [fst] in H2.
destruct (shr_m mrs'') as [|q|q]; try lia.
destruct (e'' <=? _); reflexivity.
Qed.

Lemma binary_round_pos m e :
SpecFloat.emin prec emax <= e -> sf_positive (binary_round prec emax false m e) = true.
Proof.
intros He. unfold binary_round, shl_align.
destruct (fexp prec emax (Zpos (digits2_pos m) + e) - e) as [|d|d] eqn:E;
  apply binary_round_aux_pos; try lia.
pose proof (fexp_ge_emin (Zpos (digits2_pos m) + e)). lia.
Qed.

Lemma binary_normalize_pos m e :
0 < m -> SpecFloat.emin prec emax <= e -> sf_positive (binary_normalize prec emax m e false) = true.
Proof.
intros Hm He. destruct m as [|p|p]; try lia. apply binary_round_pos. exact He.
Qed.

Lemma sf_positive_ltb r : sf_positive r = true -> SFltb (S754_zero false) r = true.
Proof. destruct r as [s|s| |s m e]; try destruct s; try discriminate; reflexivity. Qed.

(** the rounded difference of two finite values is positive when the first
    is the larger: no difference of distinct values rounds to zero *)
Lemma SFsub_pos a b :
SpecFloat.valid_binary prec emax a = true -> SpecFloat.valid_binary prec emax b = true ->
sf_fin a = true -> sf_fin b = true ->
SFltb b a = true -> SFltb (S754_zero false) (SF64sub a b) = true.
Proof.
intros Va Vb Fa Fb Hlt. unfold SF64sub, SFsub.
destruct a as [sa|sa| |sa ma ea]; destruct b as [sb|sb| |sb mb eb]; try discriminate;
  try (destruct sa; discriminate || reflexivity);
  try (destruct sb; discriminate || reflexivity).
apply sf_positive_ltb.
simpl in Va, Vb. unfold bounded in Va, Vb.
apply andb_prop in Va as [Ca _]. apply andb_prop in Vb as [Cb _].
pose proof (canonical_ge_emin _ _ Ca). pose proof (canonical_ge_emin _ _ Cb).
apply binary_normalize_pos; [|lia].
rewrite !shl_align_fst by lia.
unfold SFltb, SFcompare in Hlt.
assert (0 < 2 ^ (ea - Z.min ea eb)) by (apply Z.pow_pos_nonneg; lia).
assert (0 < 2 ^ (eb - Z.min ea eb)) by (apply Z.pow_pos_nonneg; lia).
destruct sa, sb; unfold cond_Zopp; simpl in Hlt; try discriminate; try lia.
- (* both negative: b < a means |a| < |b| *)
  destruct (Z.compare_spec eb ea) as [E|L|G]; try discriminate.
  * subst. rewrite Z.min_id, Z.sub_diag. simpl (2 ^ 0).
    change (Pos.compare_cont Eq mb ma) with (Pos.compare mb ma) in Hlt.
    destruct (Pos.compare_spec mb ma); simpl in Hlt; try discriminate; subst; lia.
  * pose proof (canonical_lt _ _ _ _ Ca Cb G).
    rewrite Z.min_l by lia. rewrite Z.sub_diag. simpl (2 ^ 0). lia.
- destruct (Z.compare_spec eb ea) as [E|L|G]; try discriminate.
  * subst. rewrite Z.min_id, Z.sub_diag. simpl (2 ^ 0).
    change (Pos.compare_cont Eq mb ma) with (Pos.compare mb ma) in Hlt.
    destruct (Pos.compare_spec mb ma); simpl in Hlt; try discriminate; subst; lia.
  * pose proof (canonical_lt _ _ _ _ Cb Ca L).
    rewrite Z.min_r by lia. rewrite Z.sub_diag. simpl (2 ^ 0). lia.
Qed.

Local Open Scope float_scope.

Lemma sub_pos x y :
is_finite x = true -> is_finite y = true -> (y <? x) = true -> (0 <? x - y) = true.
Proof.
intros Hx Hy Hlt. rewrite is_finite_spec in Hx, Hy.
rewrite ltb_spec in *. rewrite sub_spec.
apply SFsub_pos; auto using Prim2SF_valid.
Qed.
End FloatSub.

Module FloatOrder.
Import FloatFacts FloatSub.

Lemma SFsub_pos_iff a b :
SpecFloat.valid_binary prec emax a = true -> SpecFloat.valid_binary prec emax b = true ->
sf_nan a = false -> sf_nan b = false ->
SFltb (S754_zero false) (SF64sub a b) = SFltb b a.
Proof.
intros Va Vb Na Nb.
destruct (sf_fin a) eqn:Fa; [destruct (sf_fin b) eqn:Fb|].
- destruct (SFltb b a) eqn:L.
  + apply SFsub_pos; assumption.
  + apply SFleb_not_ltb. apply SFsub_le; try assumption.
    apply SFltb_false_leb; assumption.
- destruct a as [sa|sa| |sa ma ea]; destruct b as [sb|sb| |sb mb eb]; try discriminate;
    destruct sa, sb; reflexivity.
- destruct a as [sa|sa| |sa ma ea]; destruct b as [sb|sb| |sb mb eb]; try discriminate;
    destruct sa; try destruct sb; reflexivity.
Qed.

Lemma SFmul_nonnan_r a s m e :
sf_nan a = false -> sf_nan (SF64mul a (S754_finite s m e)) = false.
Proof.
unfold SF64mul, SFmul. intros Ha.
destruct a as [sa|sa| |sa ma ea]; try discriminate; try reflexivity.
pose proof (binary_round_aux_signed (xorb sa s) (Zpos (ma * m)) (ea + e)%Z loc_Exact
              ltac:(lia)) as Hs.
destruct (binary_round_aux _ _ _ _ _ _); simpl in *; congruence.
Qed.

Local Open Scope float_scope.

(** the sign test of a comparator [a - b] on values that are numbers *)
Lemma sub_pos_iff x y :
is_nan x = false -> is_nan y = false -> (0 <? x - y) = (y <? x).
Proof.
intros Hx Hy. rewrite is_nan_spec in Hx, Hy.
rewrite !ltb_spec, sub_spec.
apply SFsub_pos_iff; auto using Prim2SF_valid.
Qed.

Lemma mul_nonnan_r x c : is_nan x = false -> properNumber c = true -> is_nan (x * c) = false.
Proof.
intros Hx Hc. rewrite is_nan_spec in *. rewrite mul_spec.
unfold properNumber in Hc. destruct (Prim2SF c) as [| | |s m e]; try discriminate.
apply SFmul_nonnan_r. exact Hx.
Qed.
End FloatOrder.

Module FloatZero.
Import FloatFacts FloatSub.
Local Open Scope Z_scope.

Lemma shr_fexp_snd m e l :
  snd (shr_fexp prec emax m e l) = Z.max e (fexp prec emax (Zdigits2 m + e)).
Proof.
  unfold shr_fexp, shr.
  destruct (fexp prec emax (Zdigits2 m + e) - e) as [|p|p] eqn:E; cbn [snd]; lia.
Qed.

Lemma shr_fexp_le m e l : 0 <= m -> shr_m (fst (shr_fexp prec emax m e l)) <= m.
Proof.
  intros Hm. unfold shr_fexp, shr.
  destruct (fexp prec emax (Zdigits2 m + e) - e) as [|p|p]; cbn [fst];
    try (rewrite shr_record_of_loc_m; lia).
  rewrite iter_shr_1_div by (rewrite shr_record_of_loc_m; exact Hm).
  rewrite shr_record_of_loc_m.
  apply Z.div_le_upper_bound; [apply Z.pow_pos_nonneg; lia|].
  assert (1 <= 2 ^ Zpos p) by (apply Z.pow_le_mono_r with (b := 0) (c := Zpos p) (a := 2); lia).
  nia.
Qed.

Lemma round_nearest_even_le m l : round_nearest_even m l <= m + 1.
Proof.
  unfold round_nearest_even. destruct l as [|c]; [|destruct c]; try lia.
  destruct (Z.even m); lia.
Qed.

Lemma Zdigits2_le m b : 0 <= b -> 0 <= m <= 2 ^ b -> Zdigits2 m <= b + 1.
Proof.
  intros Hb [Hm Hle]. destruct m as [|p|p]; cbn [Zdigits2]; try lia.
  pose proof (digits2_bounds p) as [Hlo _].
  destruct (Z.le_gt_cases (Zpos (digits2_pos p)) (b + 1)) as [H|H]; [exact H|].
  assert (2 ^ (b + 1) <= 2 ^ (Zpos (digits2_pos p) - 1)) by (apply Z.pow_le_mono_r; lia).
  rewrite Z.pow_add_r in H0 by lia. change (2 ^ 1) with 2 in H0.
  assert (0 < 2 ^ b) by (apply Z.pow_pos_nonneg; lia). lia.
Qed.

(** a mantissa below [2 ^ 106] at an exponent not above [-104] does not
    round to an infinity *)
Lemma binary_round_aux_small s m e :
  0 <= m < 2 ^ 106 -> e <= -104 ->
  sf_fin (binary_round_aux prec emax s m e loc_Exact) = true.
Proof.
  intros Hm He. unfold binary_round_aux.
  pose proof (shr_fexp_snd m e loc_Exact) as E1.
  pose proof (shr_fexp_le m e loc_Exact ltac:(lia)) as L1.
  pose proof (shr_fexp_nonneg m e loc_Exact ltac:(lia)) as N1.
  destruct (shr_fexp prec emax m e loc_Exact) as [mrs' e']. cbn [fst snd] in *.
  set (m1 := round_nearest_even (shr_m mrs') (loc_of_shr_record mrs')).
  assert (0 <= m1 <= 2 ^ 106) as Hm1.
  { unfold m1.
    pose proof (round_nearest_even_le (shr_m mrs') (loc_of_shr_record mrs')).
    pose proof (round_nearest_even_nonneg (shr_m mrs') (loc_of_shr_record mrs') N1).
    lia. }
  pose proof (shr_fexp_snd m1 e' loc_Exact) as E2.
  pose proof (shr_fexp_nonneg m1 e' loc_Exact ltac:(lia)) as N2.
  destruct (shr_fexp prec emax m1 e' loc_Exact) as [mrs'' e'']. cbn [fst snd] in *.
  assert (Zdigits2 m <= 107) as D0 by (apply (Zdigits2_le m 106); lia).
  assert (Zdigits2 m1 <= 107) as D1 by (apply (Zdigits2_le m1 106); lia).
  assert (e'' <= emax - prec) as Hfit.
  { unfold fexp, SpecFloat.emin, emax, prec in *. lia. }
  destruct (shr_m mrs'') as [|p|p]; try reflexivity; [|lia].
  apply Z.leb_le in Hfit. rewrite Hfit. reflexivity.
Qed.

Definition sf_one : spec_float := S754_finite false 4503599627370496 (-52).

(** the exponent and the mantissa of a number of magnitude at most one *)
Lemma unit_bounds s m e :
  SpecFloat.valid_binary prec emax (S754_finite s m e) = true ->
  SFleb (SFabs (S754_finite s m e)) sf_one = true ->
  e <= -52 /\ Zpos m < 2 ^ 53.
Proof.
  cbn [SpecFloat.valid_binary SFabs]. unfold bounded, canonical_mantissa. intros V H.
  apply andb_prop in V as [C _]. apply Z.eqb_eq in C.
  pose proof (digits2_bounds m) as [_ Hhi].
  assert (Zpos (digits2_pos m) <= 53) as Hd by (unfold fexp, prec in C; lia).
  split.
  - unfold SFleb, SFcompare, sf_one in H.
    destruct (Z.compare_spec e (-52)) as [E|L|G]; [lia|lia|discriminate].
  - eapply Z.lt_le_trans; [exact Hhi|]. apply Z.pow_le_mono_r; lia.
Qed.

(** the product of two numbers of magnitude at most one is finite *)
Lemma SFmul_unit a b :
  SpecFloat.valid_binary prec emax a = true -> SpecFloat.valid_binary prec emax b = true ->
  SFleb (SFabs a) sf_one = true -> SFleb (SFabs b) sf_one = true ->
  sf_fin (SF64mul a b) = true.
Proof.
  intros Va Vb Ha Hb. unfold SF64mul, SFmul.
  destruct a as [sa|sa| |sa ma ea]; destruct b as [sb|sb| |sb mb eb];
    try discriminate; try reflexivity.
  destruct (unit_bounds sa ma ea Va Ha) as [Ea Ma].
  destruct (unit_bounds sb mb eb Vb Hb) as [Eb Mb].
  apply binary_round_aux_small; [|lia].
  rewrite Pos2Z.inj_mul. change (2 ^ 106) with (2 ^ 53 * 2 ^ 53). nia.
Qed.

(** a finite number times zero, added to zero, is zero *)
Lemma SFzero_absorbs c :
  sf_fin c = true ->
  SF64add (S754_zero false) (SF64mul c (S754_zero false)) = S754_zero false.
Proof. destruct c as [s|s| |s m e]; try discriminate; destruct s; reflexivity. Qed.

Lemma SFsub_self a :
  sf_fin a = true -> SpecFloat.valid_binary prec emax a = true ->
  SF64sub a a = S754_zero false.
Proof.
  intros Fa Va. unfold SF64sub, SFsub.
  destruct a as [s|s| |s m e]; try discriminate; [destruct s; reflexivity|].
  rewrite Z.min_id.
  replace (cond_Zopp s (Zpos (fst (shl_align m e e)))
           - cond_Zopp s (Zpos (fst (shl_align m e e)))) with 0 by lia.
  reflexivity.
Qed.

Local Open Scope float_scope.

Lemma sub_self x : is_finite x = true -> x - x = 0.
Proof.
  intros H. rewrite is_finite_spec in H. apply Prim2SF_inj.
  rewrite sub_spec. apply SFsub_self; [exact H|apply Prim2SF_valid].
Qed.

Lemma zero_absorbs c d :
  (abs c <=? 1) = true -> (abs d <=? 1) = true -> 0 + c * d * 0 = 0.
Proof.
  intros Hc Hd. rewrite leb_spec, abs_spec in Hc, Hd. apply Prim2SF_inj.
  rewrite add_spec, mul_spec, mul_spec.
  apply (SFzero_absorbs (SF64mul (Prim2SF c) (Prim2SF d))).
  apply SFmul_unit; auto using Prim2SF_valid.
Qed.
End FloatZero.

Local Open Scope list_scope.

(** ** The inner loop of the linker *)

Section LinkerScan.
Context {RT : Runtime}.
Import Balloons FloatFacts.

(** The distance from the last point of [tr] to [p] when the tests of the
    inner loop let the track through, [None] when one of them skips it. *)
Definition candidateKm (p : Observation.t) (usedTrack : gset string) (tr : Track.t)
    : option float :=
  if bool_decide (Track.id tr ∈ usedTrack) then None
  else
    match last (Track.points tr) with
    | None => None
    | Some lastp =>
        let dt := Observation.ts p - TrackPoint.ts lastp in
        if (dt <? 1800) || (5400 <? dt) then None
        else
          let km := Geo.haversineKm
                      (LatLon.mk (TrackPoint.lat lastp) (TrackPoint.lon lastp))
                      (LatLon.mk (Observation.lat p) (Observation.lon p)) in
          if MAX_LINK_KM_PER_H * (dt / 3600) <? km then None else Some km
    end.

Lemma scanTracks_cons p used tr rest t bi bk :
  scanTracks p used (tr :: rest) t bi bk =
  match candidateKm p used tr with
  | Some km =>
      if km <? bk then scanTracks p used rest (S t) (Some t) km
      else scanTracks p used rest (S t) bi bk
  | None => scanTracks p used rest (S t) bi bk
  end.
Proof.
  unfold candidateKm. simpl.
  destruct (bool_decide _); [reflexivity|].
  destruct (last _) as [lastp|]; [|reflexivity].
  destruct (_ || _); [reflexivity|].
  destruct (_ <? Geo.haversineKm _ _); reflexivity.
Qed.

Lemma ltb_irrefl x : (x <? x) = false.
Proof.
  destruct (x <? x) eqn:E; [|reflexivity].
  pose proof (ltb_not_leb _ _ E). pose proof (ltb_leb _ _ E). congruence.
Qed.

Lemma ltb_asym x y : (x <? y) = true -> (y <? x) = false.
Proof.
  intros H. destruct (y <? x) eqn:E; [|reflexivity].
  pose proof (ltb_trans _ _ _ H E) as C. rewrite ltb_irrefl in C. discriminate.
Qed.

(** Either no candidate improves on the running best, or the result is the
    first candidate that no other candidate beats. *)
Lemma scanTracks_spec p used trs :
  forall t bi bk,
    (scanTracks p used trs t bi bk = (bi, bk) /\
     forall j tr km, trs !! j = Some tr -> candidateKm p used tr = Some km ->
                     (km <? bk) = false)
    \/
    (exists j tr km,
        scanTracks p used trs t bi bk = (Some (t + j)%nat, km) /\
        trs !! j = Some tr /\ candidateKm p used tr = Some km /\
        (km <? bk) = true /\
        forall j' tr' km', trs !! j' = Some tr' -> candidateKm p used tr' = Some km' ->
                           (km' <? km) = false).
Proof.
  induction trs as [|tr rest IH]; intros t bi bk.
  - left. split; [reflexivity|]. intros j tr km H. rewrite lookup_nil in H. discriminate.
  - rewrite scanTracks_cons.
    destruct (candidateKm p used tr) as [km0|] eqn:C.
    + destruct (km0 <? bk) eqn:L.
      * right. destruct (IH (S t) (Some t) km0) as [[E A]|(j & tr' & km & E & Hj & Hc & Hlt & A)].
        -- exists 0%nat, tr, km0. rewrite Nat.add_0_r. repeat split; auto.
           intros [|j'] tr' km' Hj' Hc'; simpl in Hj'.
           ++ injection Hj' as <-. rewrite C in Hc'. injection Hc' as <-. apply ltb_irrefl.
           ++ eapply A; eauto.
        -- exists (S j), tr', km. rewrite Nat.add_succ_r. repeat split; auto.
           ++ eapply ltb_trans; eauto.
           ++ intros [|j'] tr'' km' Hj' Hc'; simpl in Hj'.
              ** injection Hj' as <-. rewrite C in Hc'. injection Hc' as <-.
                 apply ltb_asym. exact Hlt.
              ** eapply A; eauto.
      * destruct (IH (S t) bi bk) as [[E A]|(j & tr' & km & E & Hj & Hc & Hlt & A)].
        -- left. split; [exact E|].
           intros [|j'] tr' km' Hj' Hc'; simpl in Hj'.
           ++ injection Hj' as <-. rewrite C in Hc'. injection Hc' as <-. exact L.
           ++ eapply A; eauto.
        -- right. exists (S j), tr', km. rewrite Nat.add_succ_r. repeat split; auto.
           intros [|j'] tr'' km' Hj' Hc'; simpl in Hj'.
           ++ injection Hj' as <-. rewrite C in Hc'. injection Hc' as <-.
              destruct (km0 <? km) eqn:E'; [|reflexivity].
              rewrite (ltb_trans _ _ _ E' Hlt) in L. discriminate.
           ++ eapply A; eauto.
    + destruct (IH (S t) bi bk) as [[E A]|(j & tr' & km & E & Hj & Hc & Hlt & A)].
      * left. split; [exact E|].
        intros [|j'] tr' km' Hj' Hc'; simpl in Hj'.
        -- injection Hj' as <-. congruence.
        -- eapply A; eauto.
      * right. exists (S j), tr', km. rewrite Nat.add_succ_r. repeat split; auto.
        intros [|j'] tr'' km' Hj' Hc'; simpl in Hj'.
        -- injection Hj' as <-. congruence.
        -- eapply A; eauto.
Qed.

(** [bestTrack] in terms of the candidates *)
Lemma bestTrack_Some p used trs b :
  bestTrack p used trs = Some b ->
  exists tr km,
    trs !! b = Some tr /\ candidateKm p used tr = Some km /\
    (km <? infinity) = true /\
    forall j' tr' km', trs !! j' = Some tr' -> candidateKm p used tr' = Some km' ->
                       (km' <? km) = false.
Proof.
  unfold bestTrack. intros H.
  destruct (scanTracks_spec p used trs 0 None infinity)
    as [[E A]|(j & tr & km & E & Hj & Hc & Hlt & A)]; rewrite E in H; simpl in H.
  - discriminate.
  - injection H as <-. exists tr, km. auto.
Qed.

Lemma bestTrack_None p used trs :
  bestTrack p used trs = None ->
  forall j tr km, trs !! j = Some tr -> candidateKm p used tr = Some km ->
                  (km <? infinity) = false.
Proof.
  unfold bestTrack. intros H.
  destruct (scanTracks_spec p used trs 0 None infinity)
    as [[E A]|(j & tr & km & E & Hj & Hc & Hlt & A)]; rewrite E in H; simpl in H.
  - exact A.
  - discriminate.
Qed.

Lemma bestTrack_no_candidate p used trs :
  (forall tr, tr ∈ trs -> candidateKm p used tr = None) ->
  bestTrack p used trs = None.
Proof.
  intros H. destruct (bestTrack p used trs) as [b|] eqn:E; [|reflexivity].
  apply bestTrack_Some in E as (tr & km & Hb & Hc & _).
  rewrite (H tr) in Hc; [discriminate|].
  eapply list_elem_of_lookup_2; eauto.
Qed.
End LinkerScan.

(** ** The post-processor: [dedupeAndSort] *)

Section PostProcessor.
Context {RT : Runtime}.
Import Geo FloatFacts.

(** strictly ascending timestamps *)
Definition tsBefore (a b : TrackPoint.t) : Prop :=
  (TrackPoint.ts a <? TrackPoint.ts b) = true.

Definition ascending (l : list TrackPoint.t) : Prop := StronglySorted tsBefore l.

Definition tsFinite (p : TrackPoint.t) : Prop := is_finite (TrackPoint.ts p) = true.

Lemma pointFinite_ts p : pointFinite p = true -> tsFinite p.
Proof. unfold pointFinite, tsFinite, isFinite. intros H. apply andb_prop in H as [_ H]. exact H. Qed.

(** what the loop keeps: a sub-sequence of finite points with fresh,
    pairwise distinct keys, appended to [out] *)
Lemma dedupeLoop_spec points :
  forall seen out,
  exists kept,
    dedupeLoop points seen out = out ++ kept /\
    sublist kept points /\
    Forall (fun p => pointFinite p = true) kept /\
    NoDup (pointKey <$> kept) /\
    (forall p, p ∈ kept -> pointKey p ∉ seen).
Proof.
  induction points as [|p rest IH]; intros seen out.
  - exists []. simpl. rewrite app_nil_r. repeat split; try constructor.
    intros p Hp. inversion Hp.
  - simpl. destruct (bool_decide (pointKey p ∉ seen)) eqn:Hseen;
      [destruct (pointFinite p) eqn:Hfin|]; simpl.
    + destruct (IH ({[ pointKey p ]} ∪ seen) (out ++ [p]))
        as (kept & E & Hsub & Hf & Hnd & Hfresh).
      exists (p :: kept). rewrite E, <- app_assoc. simpl.
      apply bool_decide_eq_true in Hseen.
      repeat split.
      * apply sublist_skip. exact Hsub.
      * constructor; assumption.
      * rewrite ?fmap_cons. constructor; [|exact Hnd].
        intros Hin. apply list_elem_of_fmap in Hin as (q & Hq & Hqin).
        apply (Hfresh q Hqin). rewrite <- Hq. set_solver.
      * intros q Hq. apply elem_of_cons in Hq as [->|Hq]; [exact Hseen|].
        specialize (Hfresh q Hq). set_solver.
    + destruct (IH seen out) as (kept & E & Hsub & Hf & Hnd & Hfresh).
      exists kept. repeat split; auto. apply sublist_cons. exact Hsub.
    + destruct (IH seen out) as (kept & E & Hsub & Hf & Hnd & Hfresh).
      exists kept. repeat split; auto. apply sublist_cons. exact Hsub.
Qed.

(** every point that is finite and whose key is new is kept *)
Lemma dedupeLoop_keeps_all points :
  forall seen out,
    Forall (fun p => pointFinite p = true) points ->
    NoDup (pointKey <$> points) ->
    (forall p, p ∈ points -> pointKey p ∉ seen) ->
    dedupeLoop points seen out = out ++ points.
Proof.
  induction points as [|p rest IH]; intros seen out Hf Hnd Hfresh; simpl.
  - rewrite app_nil_r. reflexivity.
  - inversion Hf as [|? ? Hp Hrest]; subst.
    rewrite fmap_cons in Hnd. apply NoDup_cons in Hnd as [Hnot Hnd].
    rewrite bool_decide_eq_true_2 by (apply Hfresh; left).
    rewrite Hp. simpl.
    rewrite IH, <- app_assoc; auto.
    intros q Hq Hin. apply elem_of_union in Hin as [Hin|Hin].
    + apply elem_of_singleton in Hin. apply Hnot. rewrite <- Hin.
      apply list_elem_of_fmap_2. exact Hq.
    + apply (Hfresh q); [right; exact Hq|exact Hin].
Qed.

Lemma ascending_sublist l1 l2 : sublist l1 l2 -> ascending l2 -> ascending l1.
Proof.
  unfold ascending. induction 1 as [|x l1 l2 Hs IH|x l1 l2 Hs IH]; intros H.
  - constructor.
  - apply StronglySorted_cons in H as [Hall Hsorted].
    apply StronglySorted_cons. split; [|auto].
    rewrite Forall_forall in *. intros y Hy. apply Hall. eapply elem_of_sublist; eauto.
  - apply StronglySorted_cons in H as [_ Hsorted]. auto.
Qed.

(** sorting a list that is already in strictly ascending order of finite
    timestamps leaves it as it is *)
Lemma Array_sort_ascending l :
  ascending l -> Forall tsFinite l ->
  Array_sort (fun a b => TrackPoint.ts a - TrackPoint.ts b) l = l.
Proof.
  unfold ascending. induction l as [|x l IH]; intros Hs Hf; [reflexivity|].
  apply StronglySorted_cons in Hs as [Hall Hs].
  inversion Hf as [|? ? Hx Hl]; subst.
  unfold Array_sort in *. simpl. rewrite IH by assumption.
  destruct l as [|y l']; [reflexivity|]. simpl.
  inversion Hall as [|? ? Hxy _]; subst. inversion Hl as [|? ? Hy _]; subst.
  unfold tsBefore, tsFinite in *.
  rewrite (leb_not_ltb _ _ (sub_le _ _ Hx Hy (ltb_leb _ _ Hxy))). reflexivity.
Qed.
End PostProcessor.

(** ** The linker: what every open track satisfies *)

Section LinkerInvariants.
Context {RT : Runtime}.
Import Balloons Geo FloatFacts.

(** [b] passed the time test against [a], the last point at that moment *)
Definition gated (a b : TrackPoint.t) : Prop :=
  let dt := TrackPoint.ts b - TrackPoint.ts a in
  (dt <? 1800) || (5400 <? dt) = false.

Inductive chained : list TrackPoint.t -> Prop :=
  | chained_nil : chained []
  | chained_one a : chained [a]
  | chained_cons a b l : gated a b -> chained (b :: l) -> chained (a :: b :: l).

Definition tsClean (p : TrackPoint.t) : Prop := is_nan (TrackPoint.ts p) = false.

Lemma chained_snoc l a b :
  chained l -> last l = Some a -> gated a b -> chained (l ++ [b]).
Proof.
  induction 1 as [|x|x y l Hxy Hl IH]; intros Hlast Hab; simpl in *.
  - discriminate.
  - injection Hlast as ->. constructor; [exact Hab|constructor].
  - constructor; [exact Hxy|]. apply IH; [|exact Hab].
    rewrite ?last_cons_cons in Hlast. exact Hlast.
Qed.

Lemma candidateKm_gated p used tr km :
  candidateKm p used tr = Some km ->
  exists lastp, last (Track.points tr) = Some lastp /\
                gated lastp (withId p (Track.id tr)).
Proof.
  unfold candidateKm, gated. destruct (bool_decide _); [discriminate|].
  destruct (last _) as [lastp|]; [|discriminate].
  simpl. destruct (_ || _) eqn:G; [discriminate|].
  intros _. exists lastp. auto.
Qed.

(** A property of tracks that holds of a fresh track and is kept when a
    candidate is extended holds of all tracks after an hour. *)
Section Preservation.
Variable O : Observation.t -> Prop.
Variable T : Track.t -> Prop.
Hypothesis T_start : forall p id, O p -> T (Track.mk id [withId p id]).
Hypothesis T_push : forall p used tr km,
    O p -> T tr -> candidateKm p used tr = Some km -> T (pushPoint p tr).

Lemma startTrack_inv st p :
  O p -> Forall T (tracks st) -> Forall T (tracks (startTrack st p)).
Proof.
  intros Hp H. unfold startTrack. simpl. apply Forall_app. split; [exact H|].
  constructor; [|constructor]. apply T_start. exact Hp.
Qed.

Lemma fold_startTrack_inv pts :
  forall st, Forall O pts -> Forall T (tracks st) ->
             Forall T (tracks (fold_left startTrack pts st)).
Proof.
  induction pts as [|p rest IH]; intros st Hpts H; simpl; [exact H|].
  inversion Hpts; subst. apply IH; [assumption|]. apply startTrack_inv; assumption.
Qed.

Lemma linkPoints_inv pts :
  forall i trs ut up, Forall O pts -> Forall T trs ->
                      Forall T (linkPoints pts i trs ut up).1.
Proof.
  induction pts as [|p rest IH]; intros i trs ut up Hpts H; simpl; [exact H|].
  inversion Hpts; subst.
  destruct (bestTrack p ut trs) as [b|] eqn:B; [|auto].
  destruct (trs !! b) as [tr|] eqn:Hb; [|auto].
  apply IH; [assumption|].
  apply bestTrack_Some in B as (tr' & km & Hb' & Hc & _).
  apply Forall_alter; [exact H|].
  intros x Hx Tx. rewrite Hx in Hb'. injection Hb' as ->.
  eapply T_push; eauto.
Qed.

Lemma leftover_inv pts :
  forall i up st, Forall O pts -> Forall T (tracks st) ->
                  Forall T (tracks (leftover pts i up st)).
Proof.
  induction pts as [|p rest IH]; intros i up st Hpts H; simpl; [exact H|].
  inversion Hpts; subst.
  destruct (bool_decide _); apply IH; auto using startTrack_inv.
Qed.

Lemma linkHour_inv st pts :
  Forall O pts -> Forall T (tracks st) -> Forall T (tracks (linkHour st pts)).
Proof.
  intros Hpts H. unfold linkHour.
  destruct pts as [|p rest]; [exact H|].
  destruct (tracks st) as [|tr trs] eqn:E.
  - apply fold_startTrack_inv; [exact Hpts|]. rewrite E. constructor.
  - pose proof (linkPoints_inv (p :: rest) 0 (tr :: trs) ∅ ∅ Hpts H) as L.
    destruct (linkPoints (p :: rest) 0 (tr :: trs) ∅ ∅) as [trs' up].
    apply leftover_inv; [exact Hpts|exact L].
Qed.

Lemma linkAll_inv hourly :
  Forall (Forall O) hourly -> Forall T (tracks (linkAll hourly)).
Proof.
  unfold linkAll. intros H.
  assert (Forall (Forall O) (rev hourly)) as Hr.
  { rewrite Forall_forall in *. intros x Hx. apply H.
    apply list_elem_of_In. apply list_elem_of_In in Hx. apply in_rev. exact Hx. }
  assert (Forall T (tracks {| nextId := 1; tracks := [] |})) as H0 by constructor.
  revert Hr H0. generalize {| nextId := 1; tracks := [] |}.
  induction (rev hourly) as [|pts rest IH]; intros st Hr H0; simpl; [exact H0|].
  inversion Hr; subst. apply IH; [assumption|]. apply linkHour_inv; assumption.
Qed.
End Preservation.

(** an open track has a point, and each point passed the time test
    against its predecessor *)
Definition wellLinked (tr : Track.t) : Prop :=
  Track.points tr <> [] /\ chained (Track.points tr).

Lemma linkAll_wellLinked hourly : Forall wellLinked (tracks (linkAll hourly)).
Proof.
  apply (linkAll_inv (fun _ => True)).
  - intros p id _. split; [discriminate|constructor].
  - intros p used tr km _ [Hne Hch] Hc.
    apply candidateKm_gated in Hc as (lastp & Hlast & Hg).
    split; simpl.
    + intros E. apply app_eq_nil in E as [_ E]. discriminate.
    + eapply chained_snoc; eauto.
  - rewrite Forall_forall. intros pts _. rewrite Forall_forall. auto.
Qed.

Lemma linkHour_tracks_nonempty st pts :
  Forall (fun tr => Track.points tr <> []) (tracks st) ->
  Forall (fun tr => Track.points tr <> []) (tracks (linkHour st pts)).
Proof.
  apply (linkHour_inv (fun _ => True)).
  - intros p id _. discriminate.
  - intros p used tr km _ Hne _ E. simpl in E. apply app_eq_nil in E as [_ E]. discriminate.
  - rewrite Forall_forall. auto.
Qed.

(** timestamps that are not NaN stay so *)
Lemma linkAll_tsClean hourly :
  Forall (Forall (fun o => is_nan (Observation.ts o) = false)) hourly ->
  Forall (fun tr => Forall tsClean (Track.points tr)) (tracks (linkAll hourly)).
Proof.
  apply linkAll_inv.
  - intros p id Hp. simpl. constructor; [exact Hp|constructor].
  - intros p used tr km Hp Htr _. simpl. apply Forall_app. split; [exact Htr|].
    constructor; [exact Hp|constructor].
Qed.

Lemma gated_finiteness a b :
  tsClean a -> tsClean b -> gated a b ->
  is_finite (TrackPoint.ts a) = is_finite (TrackPoint.ts b).
Proof.
  unfold tsClean, gated. intros Ha Hb G.
  eapply (sub_window_finite _ _ 1800 5400); eauto.
Qed.

Lemma gated_before a b :
  tsFinite a -> tsFinite b -> gated a b -> tsBefore a b.
Proof.
  unfold tsFinite, gated, tsBefore. intros Ha Hb G.
  apply orb_false_elim in G as [G _].
  eapply (sub_lower_bound _ _ 1800); eauto.
Qed.

Lemma chained_finiteness l :
  chained l -> Forall tsClean l ->
  forall a b, a ∈ l -> b ∈ l ->
              is_finite (TrackPoint.ts a) = is_finite (TrackPoint.ts b).
Proof.
  intros Hch Hcl.
  assert (forall x, head l = Some x -> forall a, a ∈ l ->
            is_finite (TrackPoint.ts a) = is_finite (TrackPoint.ts x)) as H.
  { induction Hch as [|x|x y l Hxy Hl IH]; intros h Hh a Ha; simpl in Hh.
    - discriminate.
    - injection Hh as <-. apply list_elem_of_singleton in Ha. subst. reflexivity.
    - injection Hh as <-. inversion Hcl as [|? ? Hx Hrest]; subst.
      apply elem_of_cons in Ha as [->|Ha]; [reflexivity|].
      rewrite (IH Hrest y eq_refl a Ha).
      inversion Hrest; subst. symmetry. apply gated_finiteness; assumption. }
  intros a b Ha Hb. destruct l as [|x l']; [inversion Ha|].
  rewrite (H x eq_refl a Ha), (H x eq_refl b Hb). reflexivity.
Qed.

Lemma chained_ascending l : chained l -> Forall tsFinite l -> ascending l.
Proof.
  unfold ascending. induction 1 as [|x|x y l Hxy Hl IH]; intros Hf.
  - constructor.
  - constructor; constructor.
  - inversion Hf as [|? ? Hx Hrest]; subst. inversion Hrest as [|? ? Hy _]; subst.
    specialize (IH Hrest).
    pose proof (gated_before _ _ Hx Hy Hxy) as B.
    apply StronglySorted_cons. split; [|exact IH].
    apply StronglySorted_cons in IH as [Hall _].
    constructor; [exact B|].
    rewrite Forall_forall in *. intros z Hz.
    unfold tsBefore in *. eapply ltb_trans; [exact B|]. apply Hall. exact Hz.
Qed.

(** what [finish] leaves of a track built by the linker from timestamps
    that are not NaN *)
Lemma finish_spec tr :
  chained (Track.points tr) -> Forall tsClean (Track.points tr) ->
  let pts := Track.points (finish tr) in
  sublist pts (Track.points tr) /\ ascending pts /\
  NoDup (pointKey <$> pts) /\ Forall (fun p => pointFinite p = true) pts.
Proof.
  intros Hch Hcl. unfold finish, dedupeAndSort. simpl.
  destruct (dedupeLoop_spec (Track.points tr) ∅ []) as (kept & E & Hsub & Hf & Hnd & _).
  rewrite E. simpl.
  assert (ascending kept) as Hasc.
  { destruct kept as [|k kept']; [constructor|].
    apply (ascending_sublist _ _ Hsub). apply chained_ascending; [exact Hch|].
    assert (k ∈ Track.points tr) as Hk by (eapply elem_of_sublist; [left|exact Hsub]).
    inversion Hf as [|? ? Hkf _]; subst. apply pointFinite_ts in Hkf.
    rewrite Forall_forall. intros x Hx. unfold tsFinite in *.
    rewrite (chained_finiteness _ Hch Hcl x k Hx Hk). exact Hkf. }
  rewrite Array_sort_ascending; auto.
  rewrite Forall_forall in *. intros x Hx. apply pointFinite_ts. auto.
Qed.
End LinkerInvariants.

(** ** The linker: gates, choice of the track, and a steady mover *)

Section LinkerGates.
Context {RT : Runtime}.
Import Balloons Geo FloatFacts.

(** The gates in the words of the specification. *)
Definition withinTimeWindow (dt : float) : Prop :=
  (1800 <=? dt) = true /\ (dt <=? 5400) = true.

Definition withinSpeedCap (km dt : float) : Prop :=
  (km <=? 200 * (dt / 3600)) = true.

Definition distanceTo (p : Observation.t) (lastp : TrackPoint.t) : float :=
  haversineKm (LatLon.mk (TrackPoint.lat lastp) (TrackPoint.lon lastp))
    (LatLon.mk (Observation.lat p) (Observation.lon p)).

(** [tr], whose last point is [lastp], is not yet claimed in this hour
    and passes both gates for [p] *)
Definition eligible (p : Observation.t) (usedTrack : gset string) (tr : Track.t)
    (lastp : TrackPoint.t) : Prop :=
  (Track.id tr ∉ usedTrack) /\
  last (Track.points tr) = Some lastp /\
  withinTimeWindow (Observation.ts p - TrackPoint.ts lastp) /\
  withinSpeedCap (distanceTo p lastp) (Observation.ts p - TrackPoint.ts lastp).

Lemma eligible_candidate p used tr lastp :
  eligible p used tr lastp -> candidateKm p used tr = Some (distanceTo p lastp).
Proof.
  intros (Hu & Hl & [H1 H2] & Hs). unfold candidateKm.
  rewrite bool_decide_eq_false_2 by exact Hu. rewrite Hl. simpl.
  rewrite (leb_not_ltb _ _ H1), (leb_not_ltb _ _ H2). simpl.
  unfold withinSpeedCap, distanceTo, MAX_LINK_KM_PER_H in *.
  rewrite (leb_not_ltb _ _ Hs). reflexivity.
Qed.

Lemma candidate_eligible p used tr km :
  is_finite (Observation.ts p) = true ->
  (forall lastp, last (Track.points tr) = Some lastp ->
                 is_finite (TrackPoint.ts lastp) = true) ->
  candidateKm p used tr = Some km -> is_nan km = false ->
  exists lastp, eligible p used tr lastp /\ km = distanceTo p lastp.
Proof.
  intros Hp Hlast. unfold candidateKm.
  destruct (bool_decide _) eqn:Hu; [discriminate|]. apply bool_decide_eq_false in Hu.
  destruct (last _) as [lastp|] eqn:Hl; [|discriminate]. simpl.
  set (dt := Observation.ts p - TrackPoint.ts lastp).
  destruct (_ || _) eqn:G; [discriminate|]. apply orb_false_elim in G as [G1 G2].
  destruct (_ <? haversineKm _ _) eqn:G3; [discriminate|].
  intros E Hkm. injection E as <-.
  assert (is_nan dt = false) as Hdt.
  { apply sub_nonnan; [apply finite_nonnan; exact Hp|]. apply Hlast. reflexivity. }
  assert (is_nan (MAX_LINK_KM_PER_H * (dt / 3600)) = false) as Hal.
  { apply mul_nonnan; [reflexivity|]. apply div_nonnan; [exact Hdt|reflexivity]. }
  exists lastp. split; [|reflexivity].
  repeat split; auto.
  - apply ltb_false_leb; auto.
  - apply ltb_false_leb; auto.
  - apply ltb_false_leb; auto.
Qed.

(** [bestTrack]: the chosen track is eligible, and no eligible track is
    closer; an eligible track at a finite distance is never left out. *)
Lemma bestTrack_gates p used trs :
  is_finite (Observation.ts p) = true ->
  (forall tr lastp, tr ∈ trs -> last (Track.points tr) = Some lastp ->
                    is_finite (TrackPoint.ts lastp) = true) ->
  (forall b, bestTrack p used trs = Some b ->
     exists tr lastp,
       trs !! b = Some tr /\ eligible p used tr lastp /\
       forall tr' lastp', tr' ∈ trs -> eligible p used tr' lastp' ->
                          (distanceTo p lastp <=? distanceTo p lastp') = true) /\
  (forall tr lastp, tr ∈ trs -> eligible p used tr lastp ->
                    (distanceTo p lastp <? infinity) = true ->
                    bestTrack p used trs <> None).
Proof.
  intros Hp Htrs. split.
  - intros b Hb.
    apply bestTrack_Some in Hb as (tr & km & Hlk & Hc & Hinf & Hmin).
    assert (tr ∈ trs) as Hin by (eapply list_elem_of_lookup_2; eauto).
    destruct (ltb_nonnan _ _ Hinf) as [Hkm _].
    destruct (candidate_eligible p used tr km Hp (fun l => Htrs tr l Hin) Hc Hkm)
      as (lastp & He & ->).
    exists tr, lastp. split; [exact Hlk|]. split; [exact He|].
    intros tr' lastp' Hin' He'.
    apply list_elem_of_lookup_1 in Hin' as [j' Hj'].
    pose proof (Hmin j' tr' _ Hj' (eligible_candidate _ _ _ _ He')) as Hnlt.
    destruct He' as (_ & _ & _ & Hs'). destruct (leb_nonnan _ _ Hs') as [Hk' _].
    apply ltb_false_leb; auto.
  - intros tr lastp Hin He Hfar Hnone.
    apply list_elem_of_lookup_1 in Hin as [j Hj].
    pose proof (bestTrack_None _ _ _ Hnone j tr _ Hj (eligible_candidate _ _ _ _ He)).
    congruence.
Qed.

(** *** One hour, one open track, one observation that passes *)









End LinkerGates.

(** ** The linker: a gap, and the tracks it exposes *)

Section LinkerRuns.
Context {RT : Runtime}.
Import Balloons Geo FloatFacts.

Lemma candidateKm_too_late p used tr :
  (forall lastp, last (Track.points tr) = Some lastp ->
                 (5400 <? Observation.ts p - TrackPoint.ts lastp) = true) ->
  candidateKm p used tr = None.
Proof.
  intros H. unfold candidateKm. destruct (bool_decide _); [reflexivity|].
  destruct (last _) as [lastp|]; [|reflexivity].
  simpl. rewrite (H lastp eq_refl), orb_true_r. reflexivity.
Qed.

Lemma linkPoints_none pts :
  forall i trs ut up,
    (forall p, p ∈ pts -> bestTrack p ut trs = None) ->
    linkPoints pts i trs ut up = (trs, up).
Proof.
  induction pts as [|p rest IH]; intros i trs ut up H; simpl; [reflexivity|].
  rewrite (H p) by left. apply IH. intros q Hq. apply H. right. exact Hq.
Qed.

Lemma leftover_unused pts :
  forall i st, leftover pts i ∅ st = fold_left startTrack pts st.
Proof.
  induction pts as [|p rest IH]; intros i st; simpl; [reflexivity|].
  rewrite bool_decide_eq_false_2 by set_solver. apply IH.
Qed.

(** the track a lone observation opens when it is the [k]-th new one *)
Definition freshTrack (n : nat) (k : nat) (p : Observation.t) : Track.t :=
  Track.mk (trackName (n + k)) [withId p (trackName (n + k))].

Lemma fold_startTrack_tracks pts :
  forall st,
    tracks (fold_left startTrack pts st) = tracks st ++ imap (freshTrack (nextId st)) pts.
Proof.
  induction pts as [|p rest IH]; intros st; simpl.
  - rewrite app_nil_r. reflexivity.
  - rewrite IH. unfold startTrack. simpl. rewrite <- app_assoc. simpl.
    f_equal. f_equal.
    + unfold freshTrack. rewrite Nat.add_0_r. reflexivity.
    + apply imap_ext. intros k q _. unfold freshTrack. simpl.
      rewrite Nat.add_succ_r. reflexivity.
Qed.

(** When every open track is too old for every observation of the hour,
    no track is extended and each observation opens a track. *)
Lemma linkHour_gap st pts :
  (forall p tr lastp, p ∈ pts -> tr ∈ tracks st ->
      last (Track.points tr) = Some lastp ->
      (5400 <? Observation.ts p - TrackPoint.ts lastp) = true) ->
  tracks (linkHour st pts) = tracks st ++ imap (freshTrack (nextId st)) pts.
Proof.
  intros H. unfold linkHour.
  destruct pts as [|p rest]; [simpl; rewrite app_nil_r; reflexivity|].
  destruct (tracks st) as [|tr trs] eqn:E;
    [rewrite fold_startTrack_tracks, E; reflexivity|].
  rewrite linkPoints_none.
  - rewrite leftover_unused, fold_startTrack_tracks. simpl. reflexivity.
  - intros q Hq. apply bestTrack_no_candidate. intros tr' Htr'.
    apply candidateKm_too_late. intros lastp Hl. eapply H; eauto.
Qed.

(** The tracks a run of the linker returns, when no timestamp is NaN. *)
Lemma linkTracks_invariants hourly :
  Forall (Forall (fun o => is_nan (Observation.ts o) = false)) hourly ->
  forall tr, tr ∈ linkTracks hourly ->
    ascending (Track.points tr) /\
    NoDup (pointKey <$> Track.points tr) /\
    Forall (fun p => pointFinite p = true) (Track.points tr) /\
    (2 <= length (Track.points tr))%nat.
Proof.
  intros Hclean tr Htr. unfold linkTracks in Htr.
  apply list_elem_of_In, filter_In in Htr as [Hin Hlen].
  apply in_map_iff in Hin as (tr0 & <- & Hin0). apply list_elem_of_In in Hin0.
  pose proof (linkAll_wellLinked hourly) as Hw.
  pose proof (linkAll_tsClean hourly Hclean) as Hc.
  rewrite Forall_forall in Hw, Hc.
  destruct (Hw tr0 Hin0) as [_ Hch].
  destruct (finish_spec tr0 Hch (Hc tr0 Hin0)) as (_ & Hasc & Hnd & Hfin).
  repeat split; auto. apply Nat.leb_le. exact Hlen.
Qed.
End LinkerRuns.

(** ** Extraction of observations from a payload *)

(** induction over parsed values *)
Section JsonInduction.
Variable P : json -> Prop.
Hypothesis Hnull : P JNull.
Hypothesis Hbool : forall b, P (JBool b).
Hypothesis Hnum : forall x, P (JNum x).
Hypothesis Hstr : forall s, P (JStr s).
Hypothesis Harr : forall items, Forall P items -> P (JArr items).
Hypothesis Hobj : forall props, Forall (fun kv => P kv.2) props -> P (JObj props).

Fixpoint json_induction (v : json) : P v :=
  match v with
  | JNull => Hnull
  | JBool b => Hbool b
  | JNum x => Hnum x
  | JStr s => Hstr s
  | JArr items =>
      Harr items
        ((fix go (l : list json) : Forall P l :=
            match l with
            | [] => ltac:(constructor)
            | x :: r => ltac:(constructor; [exact (json_induction x)|exact (go r)])
            end) items)
  | JObj props =>
      Hobj props
        ((fix go (l : list (string * json)) : Forall (fun kv => P kv.2) l :=
            match l with
            | [] => ltac:(constructor)
            | (k, x) :: r =>
                ltac:(constructor; [exact (json_induction x)|exact (go r)])
            end) props)
  end.
End JsonInduction.

(** no number of the value is NaN, as is the case of whatever [JSON.parse]
    returns: JSON has no literal for it *)
Fixpoint jsonClean (v : json) : Prop :=
  match v with
  | JNum x => is_nan x = false
  | JArr items =>
      (fix all (l : list json) : Prop :=
         match l with [] => True | x :: r => jsonClean x /\ all r end) items
  | JObj props =>
      (fix all (l : list (string * json)) : Prop :=
         match l with [] => True | (_, x) :: r => jsonClean x /\ all r end) props
  | _ => True
  end.

Lemma jsonClean_arr items : jsonClean (JArr items) <-> Forall jsonClean items.
Proof.
  simpl. induction items as [|x r IH]; [split; auto|].
  rewrite Forall_cons, <- IH. reflexivity.
Qed.

Lemma jsonClean_obj props : jsonClean (JObj props) <-> Forall (fun kv => jsonClean kv.2) props.
Proof.
  simpl. induction props as [|[k x] r IH]; [split; auto|].
  rewrite Forall_cons, <- IH. reflexivity.
Qed.

Section Extraction.
Context {RT : Runtime}.
Import Balloons FloatFacts.

Definition isObject (v : json) : bool :=
  match v with JObj _ => true | _ => false end.

(** *** The loop over the entries of a payload *)

(** When [f] raises on the entries [raises] holds of, and yields the
    observation [obs] of the entries [usable] holds of and nothing for the
    others, the loop raises if an entry raises and collects the
    observations of the usable entries if none does. *)
Lemma collect_spec {A B : Type} (f : A -> option (list B)) (raises usable : A -> bool)
    (obs : A -> B) l :
  Forall (fun x => f x = if raises x then None
                         else Some (if usable x then [obs x] else [])) l ->
  collect f l = if existsb raises l then None else Some (obs <$> List.filter usable l).
Proof.
  induction 1 as [|x l Hx _ IH]; [reflexivity|].
  cbn [collect existsb List.filter]. rewrite Hx, IH.
  destruct (raises x); [reflexivity|]. cbn.
  destruct (existsb raises l); [reflexivity|]. cbn.
  destruct (usable x); reflexivity.
Qed.

Lemma collect_ext {A B : Type} (f g : A -> option (list B)) l :
  Forall (fun x => f x = g x) l -> collect f l = collect g l.
Proof.
  induction 1 as [|x l Hx _ IH]; [reflexivity|]. cbn [collect]. rewrite Hx, IH. reflexivity.
Qed.

Lemma collect_app {A B : Type} (f : A -> option (list B)) l1 l2 :
  collect f (l1 ++ l2)
  = (here ← collect f l1; there ← collect f l2; Some (here ++ there)).
Proof.
  induction l1 as [|x l1 IH]; cbn [app collect].
  - destruct (collect f l2); reflexivity.
  - rewrite IH. destruct (f x) as [a|]; [|reflexivity]. cbn.
    destruct (collect f l1) as [b|]; [|reflexivity]. cbn.
    destruct (collect f l2) as [c|]; [|reflexivity]. cbn.
    rewrite app_assoc. reflexivity.
Qed.

Lemma collect_flat_map {A B C : Type} (f : B -> option (list C)) (g : A -> list B) l :
  collect f (flat_map g l) = collect (fun x => collect f (g x)) l.
Proof.
  induction l as [|x l IH]; [reflexivity|].
  cbn [flat_map collect]. rewrite collect_app, IH. reflexivity.
Qed.

(** what a loop that does not raise has collected comes from its entries *)
Lemma collect_Forall {A B : Type} (P : B -> Prop) (f : A -> option (list B)) l :
  (forall x out, x ∈ l -> f x = Some out -> Forall P out) ->
  forall out, collect f l = Some out -> Forall P out.
Proof.
  induction l as [|x l IH]; intros Hf out E; cbn [collect] in E.
  - injection E as <-. constructor.
  - destruct (f x) as [here|] eqn:Ex; [|discriminate]. cbn in E.
    destruct (collect f l) as [there|] eqn:El; [|discriminate]. cbn in E.
    injection E as <-. apply Forall_app. split.
    + apply (Hf x); [left|exact Ex].
    + apply IH; [|reflexivity]. intros y o Hy. apply Hf. right. exact Hy.
Qed.

(** *** Conversions *)

(** the conversion of [v] to a number returns *)
Definition converts (v : option json) : bool :=
  match NumberOpt v with Some _ => true | None => false end.

(** the number [v] converts to *)
Definition numberOf (v : option json) : float :=
  match NumberOpt v with Some x => x | None => nan end.

Lemma NumberOpt_converts v : converts v = true -> NumberOpt v = Some (numberOf v).
Proof. unfold converts, numberOf. destruct (NumberOpt v); [reflexivity|discriminate]. Qed.

Lemma NumberOpt_raises v : converts v = false -> NumberOpt v = None.
Proof. unfold converts. destruct (NumberOpt v); [discriminate|reflexivity]. Qed.

(** Both coordinates are present and convert to finite numbers. *)
Definition usableCoords (lat lon : option json) : bool :=
  notNullish lat && notNullish lon && converts lat && converts lon
  && isFinite (numberOf lat) && isFinite (numberOf lon).

(** A conversion that the code performs on the coordinates and the
    altitude raises: that of a coordinate when both are present, that of
    the altitude when, besides, both coordinates are finite. *)
Definition raisingCoords (lat lon alt : option json) : bool :=
  notNullish lat && notNullish lon
  && (negb (converts lat) || negb (converts lon)
      || (isFinite (numberOf lat) && isFinite (numberOf lon)
          && notNullish alt && negb (converts alt))).

Definition altitudeValue (alt : option json) : option float :=
  if notNullish alt then Some (numberOf alt) else None.

(** the tests and conversions shared by Case B and [pushIfValid] *)
Lemma coords_spec ts lat lon alt :
  (if notNullish lat && notNullish lon then
     latN ← NumberOpt lat;
     lonN ← NumberOpt lon;
     if isFinite latN && isFinite lonN then
       altN ← (if notNullish alt then Some <$> NumberOpt alt else Some None);
       Some [Observation.mk ts latN lonN altN]
     else Some []
   else Some [])
  = if raisingCoords lat lon alt then None
    else Some (if usableCoords lat lon
               then [Observation.mk ts (numberOf lat) (numberOf lon) (altitudeValue alt)]
               else []).
Proof.
  unfold raisingCoords, usableCoords, altitudeValue.
  destruct (notNullish lat); [|reflexivity].
  destruct (notNullish lon); [|reflexivity]. cbn [andb].
  destruct (converts lat) eqn:C1;
    [rewrite (NumberOpt_converts _ C1)|rewrite (NumberOpt_raises _ C1); reflexivity].
  destruct (converts lon) eqn:C2;
    [rewrite (NumberOpt_converts _ C2)|rewrite (NumberOpt_raises _ C2); reflexivity].
  cbn. destruct (isFinite (numberOf lat)); [|reflexivity].
  destruct (isFinite (numberOf lon)); [|reflexivity]. cbn.
  destruct (notNullish alt); [|reflexivity].
  destruct (converts alt) eqn:C3;
    [rewrite (NumberOpt_converts _ C3)|rewrite (NumberOpt_raises _ C3)]; reflexivity.
Qed.

(** *** Case B: the coordinates of a record *)

Definition latitudeOf (obj : json) : option json :=
  getProp obj "lat" ?? getProp obj "latitude" ?? getProp obj "y"
    ?? getProp obj "Lat" ?? getProp obj "Y".

Definition longitudeOf (obj : json) : option json :=
  getProp obj "lon" ?? getProp obj "lng" ?? getProp obj "longitude"
    ?? getProp obj "x" ?? getProp obj "Lon" ?? getProp obj "X".

Definition altitudeOf (obj : json) : option json :=
  getProp obj "alt" ?? getProp obj "altitude" ?? getProp obj "Alt".

(** both coordinates are present and are finite numbers *)
Definition usableRecord (obj : json) : bool :=
  usableCoords (latitudeOf obj) (longitudeOf obj).

(** the entry makes the loop raise: it is [null], whose properties cannot
    be read, or a conversion of its coordinates or altitude raises *)
Definition recordRaises (obj : json) : bool :=
  match obj with
  | JNull => true
  | _ => raisingCoords (latitudeOf obj) (longitudeOf obj) (altitudeOf obj)
  end.

Definition recordObservation (ts : float) (obj : json) : Observation.t :=
  Observation.mk ts (numberOf (latitudeOf obj)) (numberOf (longitudeOf obj))
    (altitudeValue (altitudeOf obj)).

Lemma recordPoints_spec ts obj :
  recordPoints ts obj
  = if recordRaises obj then None
    else Some (if usableRecord obj then [recordObservation ts obj] else []).
Proof.
  destruct obj; try reflexivity;
    apply (coords_spec ts (latitudeOf _) (longitudeOf _) (altitudeOf _)).
Qed.

(** *** Case A: the coordinates of a row *)

Definition usableRow (row : json) : bool :=
  match row with
  | JArr (r0 :: r1 :: _) =>
      converts (Some r0) && converts (Some r1)
      && isFinite (numberOf (Some r0)) && isFinite (numberOf (Some r1))
  | _ => false
  end.

(** a conversion of the first three entries of the row raises *)
Definition rowRaises (row : json) : bool :=
  match row with
  | JArr (r0 :: r1 :: more) =>
      negb (converts (Some r0)) || negb (converts (Some r1))
      || match more with r2 :: _ => negb (converts (Some r2)) | [] => false end
  | _ => false
  end.

Definition rowObservation (ts : float) (row : json) : Observation.t :=
  match row with
  | JArr (r0 :: r1 :: more) =>
      Observation.mk ts (numberOf (Some r0)) (numberOf (Some r1))
        (match more with r2 :: _ => Some (numberOf (Some r2)) | [] => None end)
  | _ => Observation.mk ts nan nan None
  end.

Lemma rowPoints_spec ts row :
  rowPoints ts row
  = if rowRaises row then None
    else Some (if usableRow row then [rowObservation ts row] else []).
Proof.
  destruct row as [| | | |[|r0 [|r1 more]]|]; try reflexivity.
  cbn [rowPoints rowRaises usableRow rowObservation].
  change (Number r0) with (NumberOpt (Some r0)).
  change (Number r1) with (NumberOpt (Some r1)).
  destruct (converts (Some r0)) eqn:C0;
    [rewrite (NumberOpt_converts _ C0)|rewrite (NumberOpt_raises _ C0); reflexivity].
  destruct (converts (Some r1)) eqn:C1;
    [rewrite (NumberOpt_converts _ C1)|rewrite (NumberOpt_raises _ C1); reflexivity].
  cbn. destruct more as [|r2 more]; [reflexivity|].
  change (Number r2) with (NumberOpt (Some r2)).
  destruct (converts (Some r2)) eqn:C2;
    [rewrite (NumberOpt_converts _ C2)|rewrite (NumberOpt_raises _ C2)]; reflexivity.
Qed.

(** *** Case C: the objects the walk visits *)

Definition nestedLatitudeOf (obj : json) : option json :=
  getProp obj "lat" ?? getProp obj "latitude" ?? getProp obj "Lat"
    ?? getProp obj "y" ?? getProp obj "Y".

Definition nestedLongitudeOf (obj : json) : option json :=
  getProp obj "lon" ?? getProp obj "lng" ?? getProp obj "long"
    ?? getProp obj "longitude" ?? getProp obj "Lon" ?? getProp obj "x"
    ?? getProp obj "X".

(** the timestamp field the recursive walk reads *)
Definition timestampOf (obj : json) : option json :=
  getProp obj "ts" ?? getProp obj "time" ?? getProp obj "timestamp"
    ?? getProp obj "t" ?? getProp obj "epoch" ?? getProp obj "updated_at"
    ?? getProp obj "date".

Definition usableNested (obj : json) : bool :=
  usableCoords (nestedLatitudeOf obj) (nestedLongitudeOf obj).

Definition nestedRaises (obj : json) : bool :=
  raisingCoords (nestedLatitudeOf obj) (nestedLongitudeOf obj) (altitudeOf obj).

(** the timestamp of the object when it has one that can be read, else
    the timestamp [ts] of the hour *)
Definition nestedObservation (ts : float) (obj : json) : Observation.t :=
  Observation.mk
    (match toEpochSeconds (timestampOf obj) with Some t => t | None => ts end)
    (numberOf (nestedLatitudeOf obj)) (numberOf (nestedLongitudeOf obj))
    (altitudeValue (altitudeOf obj)).

Lemma pushIfValid_spec ts props :
  pushIfValid ts (JObj props)
  = if nestedRaises (JObj props) then None
    else Some (if usableNested (JObj props) then [nestedObservation ts (JObj props)]
               else []).
Proof.
  apply (coords_spec _ (nestedLatitudeOf (JObj props)) (nestedLongitudeOf (JObj props))
           (altitudeOf (JObj props))).
Qed.

(** the objects of a value, each before the ones it holds, in the order
    of the walk *)
Fixpoint objectsIn (v : json) : list json :=
  match v with
  | JArr items => flat_map objectsIn items
  | JObj props => v :: flat_map (fun kv => objectsIn kv.2) props
  | _ => []
  end.

Lemma objectsIn_objects v : Forall (fun r => isObject r = true) (objectsIn v).
Proof.
  induction v as [| | | |items IH|props IH] using json_induction; try constructor.
  - cbn [objectsIn]. induction IH as [|x r Hx _ IHr]; [constructor|].
    cbn [flat_map]. apply Forall_app. split; assumption.
  - reflexivity.
  - fold objectsIn. induction IH as [|[k x] r Hx _ IHr]; [constructor|].
    cbn [flat_map]. apply Forall_app. split; assumption.
Qed.

Lemma walk_objects ts v : walk ts v = collect (pushIfValid ts) (objectsIn v).
Proof.
  induction v as [| | | |items IH|props IH] using json_induction; try reflexivity.
  - cbn [walk objectsIn]. rewrite collect_flat_map. apply collect_ext. exact IH.
  - cbn [walk objectsIn collect]. f_equal.
    rewrite (collect_flat_map (pushIfValid ts) (fun kv => objectsIn kv.2)).
    rewrite (collect_ext (fun kv => walk ts kv.2)
               (fun kv => collect (pushIfValid ts) (objectsIn kv.2)) props IH).
    reflexivity.
Qed.

Lemma walk_spec ts v :
  walk ts v
  = if existsb nestedRaises (objectsIn v) then None
    else Some (nestedObservation ts <$> List.filter usableNested (objectsIn v)).
Proof.
  rewrite walk_objects. apply collect_spec.
  eapply Forall_impl; [apply objectsIn_objects|].
  intros r Hr. destruct r; try discriminate. apply pushIfValid_spec.
Qed.

(** *** The three cases *)

Inductive Case : Type := CaseA | CaseB | CaseC.

(** the case [extractHourPoints] takes the payload for *)
Definition caseOf (payload : json) : Case :=
  match payload with
  | JArr (first :: _) =>
      if isArray first then CaseA else if isObjectType first then CaseB else CaseC
  | _ => CaseC
  end.

(** what the loop of the case runs over: the entries of the array, or,
    in the recursive walk, the objects of the payload *)
Definition recordsOf (payload : json) : list json :=
  match caseOf payload, payload with
  | CaseA, JArr items | CaseB, JArr items => items
  | _, _ => objectsIn payload
  end.

Definition raises (c : Case) : json -> bool :=
  match c with CaseA => rowRaises | CaseB => recordRaises | CaseC => nestedRaises end.

Definition usable (c : Case) : json -> bool :=
  match c with CaseA => usableRow | CaseB => usableRecord | CaseC => usableNested end.

Definition observation (c : Case) : float -> json -> Observation.t :=
  match c with
  | CaseA => rowObservation
  | CaseB => recordObservation
  | CaseC => nestedObservation
  end.

(** [extractHourPoints] raises when an entry raises, and otherwise
    returns the observations of the usable entries, in order *)
Lemma extract_spec now payload idx :
  extractHourPoints now payload idx
  = if existsb (raises (caseOf payload)) (recordsOf payload) then None
    else Some (observation (caseOf payload) (toEpochSecondsFromHourIdx now idx)
                 <$> List.filter (usable (caseOf payload)) (recordsOf payload)).
Proof.
  unfold extractHourPoints, recordsOf, caseOf.
  destruct payload as [| | | |[|first rest]|props]; try apply walk_spec.
  destruct (isArray first).
  - apply collect_spec. rewrite Forall_forall. intros row _. apply rowPoints_spec.
  - destruct (isObjectType first).
    + apply collect_spec. rewrite Forall_forall. intros obj _. apply recordPoints_spec.
    + apply walk_spec.
Qed.


Lemma existsb_drop {A} (f : A -> bool) pre bad post :
  f bad = false -> existsb f (pre ++ bad :: post) = existsb f (pre ++ post).
Proof.
  intros H. rewrite !existsb_app. simpl. rewrite H. reflexivity.
Qed.

(** *** Timestamps of Cases A and B *)

Lemma extract_array_ts now idx first rest pts :
  isArray first || isObjectType first = true ->
  extractHourPoints now (JArr (first :: rest)) idx = Some pts ->
  Forall (fun o => Observation.ts o = toEpochSecondsFromHourIdx now idx) pts.
Proof.
  intros Hshape. rewrite extract_spec.
  destruct (existsb _ _); [discriminate|]. intros E. injection E as <-.
  rewrite Forall_fmap. rewrite Forall_forall. intros r _.
  unfold caseOf. destruct (isArray first); [|cbn [orb] in Hshape; rewrite Hshape].
  - cbn [observation]. destruct r as [| | | |[|r0 [|r1 more]]|]; reflexivity.
  - reflexivity.
Qed.
End Extraction.

(** ** No NaN timestamp enters the linker *)

Section CleanTimestamps.
Context {RT : Runtime}.
Import Balloons FloatFacts.

Lemma Math_floor_nonnan x : is_nan x = false -> is_nan (Math_floor x) = false.
Proof.
  intros H. unfold Math_floor. rewrite H.
  destruct (_ <=? abs x); [exact H|].
  destruct (x =? 0); [exact H|].
  assert (is_nan (abs x + 0x1p52 - 0x1p52) = false) as Hr.
  { apply sub_nonnan; [|reflexivity]. apply add_nonnan; [|reflexivity].
    apply abs_nonnan. exact H. }
  destruct (0 <? x).
  - destruct (abs x <? _); [apply sub_nonnan; [exact Hr|reflexivity]|exact Hr].
  - apply opp_nonnan.
    destruct (_ <? abs x); [apply add_nonnan; [exact Hr|reflexivity]|exact Hr].
Qed.

Lemma Math_round_nonnan x : is_nan x = false -> is_nan (Math_round x) = false.
Proof.
  intros H. unfold Math_round. rewrite H.
  destruct (_ <=? abs x); [exact H|].
  destruct (x =? 0); [exact H|].
  pose proof (Math_floor_nonnan x H) as Hf.
  assert (is_nan (if 0.5 <=? x - Math_floor x then Math_floor x + 1 else Math_floor x)
          = false) as Hr.
  { destruct (0.5 <=? _); [apply add_nonnan; [exact Hf|reflexivity]|exact Hf]. }
  destruct (_ =? 0); [destruct (x <? 0); reflexivity|exact Hr].
Qed.

Lemma toEpochSecondsNum_nonnan x :
  is_nan x = false -> is_nan (toEpochSecondsNum x) = false.
Proof.
  intros H. unfold toEpochSecondsNum. destruct (_ <? x).
  - apply Math_round_nonnan, div_nonnan; [exact H|reflexivity].
  - apply Math_round_nonnan. exact H.
Qed.

Definition optClean (o : option json) : Prop :=
  match o with Some v => jsonClean v | None => True end.

Lemma getProp_clean obj k : jsonClean obj -> optClean (getProp obj k).
Proof.
  destruct obj as [| | | | |props]; try exact (fun _ => I).
  rewrite jsonClean_obj. simpl getProp.
  induction 1 as [|[k' v] rest Hv Hrest IH]; simpl; [exact I|].
  destruct (String.eqb k k'); [exact Hv|exact IH].
Qed.

Lemma coalesce_clean a b : optClean a -> optClean b -> optClean (a ?? b).
Proof. destruct a as [[]|]; simpl; auto. Qed.

Lemma toEpochSeconds_nonnan x t :
  optClean x -> toEpochSeconds x = Some t -> is_nan t = false.
Proof.
  unfold toEpochSeconds, Number_isNaN. destruct x as [[| |n|s| |]|]; simpl; try discriminate.
  - intros Hn E. injection E as <-. apply toEpochSecondsNum_nonnan. exact Hn.
  - intros _. destruct (is_nan (StringToNumber s)) eqn:En; simpl.
    + destruct (is_nan (Date_parse s)) eqn:Ed; simpl; [discriminate|].
      intros E. injection E as <-.
      apply Math_round_nonnan, div_nonnan; [exact Ed|reflexivity].
    + intros E. injection E as <-. apply toEpochSecondsNum_nonnan. exact En.
Qed.

Definition obsClean (o : Observation.t) : Prop := is_nan (Observation.ts o) = false.

Lemma objectsIn_clean v : jsonClean v -> Forall jsonClean (objectsIn v).
Proof.
  induction v as [| | | |items IH|props IH] using json_induction; intros Hc;
    try constructor.
  - apply jsonClean_arr in Hc. cbn [objectsIn].
    induction IH as [|x r Hx _ IHr]; [constructor|].
    inversion Hc; subst. cbn [flat_map]. apply Forall_app. split; auto.
  - exact Hc.
  - fold objectsIn. apply jsonClean_obj in Hc.
    induction IH as [|[k x] r Hx _ IHr]; [constructor|].
    inversion Hc; subst. cbn [flat_map]. apply Forall_app. split; auto.
Qed.

Lemma nestedObservation_clean ts obj :
  is_nan ts = false -> jsonClean obj -> obsClean (nestedObservation ts obj).
Proof.
  intros Hts Hobj. unfold obsClean, nestedObservation. cbn [Observation.ts].
  destruct (toEpochSeconds _) as [t|] eqn:E; [|exact Hts].
  eapply toEpochSeconds_nonnan; [|exact E].
  unfold timestampOf. repeat apply coalesce_clean; apply (getProp_clean obj); exact Hobj.
Qed.

Lemma defaultTs_nonnan now idx :
  is_nan now = false -> (idx < 24)%nat ->
  is_nan (toEpochSecondsFromHourIdx now idx) = false.
Proof.
  intros Hnow Hidx. unfold toEpochSecondsFromHourIdx.
  apply sub_nonnan.
  - apply Math_floor_nonnan, div_nonnan; [exact Hnow|reflexivity].
  - do 24 (destruct idx as [|idx]; [reflexivity|]). lia.
Qed.

Lemma extract_clean now payload idx pts :
  is_nan now = false -> (idx < 24)%nat -> jsonClean payload ->
  extractHourPoints now payload idx = Some pts -> Forall obsClean pts.
Proof.
  intros Hnow Hidx Hc E.
  pose proof (defaultTs_nonnan now idx Hnow Hidx) as Hts.
  assert (forall first rest, isArray first || isObjectType first = true ->
            payload = JArr (first :: rest) -> Forall obsClean pts) as Harr.
  { intros first rest Hshape ->.
    eapply Forall_impl; [eapply extract_array_ts; eauto|].
    intros o Ho. unfold obsClean. rewrite Ho. exact Hts. }
  assert (caseOf payload = CaseC -> Forall obsClean pts) as Hwalk.
  { intros HC. rewrite extract_spec in E. unfold recordsOf in E. rewrite HC in E.
    destruct (existsb _ _); [discriminate|]. injection E as <-.
    rewrite Forall_fmap. apply Forall_forall. intros r Hr.
    apply list_elem_of_In, filter_In in Hr as [Hr _]. apply list_elem_of_In in Hr.
    pose proof (objectsIn_clean payload Hc) as Hall. rewrite Forall_forall in Hall.
    apply nestedObservation_clean; [exact Hts|]. apply Hall. exact Hr. }
  destruct payload as [| | | |[|first rest]|props]; try (apply Hwalk; reflexivity).
  destruct (isArray first || isObjectType first) eqn:Hshape; [eapply Harr; eauto|].
  apply orb_false_elim in Hshape as [HA HB].
  apply Hwalk. unfold caseOf. rewrite HA, HB. reflexivity.
Qed.

Lemma collectHourly_clean clock fetchText :
  (forall idx, (idx < 24)%nat -> is_nan (clock idx) = false) ->
  (forall idx txt v, (idx < 24)%nat -> fetchText idx = Some txt ->
      SafeJson.safeParseJSON txt = Some v -> jsonClean v) ->
  Forall (Forall obsClean) (collectHourly clock fetchText).
Proof.
  intros Hnow Hparse. unfold collectHourly.
  rewrite Forall_forall. intros pts Hin.
  apply list_elem_of_In, in_map_iff in Hin as (idx & <- & Hidx).
  apply in_seq in Hidx. assert (idx < 24)%nat as Hlt by lia. unfold hourPoints.
  destruct (fetchText idx) as [txt|] eqn:Ef; [|constructor].
  destruct (SafeJson.safeParseJSON txt) as [v|] eqn:Ep; [|constructor].
  destruct (truthy v); [|constructor].
  destruct (extractHourPoints (clock idx) v idx) as [pts|] eqn:Ee; [|constructor].
  apply (extract_clean (clock idx) v idx pts (Hnow idx Hlt) Hlt); [|exact Ee].
  eapply Hparse; eauto.
Qed.
End CleanTimestamps.

(** ** The proximity analyzer *)

Section Proximity.
Context {RT : Runtime}.
Import Insights FloatFacts.

(** the pairs in the order the two loops visit them *)
Definition pairs (points : list TrackPoint.t) (firePts : list LatLon.t)
    : list (TrackPoint.t * LatLon.t) :=
  flat_map (fun p => List.map (fun f => (p, f)) firePts) points.

Definition pairKm (pf : TrackPoint.t * LatLon.t) : float :=
  Geo.haversineKm (LatLon.mk (TrackPoint.lat pf.1) (TrackPoint.lon pf.1))
    (LatLon.mk (LatLon.lat pf.2) (LatLon.lon pf.2)).

Definition visitPair (acc : Acc) (pf : TrackPoint.t * LatLon.t) : Acc :=
  visit pf.1 acc pf.2.

Lemma scan_pairs points firePts :
  scan points firePts
  = fold_left visitPair (pairs points firePts)
      {| minKm := infinity; minWhen := None; nearCount := 0 |}.
Proof.
  unfold scan, pairs. generalize {| minKm := infinity; minWhen := None; nearCount := 0 |}.
  induction points as [|p rest IH]; intros acc; [reflexivity|].
  simpl. rewrite fold_left_app, <- IH. f_equal.
  clear IH. revert acc. induction firePts as [|f fs IHf]; intros acc; [reflexivity|].
  simpl. apply IHf.
Qed.

Lemma elem_of_pairs points firePts p f :
  (p, f) ∈ pairs points firePts <-> p ∈ points /\ f ∈ firePts.
Proof.
  unfold pairs. rewrite list_elem_of_In, in_flat_map. split.
  - intros (q & Hq & Hin). apply in_map_iff in Hin as (g & E & Hg).
    injection E as -> ->. split; apply list_elem_of_In; assumption.
  - intros [Hp Hf]. exists p. split; [apply list_elem_of_In; exact Hp|].
    apply in_map_iff. exists f. split; [reflexivity|apply list_elem_of_In; exact Hf].
Qed.

Definition near (pf : TrackPoint.t * LatLon.t) : bool := pairKm pf <=? PROX_KM.

Lemma visitPair_nearCount acc pf :
  nearCount (visitPair acc pf) = (nearCount acc + if near pf then 1 else 0)%nat.
Proof.
  unfold visitPair, visit, near, pairKm.
  destruct (_ <=? PROX_KM); destruct (_ <? minKm acc); simpl; lia.
Qed.

Lemma fold_nearCount l :
  forall acc, nearCount (fold_left visitPair l acc)
              = (nearCount acc + length (List.filter near l))%nat.
Proof.
  induction l as [|pf rest IH]; intros acc; simpl; [lia|].
  rewrite IH, visitPair_nearCount. destruct (near pf); simpl; lia.
Qed.

Lemma visitPair_min acc pf :
  (minKm (visitPair acc pf), minWhen (visitPair acc pf))
  = if pairKm pf <? minKm acc then (pairKm pf, Some (TrackPoint.ts pf.1))
    else (minKm acc, minWhen acc).
Proof.
  unfold visitPair, visit, pairKm.
  destruct (_ <=? PROX_KM); destruct (_ <? minKm acc); reflexivity.
Qed.

(** The running minimum after a run of pairs: either untouched, or the
    distance of a visited pair that no visited pair beats, with the
    timestamp of its track point. *)
Lemma fold_min l :
  forall acc,
    let r := fold_left visitPair l acc in
    (minKm r = minKm acc /\ minWhen r = minWhen acc /\
     forall pf, pf ∈ l -> (pairKm pf <? minKm acc) = false)
    \/
    (exists pf, pf ∈ l /\ minKm r = pairKm pf /\
                minWhen r = Some (TrackPoint.ts pf.1) /\
                (pairKm pf <? minKm acc) = true /\
                forall pf', pf' ∈ l -> (pairKm pf' <? pairKm pf) = false).
Proof.
  induction l as [|pf rest IH]; intros acc; simpl.
  - left. repeat split. intros pf H. inversion H.
  - pose proof (visitPair_min acc pf) as Hv.
    destruct (pairKm pf <? minKm acc) eqn:L; injection Hv as Hk Hw.
    + right. destruct (IH (visitPair acc pf)) as [(E1 & E2 & A)|(pf2 & Hin & E1 & E2 & Hlt & A)].
      * exists pf. rewrite E1, E2, Hk, Hw. repeat split; auto; [left|].
        intros pf' Hpf'. apply elem_of_cons in Hpf' as [->|Hpf'].
        -- apply ltb_irrefl.
        -- rewrite <- Hk. apply A. exact Hpf'.
      * exists pf2. rewrite Hk in Hlt. repeat split; auto.
        -- right. exact Hin.
        -- eapply ltb_trans; eauto.
        -- intros pf' Hpf'. apply elem_of_cons in Hpf' as [->|Hpf'].
           ++ apply ltb_asym. exact Hlt.
           ++ apply A. exact Hpf'.
    + destruct (IH (visitPair acc pf)) as [(E1 & E2 & A)|(pf2 & Hin & E1 & E2 & Hlt & A)].
      * left. rewrite E1, E2, Hk, Hw. repeat split; auto.
        intros pf' Hpf'. apply elem_of_cons in Hpf' as [->|Hpf'].
        -- exact L.
        -- rewrite <- Hk. apply A. exact Hpf'.
      * right. exists pf2. rewrite Hk in Hlt. repeat split; auto.
        -- right. exact Hin.
        -- intros pf' Hpf'. apply elem_of_cons in Hpf' as [->|Hpf'].
           ++ destruct (pairKm pf <? pairKm pf2) eqn:E'; [|reflexivity].
              rewrite (ltb_trans _ _ _ E' Hlt) in L. discriminate.
           ++ apply A. exact Hpf'.
Qed.

(** nothing to compare: the accumulator is never touched *)
Lemma scan_empty points firePts :
  points = [] \/ firePts = [] ->
  scan points firePts = {| minKm := infinity; minWhen := None; nearCount := 0 |}.
Proof.
  intros [->| ->]; [reflexivity|].
  unfold scan. generalize {| minKm := infinity; minWhen := None; nearCount := 0 |}.
  induction points as [|p rest IH]; intros acc; simpl; auto.
Qed.

(** [Array.prototype.sort] rearranges and neither drops nor adds *)
Lemma sort_insert_Permutation {A} (cmp : A -> A -> float) x l :
  Permutation (sort_insert cmp x l) (x :: l).
Proof.
  induction l as [|y l IH]; simpl; [reflexivity|].
  destruct (0 <? cmp x y); [|reflexivity].
  rewrite IH. apply perm_swap.
Qed.

Lemma Array_sort_Permutation {A} (cmp : A -> A -> float) l :
  Permutation (Array_sort cmp l) l.
Proof.
  unfold Array_sort. induction l as [|x l IH]; simpl; [reflexivity|].
  rewrite sort_insert_Permutation, IH. reflexivity.
Qed.

Lemma stat_in_GET balloons fires t :
  t ∈ default [] balloons -> stat (default [] fires) t ∈ GET balloons fires.
Proof.
  intros Ht. unfold GET. rewrite Array_sort_Permutation.
  apply list_elem_of_In, in_map, list_elem_of_In. exact Ht.
Qed.
End Proximity.

(** ** The render segmenter *)

Section Segmenter.
Context {RT : Runtime}.
Import Page.

(** The segmenter in the words of the specification: keep the points at
    or after the cut-off, cut the sequence between two consecutive points
    whenever the step crosses the antimeridian or exceeds the hop cap,
    and drop the runs of fewer than two points. *)
Definition breaksBetween (maxHopKm : float) (a b : Observation.t) : bool :=
  (180 <? Math_abs (Observation.lon b - Observation.lon a))
  || (maxHopKm <? haversineKm (LatLon.mk (Observation.lat a) (Observation.lon a))
                    (LatLon.mk (Observation.lat b) (Observation.lon b))).

(** the run that starts with [a], and the runs after it *)
Fixpoint runsFrom (maxHopKm : float) (a : Observation.t) (rest : list Observation.t)
    : list Observation.t * list (list Observation.t) :=
  match rest with
  | [] => ([a], [])
  | b :: rest' =>
      let '(run, more) := runsFrom maxHopKm b rest' in
      if breaksBetween maxHopKm a b then ([a], run :: more) else (a :: run, more)
  end.

Definition runs (maxHopKm : float) (l : list Observation.t) : list (list Observation.t) :=
  match l with
  | [] => []
  | a :: rest => let '(run, more) := runsFrom maxHopKm a rest in run :: more
  end.

Definition plottable (l : list (list Observation.t)) : list (list (float * float)) :=
  List.map (List.map coord) (List.filter (fun run => (2 <=? length run)%nat) l).

Definition segmentsSpec (pts : list Observation.t) (cutoffTs maxHopKm : float)
    : list (list (float * float)) :=
  plottable (runs maxHopKm (List.filter (fun p => cutoffTs <=? Observation.ts p) pts)).

Lemma plottable_app l1 l2 : plottable (l1 ++ l2) = plottable l1 ++ plottable l2.
Proof. unfold plottable. rewrite List.filter_app, List.map_app. reflexivity. Qed.

Lemma pushSeg_plottable segs run :
  pushSeg segs (List.map coord run) = segs ++ plottable [run].
Proof.
  unfold pushSeg, plottable. rewrite length_map. cbn [List.filter].
  destruct (2 <=? length run)%nat; cbn [List.map];
    [reflexivity|rewrite app_nil_r; reflexivity].
Qed.

Lemma walkSegments_runs maxHopKm rest :
  forall a pre segs,
    walkSegments maxHopKm a rest (List.map coord (pre ++ [a])) segs
    = let '(run, more) := runsFrom maxHopKm a rest in
      segs ++ plottable ((pre ++ run) :: more).
Proof.
  induction rest as [|b rest' IH]; intros a pre segs.
  - simpl. apply pushSeg_plottable.
  - cbn [walkSegments runsFrom].
    fold (breaksBetween maxHopKm a b).
    destruct (breaksBetween maxHopKm a b).
    + specialize (IH b [] (pushSeg segs (List.map coord (pre ++ [a])))).
      simpl app in IH. simpl List.map in IH at 1. rewrite IH.
      destruct (runsFrom maxHopKm b rest') as [run more].
      rewrite pushSeg_plottable, <- app_assoc. f_equal.
      change ((pre ++ [a]) :: run :: more) with ([pre ++ [a]] ++ run :: more).
      rewrite plottable_app. reflexivity.
    + specialize (IH b (pre ++ [a]) segs).
      rewrite List.map_app in IH. simpl List.map in IH at 2. rewrite IH.
      destruct (runsFrom maxHopKm b rest') as [run more].
      rewrite <- app_assoc. reflexivity.
Qed.

Lemma splitByDatelineAndHops_spec pts cutoffTs maxHopKm :
  splitByDatelineAndHops pts cutoffTs maxHopKm = segmentsSpec pts cutoffTs maxHopKm.
Proof.
  unfold splitByDatelineAndHops, segmentsSpec.
  destruct (List.filter _ pts) as [|a [|b rest]]; try reflexivity.
  change (length (a :: b :: rest) <? 2)%nat with false. cbv iota.
  pose proof (walkSegments_runs maxHopKm (b :: rest) a [] []) as H.
  simpl app in H. simpl List.map in H at 1. rewrite H.
  unfold runs. destruct (runsFrom maxHopKm a (b :: rest)) as [run more]. reflexivity.
Qed.

(** a break between [a] and [b] separates the runs *)
Lemma runs_split maxHopKm l1 a b l2 :
  breaksBetween maxHopKm a b = true ->
  runs maxHopKm (l1 ++ a :: b :: l2)
  = runs maxHopKm (l1 ++ [a]) ++ runs maxHopKm (b :: l2).
Proof.
  intros Hbr. induction l1 as [|x l1 IH].
  - simpl. destruct (runsFrom maxHopKm b l2) as [run more]. rewrite Hbr. reflexivity.
  - destruct l1 as [|y t].
    + simpl in *. destruct (runsFrom maxHopKm b l2) as [run more].
      rewrite Hbr in *. destruct (breaksBetween maxHopKm x a); reflexivity.
    + simpl in *.
      destruct (runsFrom maxHopKm y (t ++ a :: b :: l2)) as [run more].
      destruct (runsFrom maxHopKm y (t ++ [a])) as [run1 more1].
      destruct (runsFrom maxHopKm b l2) as [run2 more2].
      injection IH as -> ->.
      destruct (breaksBetween maxHopKm x y); reflexivity.
Qed.

Lemma split_at_break pts1 a b pts2 cutoffTs maxHopKm :
  (cutoffTs <=? Observation.ts a) = true -> (cutoffTs <=? Observation.ts b) = true ->
  breaksBetween maxHopKm a b = true ->
  splitByDatelineAndHops (pts1 ++ a :: b :: pts2) cutoffTs maxHopKm
  = splitByDatelineAndHops (pts1 ++ [a]) cutoffTs maxHopKm
    ++ splitByDatelineAndHops (b :: pts2) cutoffTs maxHopKm.
Proof.
  intros Ha Hb Hbr. rewrite !splitByDatelineAndHops_spec. unfold segmentsSpec.
  rewrite !List.filter_app. simpl List.filter. rewrite Ha, Hb.
  rewrite runs_split by exact Hbr. apply plottable_app.
Qed.
End Segmenter.

(** ** The recovery stages of [safeParseJSON] *)

Section Recovery.
Context {RT : Runtime}.
Import SafeJson.

(** Stage 3 in the words of the specification: every non-empty line is
    parsed, and the lines that parse are collected. *)
Definition nonEmptyLine (l : string) : bool := negb (String.eqb l "").

Definition jsonlSpec (cleaned : string) : option json :=
  let parsed := omap JSON_parse (List.filter nonEmptyLine (splitLines cleaned)) in
  if (0 <? length parsed)%nat then Some (JArr parsed) else None.

Lemma elem_of_jsonlLines cleaned l :
  l ∈ jsonlLines cleaned <->
  exists raw, raw ∈ splitLines cleaned /\ l = trim raw /\ looksLikeRecord l = true.
Proof.
  unfold jsonlLines. rewrite list_elem_of_In, filter_In, in_map_iff. split.
  - intros [(raw & <- & Hraw) Hl]. exists raw. rewrite list_elem_of_In. auto.
  - intros (raw & Hraw & -> & Hl). split; [|exact Hl].
    exists raw. rewrite <- list_elem_of_In. auto.
Qed.

Lemma parseJsonl_spec cleaned :
  parseJsonl cleaned
  = match omap JSON_parse (jsonlLines cleaned) with
    | [] => None
    | arr => Some (JArr arr)
    end.
Proof.
  unfold parseJsonl. destruct (jsonlLines cleaned) as [|l ls] eqn:E; [reflexivity|].
  change (0 <? length (l :: ls))%nat with true. cbv iota.
  destruct (omap JSON_parse (l :: ls)); reflexivity.
Qed.

Lemma parseJsonl_succeeds cleaned :
  parseJsonl cleaned <> None <->
  exists l v, l ∈ jsonlLines cleaned /\ JSON_parse l = Some v.
Proof.
  rewrite parseJsonl_spec. split.
  - destruct (omap JSON_parse (jsonlLines cleaned)) as [|v arr] eqn:E; [congruence|].
    intros _. assert (v ∈ omap JSON_parse (jsonlLines cleaned)) as Hv by (rewrite E; left).
    apply list_elem_of_omap in Hv as (l & Hl & Hp). eauto.
  - intros (l & v & Hl & Hp).
    assert (v ∈ omap JSON_parse (jsonlLines cleaned)) as Hv
      by (apply list_elem_of_omap; eauto).
    destruct (omap JSON_parse (jsonlLines cleaned)); [inversion Hv|discriminate].
Qed.

(** when the first two stages fail, the outcome is that of stage 3, then
    of stage 4 *)
Lemma safeParseJSON_stage3 text :
  JSON_parse (stripBOM text) = None ->
  JSON_parse (cleanup (stripBOM text)) = None ->
  safeParseJSON text
  = match parseJsonl (cleanup (stripBOM text)) with
    | Some arr => Some arr
    | None =>
        match firstBlock (cleanup (stripBOM text)) with
        | Some m => JSON_parse m
        | None => None
        end
    end.
Proof. intros H1 H2. unfold safeParseJSON. rewrite H1, H2. reflexivity. Qed.
End Recovery.

(** ** The reconstruction call *)

Section Reconstruction.
Context {RT : Runtime}.
Import Balloons.

Lemma collectHourly_lookup clock fetchText idx :
  (idx < 24)%nat ->
  collectHourly clock fetchText !! idx
  = Some (hourPoints (clock idx) idx (fetchText idx)).
Proof.
  intros H. unfold collectHourly.
  change (List.map ?f ?l) with (f <$> l).
  rewrite list_lookup_fmap, lookup_seq_lt by exact H. reflexivity.
Qed.

Lemma linkHour_empty st : linkHour st [] = st.
Proof. reflexivity. Qed.

Lemma linkTracks_all_empty hourly :
  Forall (fun pts => pts = []) hourly -> linkTracks hourly = [].
Proof.
  intros H. unfold linkTracks, linkAll.
  assert (Forall (fun pts => pts = []) (rev hourly)) as Hr.
  { rewrite Forall_forall in *. intros x Hx. apply H.
    apply list_elem_of_In. apply list_elem_of_In in Hx. apply in_rev. exact Hx. }
  assert (forall st, fold_left linkHour (rev hourly) st = st) as E.
  { induction Hr as [|pts rest -> _ IH]; intros st; simpl; auto. }
  rewrite E. reflexivity.
Qed.

Lemma GET_unfold clock fetchText :
  GET clock fetchText = linkTracks (collectHourly clock fetchText).
Proof. reflexivity. Qed.

Lemma GET_all_failed clock fetchText :
  (forall idx, (idx < 24)%nat -> fetchText idx = None) -> GET clock fetchText = [].
Proof.
  intros H. rewrite GET_unfold. apply linkTracks_all_empty.
  unfold collectHourly. rewrite Forall_forall. intros pts Hin.
  apply list_elem_of_In, in_map_iff in Hin as (idx & <- & Hidx).
  apply in_seq in Hidx. rewrite H by lia. reflexivity.
Qed.
End Reconstruction.

(** ** The loop of [linkTracks]: what becomes of the observations *)

Section LinkerStructure.
Context {RT : Runtime}.
Import Balloons.

(** a track point without its [id] *)
Definition observationOf (p : TrackPoint.t) : Observation.t :=
  Observation.mk (TrackPoint.ts p) (TrackPoint.lat p) (TrackPoint.lon p)
    (TrackPoint.alt p).

(** the points of all the tracks *)
Definition allPoints (trs : list Track.t) : list TrackPoint.t :=
  concat (Track.points <$> trs).

Lemma observationOf_withId p id : observationOf (withId p id) = p.
Proof. destruct p. reflexivity. Qed.

Lemma allPoints_app trs1 trs2 : allPoints (trs1 ++ trs2) = allPoints trs1 ++ allPoints trs2.
Proof. unfold allPoints. rewrite fmap_app, concat_app. reflexivity. Qed.

Lemma allPoints_push p b trs tr :
  trs !! b = Some tr ->
  Permutation (allPoints (alter (pushPoint p) b trs))
    (withId p (Track.id tr) :: allPoints trs).
Proof.
  revert b. induction trs as [|tr0 trs IH]; intros b Hb; [discriminate|].
  destruct b as [|b].
  - injection Hb as ->. unfold allPoints. cbn.
    rewrite <- app_assoc. cbn. rewrite <- Permutation_middle. reflexivity.
  - unfold allPoints in *. cbn. rewrite (IH b Hb).
    rewrite <- Permutation_middle. reflexivity.
Qed.

(** the observations of an hour whose index [usedPoint] holds, or does
    not hold *)
Fixpoint selected (used : bool) (pts : list Observation.t) (i : nat)
    (usedPoint : gset nat) : list Observation.t :=
  match pts with
  | [] => []
  | p :: rest =>
      if Bool.eqb (bool_decide (i ∈ usedPoint)) used
      then p :: selected used rest (S i) usedPoint
      else selected used rest (S i) usedPoint
  end.

Lemma selected_split pts :
  forall i up, Permutation (selected true pts i up ++ selected false pts i up) pts.
Proof.
  induction pts as [|p rest IH]; intros i up; [reflexivity|].
  cbn [selected]. destruct (bool_decide (i ∈ up)); cbn [Bool.eqb app].
  - rewrite IH. reflexivity.
  - rewrite <- Permutation_middle, IH. reflexivity.
Qed.

Lemma linkPoints_conserve pts :
  forall i trs ut up,
    (forall k, k ∈ up -> (k < i)%nat) ->
    Permutation (observationOf <$> allPoints (linkPoints pts i trs ut up).1)
      ((observationOf <$> allPoints trs)
         ++ selected true pts i (linkPoints pts i trs ut up).2) /\
    up ⊆ (linkPoints pts i trs ut up).2 /\
    (forall k, k ∈ (linkPoints pts i trs ut up).2 -> k ∈ up \/ (i <= k)%nat).
Proof.
  induction pts as [|p rest IH]; intros i trs ut up Hup; cbn [linkPoints selected].
  - cbn. rewrite app_nil_r. split; [reflexivity|]. split; [reflexivity|]. auto.
  - assert (forall trs' ut',
              let r := linkPoints rest (S i) trs' ut' up in
              Permutation (observationOf <$> allPoints r.1)
                ((observationOf <$> allPoints trs') ++ selected true (p :: rest) i r.2) /\
              up ⊆ r.2 /\ (forall k, k ∈ r.2 -> k ∈ up \/ (i <= k)%nat)) as Hskip.
    { intros trs' ut' r.
      destruct (IH (S i) trs' ut' up) as (HP & Hsub & Hnew);
        [intros k Hk; specialize (Hup k Hk); lia|]. fold r in HP, Hsub, Hnew.
      split; [|split; [exact Hsub|]].
      - cbn [selected]. rewrite bool_decide_eq_false_2; [exact HP|].
        intros Hin. destruct (Hnew i Hin) as [H|H]; [specialize (Hup i H)|]; lia.
      - intros k Hk. destruct (Hnew k Hk); [auto|right; lia]. }
    destruct (bestTrack p ut trs) as [b|]; [destruct (trs !! b) as [tr|] eqn:Hb|];
      try apply Hskip.
    destruct (IH (S i) (alter (pushPoint p) b trs) ({[Track.id tr]} ∪ ut) ({[i]} ∪ up))
      as (HP & Hsub & Hnew).
    { intros k Hk. apply elem_of_union in Hk as [Hk|Hk];
        [apply elem_of_singleton in Hk; lia|specialize (Hup k Hk); lia]. }
    split; [|split].
    + rewrite bool_decide_eq_true_2 by set_solver. cbn [Bool.eqb].
      rewrite HP, (allPoints_push p b trs tr Hb). cbn [fmap list_fmap].
      rewrite observationOf_withId. rewrite <- Permutation_middle. reflexivity.
    + set_solver.
    + intros k Hk. destruct (Hnew k Hk) as [H|H]; [|right; lia].
      apply elem_of_union in H as [H|H]; [apply elem_of_singleton in H; right; lia|auto].
Qed.

Lemma leftover_conserve pts :
  forall i up st,
    observationOf <$> allPoints (tracks (leftover pts i up st))
    = (observationOf <$> allPoints (tracks st)) ++ selected false pts i up.
Proof.
  induction pts as [|p rest IH]; intros i up st; cbn [leftover selected].
  - rewrite app_nil_r. reflexivity.
  - destruct (bool_decide (i ∈ up)); cbn [Bool.eqb]; rewrite IH; [reflexivity|].
    unfold startTrack. cbn [tracks]. rewrite allPoints_app, fmap_app, <- app_assoc.
    unfold allPoints. cbn. rewrite observationOf_withId. reflexivity.
Qed.

Lemma fold_startTrack_conserve pts :
  forall st,
    observationOf <$> allPoints (tracks (fold_left startTrack pts st))
    = (observationOf <$> allPoints (tracks st)) ++ pts.
Proof.
  induction pts as [|p rest IH]; intros st; cbn [fold_left].
  - rewrite app_nil_r. reflexivity.
  - rewrite IH. unfold startTrack. cbn [tracks].
    rewrite allPoints_app, fmap_app, <- app_assoc.
    unfold allPoints. cbn. rewrite observationOf_withId. reflexivity.
Qed.

(** an hour adds its observations to the tracks, each of them once *)
Lemma linkHour_conserve st pts :
  Permutation (observationOf <$> allPoints (tracks (linkHour st pts)))
    ((observationOf <$> allPoints (tracks st)) ++ pts).
Proof.
  unfold linkHour. destruct pts as [|p rest]; [rewrite app_nil_r; reflexivity|].
  destruct (tracks st) as [|tr trs] eqn:E.
  - rewrite fold_startTrack_conserve, E. reflexivity.
  - destruct (linkPoints_conserve (p :: rest) 0 (tr :: trs) ∅ ∅) as (HP & _);
      [set_solver|].
    destruct (linkPoints (p :: rest) 0 (tr :: trs) ∅ ∅) as [trs' up'].
    cbn [fst snd] in HP.
    rewrite leftover_conserve. cbn [tracks]. rewrite HP, <- app_assoc.
    rewrite selected_split. reflexivity.
Qed.

Lemma fold_linkHour_conserve hs :
  forall st,
    Permutation (observationOf <$> allPoints (tracks (fold_left linkHour hs st)))
      ((observationOf <$> allPoints (tracks st)) ++ concat hs).
Proof.
  induction hs as [|pts hs IH]; intros st; cbn [fold_left concat].
  - rewrite app_nil_r. reflexivity.
  - rewrite IH, linkHour_conserve, <- app_assoc. reflexivity.
Qed.

Lemma concat_rev_Permutation {A} (l : list (list A)) : Permutation (concat (rev l)) (concat l).
Proof.
  induction l as [|x l IH]; [reflexivity|].
  cbn [rev concat]. rewrite concat_app. cbn [concat]. rewrite app_nil_r, IH.
  apply Permutation_app_comm.
Qed.

Lemma linkAll_conserve hourly :
  Permutation (observationOf <$> allPoints (tracks (linkAll hourly))) (concat hourly).
Proof.
  unfold linkAll. rewrite fold_linkHour_conserve. cbn [tracks allPoints fmap list_fmap concat app].
  apply concat_rev_Permutation.
Qed.
End LinkerStructure.

(** ** The loop of [linkTracks]: names and growth of the tracks *)

Section LinkerNaming.
Context {RT : Runtime}.
Import Balloons.

(** every point of the track carries the track's id *)
Definition ownPoints (tr : Track.t) : Prop :=
  Forall (fun p => TrackPoint.id p = Track.id tr) (Track.points tr).

(** the tracks are named [T1], [T2], ... in the order they were opened,
    and [nextId] is the next number *)
Definition named (st : LinkState) : Prop :=
  nextId st = S (length (tracks st)) /\
  forall k tr, tracks st !! k = Some tr -> Track.id tr = trackName (S k) /\ ownPoints tr.

Lemma named_start st p : named st -> named (startTrack st p).
Proof.
  intros [Hn Hk]. unfold startTrack. split; cbn [nextId tracks].
  - rewrite length_app. cbn. lia.
  - intros k tr Hlk. apply lookup_app_Some in Hlk as [Hlk|[Hge Hlk]]; [auto|].
    destruct (k - length (tracks st))%nat as [|d] eqn:E; [|destruct d; discriminate].
    injection Hlk as <-. cbn [Track.id Track.points].
    assert (k = length (tracks st)) as -> by lia.
    rewrite Hn. split; [reflexivity|]. repeat constructor.
Qed.

Lemma ownPoints_push p tr : ownPoints tr -> ownPoints (pushPoint p tr).
Proof.
  unfold ownPoints, pushPoint. cbn [Track.id Track.points]. intros H.
  apply Forall_app. split; [exact H|]. repeat constructor.
Qed.

Lemma named_alter n trs p b :
  named {| nextId := n; tracks := trs |} ->
  named {| nextId := n; tracks := alter (pushPoint p) b trs |}.
Proof.
  intros [Hn Hk]. cbn [nextId tracks] in *. split; cbn [nextId tracks].
  - rewrite length_alter. exact Hn.
  - intros k tr Hlk. rewrite list_lookup_alter in Hlk.
    destruct (decide (b = k)) as [->|NE]; [|auto].
    destruct (trs !! k) as [tr0|] eqn:E; [|discriminate].
    injection Hlk as <-. destruct (Hk k tr0 E) as [Hid Hown].
    split; [exact Hid|apply ownPoints_push; exact Hown].
Qed.

Lemma named_linkPoints pts :
  forall i n trs ut up,
    named {| nextId := n; tracks := trs |} ->
    named {| nextId := n; tracks := (linkPoints pts i trs ut up).1 |}.
Proof.
  induction pts as [|p rest IH]; intros i n trs ut up H; cbn [linkPoints]; [exact H|].
  destruct (bestTrack p ut trs) as [b|]; [destruct (trs !! b) as [tr|]|]; auto.
  apply IH, named_alter, H.
Qed.

Lemma named_leftover pts :
  forall i up st, named st -> named (leftover pts i up st).
Proof.
  induction pts as [|p rest IH]; intros i up st H; cbn [leftover]; [exact H|].
  destruct (bool_decide (i ∈ up)); auto using named_start.
Qed.

Lemma named_fold_start pts : forall st, named st -> named (fold_left startTrack pts st).
Proof.
  induction pts as [|p rest IH]; intros st H; cbn [fold_left]; auto using named_start.
Qed.

Lemma named_linkHour st pts : named st -> named (linkHour st pts).
Proof.
  intros H. unfold linkHour. destruct pts as [|p rest]; [exact H|].
  destruct (tracks st) as [|tr trs] eqn:E; [apply named_fold_start; exact H|].
  pose proof (named_linkPoints (p :: rest) 0 (nextId st) (tr :: trs) ∅ ∅) as Hl.
  destruct (linkPoints (p :: rest) 0 (tr :: trs) ∅ ∅) as [trs' up'].
  apply named_leftover, Hl. destruct st as [n ts]. cbn in *. subst ts. exact H.
Qed.

Lemma named_linkAll hourly : named (linkAll hourly).
Proof.
  unfold linkAll.
  assert (named {| nextId := 1; tracks := [] |}) as H0.
  { split; [reflexivity|]. intros k tr Hk. discriminate. }
  revert H0. generalize {| nextId := 1; tracks := [] |}.
  induction (rev hourly) as [|pts hs IH]; intros st H; cbn [fold_left];
    auto using named_linkHour.
Qed.

Lemma trackName_inj n m : trackName n = trackName m -> n = m.
Proof.
  unfold trackName. intros H. injection H as H.
  change (NilEmpty.string_of_uint (Nat.to_uint n)
          = NilEmpty.string_of_uint (Nat.to_uint m)) in H.
  assert (Nat.to_uint n = Nat.to_uint m) as E.
  { pose proof (NilEmpty.usu (Nat.to_uint n)) as H1.
    rewrite H, NilEmpty.usu in H1. congruence. }
  rewrite <- (DecimalNat.Unsigned.of_to n), <- (DecimalNat.Unsigned.of_to m), E.
  reflexivity.
Qed.

(** the ids of named tracks, in order *)
Lemma named_ids st :
  named st -> Track.id <$> tracks st = trackName <$> seq 1 (length (tracks st)).
Proof.
  intros [_ Hk]. apply list_eq. intros k.
  rewrite !list_lookup_fmap.
  destruct (tracks st !! k) as [tr|] eqn:E; cbn.
  - rewrite lookup_seq_lt by (apply lookup_lt_Some in E; exact E).
    cbn. f_equal. apply Hk. exact E.
  - rewrite lookup_seq_ge by (apply lookup_ge_None in E; exact E). reflexivity.
Qed.

(** *** One hour *)

(** [tr'] is [tr], or [tr] with one observation of [pts] appended *)
Definition grows (pts : list Observation.t) (tr tr' : Track.t) : Prop :=
  Track.id tr' = Track.id tr /\
  (Track.points tr' = Track.points tr \/
   exists p, p ∈ pts /\ Track.points tr' = Track.points tr ++ [withId p (Track.id tr)]).

(** the same, an appended observation marking the track as used *)
Definition grownUsed (pts : list Observation.t) (ut : gset string) (tr tr' : Track.t)
    : Prop :=
  Track.id tr' = Track.id tr /\
  (Track.points tr' = Track.points tr \/
   (Track.id tr ∈ ut /\
    exists p, p ∈ pts /\ Track.points tr' = Track.points tr ++ [withId p (Track.id tr)])).

Lemma candidateKm_unused p ut tr km : candidateKm p ut tr = Some km -> Track.id tr ∉ ut.
Proof.
  unfold candidateKm. destruct (bool_decide (Track.id tr ∈ ut)) eqn:E; [discriminate|].
  intros _. apply bool_decide_eq_false in E. exact E.
Qed.

Lemma linkPoints_grows all pts :
  forall i trs0 trs ut up,
    (forall p, p ∈ pts -> p ∈ all) ->
    Forall2 (grownUsed all ut) trs0 trs ->
    exists ut', Forall2 (grownUsed all ut') trs0 (linkPoints pts i trs ut up).1.
Proof.
  induction pts as [|p rest IH]; intros i trs0 trs ut up Hall H; cbn [linkPoints].
  - exists ut. exact H.
  - assert (forall q, q ∈ rest -> q ∈ all) as Hrest by (intros q Hq; apply Hall; right; exact Hq).
    destruct (bestTrack p ut trs) as [b|] eqn:Hbest;
      [destruct (trs !! b) as [tr|] eqn:Hb|]; try (eapply IH; eassumption).
    apply (IH (S i) trs0 _ ({[Track.id tr]} ∪ ut)); [exact Hrest|].
    destruct (bestTrack_Some p ut trs b Hbest) as (tr' & km & Hb' & Hc & _).
    assert (tr' = tr) as -> by congruence.
    pose proof (candidateKm_unused _ _ _ _ Hc) as Hun.
    assert (forall x, trs0 !! b = Some x ->
              Track.id tr = Track.id x /\ Track.points tr = Track.points x) as Hfresh.
    { intros x Hx.
      destruct (Forall2_lookup_lr _ _ _ _ _ _ H Hx Hb) as (Hid & [Hsame|(Hu & _)]);
        [auto|].
      rewrite <- Hid in Hu. exfalso. exact (Hun Hu). }
    apply Forall2_alter_r.
    + eapply Forall2_impl; [exact H|].
      intros x y (Hid & [Hsame|(Hu & q & Hq & Hpts)]); split; auto.
      right. split; [set_solver|]. exists q. auto.
    + intros x y Hx Hy _. assert (y = tr) as -> by congruence.
      destruct (Hfresh x Hx) as [Hid Hsame].
      split; [exact Hid|]. right.
      split; [set_solver|]. exists p. split; [apply Hall; left|].
      unfold pushPoint. cbn [Track.points]. rewrite Hsame, Hid. reflexivity.
Qed.

(** the tracks a run of new observations opens hold one point each *)
Definition opened (pts : list Observation.t) (tr : Track.t) : Prop :=
  exists p, p ∈ pts /\ Track.points tr = [withId p (Track.id tr)].

Lemma leftover_opens all pts :
  forall i up st,
    (forall p, p ∈ pts -> p ∈ all) ->
    exists fresh, tracks (leftover pts i up st) = tracks st ++ fresh /\
                  Forall (opened all) fresh.
Proof.
  induction pts as [|p rest IH]; intros i up st Hall; cbn [leftover].
  - exists []. rewrite app_nil_r. split; [reflexivity|constructor].
  - assert (forall q, q ∈ rest -> q ∈ all) as Hrest by (intros q Hq; apply Hall; right; exact Hq).
    destruct (bool_decide (i ∈ up)); [apply IH; exact Hrest|].
    destruct (IH (S i) up (startTrack st p) Hrest) as (fresh & E & Hf).
    exists (Track.mk (trackName (nextId st)) [withId p (trackName (nextId st))] :: fresh).
    split.
    + rewrite E. unfold startTrack. cbn [tracks]. rewrite <- app_assoc. reflexivity.
    + constructor; [|exact Hf]. exists p. split; [apply Hall; left|reflexivity].
Qed.

Lemma grows_refl pts tr : grows pts tr tr.
Proof. split; [reflexivity|left; reflexivity]. Qed.

Lemma linkHour_structure st pts :
  exists kept fresh,
    tracks (linkHour st pts) = kept ++ fresh /\
    Forall2 (grows pts) (tracks st) kept /\
    Forall (opened pts) fresh.
Proof.
  unfold linkHour. destruct pts as [|p rest].
  - exists (tracks st), []. rewrite app_nil_r. split; [reflexivity|].
    split; [|constructor]. apply Forall2_same_length_lookup. split; [reflexivity|].
    intros i x y Hx Hy. rewrite Hx in Hy. injection Hy as <-. apply grows_refl.
  - destruct (tracks st) as [|tr trs] eqn:E.
    + exists []. rewrite fold_startTrack_tracks, E. cbn [app].
      eexists. split; [reflexivity|]. split; [constructor|].
      rewrite Forall_forall. intros t Ht.
      apply elem_of_lookup_imap in Ht as (k & q & -> & Hq).
      exists q. split; [|reflexivity]. eapply list_elem_of_lookup_2. exact Hq.
    + destruct (linkPoints_grows (p :: rest) (p :: rest) 0 (tr :: trs) (tr :: trs) ∅ ∅)
        as (ut' & Hg); [auto| |].
      { apply Forall2_same_length_lookup. split; [reflexivity|].
        intros i x y Hx Hy. rewrite Hx in Hy. injection Hy as <-.
        split; [reflexivity|left; reflexivity]. }
      destruct (linkPoints (p :: rest) 0 (tr :: trs) ∅ ∅) as [trs' up'].
      cbn [fst] in Hg.
      destruct (leftover_opens (p :: rest) (p :: rest) 0 up'
                  {| nextId := nextId st; tracks := trs' |}) as (fresh & Ef & Hf); [auto|].
      exists trs', fresh. cbn [tracks] in Ef. split; [exact Ef|]. split; [|exact Hf].
      eapply Forall2_impl; [exact Hg|].
      intros x y (Hid & [Hsame|(_ & Hpush)]); split; auto.
Qed.
End LinkerNaming.

(** ** The loop of [linkTracks]: which track an observation joins *)

Section LinkerLinks.
Context {RT : Runtime}.
Import Balloons Geo FloatFacts.

(** Neither test of the inner loop passes the track over: the time delta
    is not below 1800 and not above 5400, and the distance is not above the
    allowance. *)
Definition passes (p : Observation.t) (lastp : TrackPoint.t) : bool :=
  let dt := Observation.ts p - TrackPoint.ts lastp in
  negb ((dt <? 1800) || (5400 <? dt))
  && negb (MAX_LINK_KM_PER_H * (dt / 3600) <? distanceTo p lastp).

Lemma candidateKm_passes p used tr km :
  candidateKm p used tr = Some km <->
  Track.id tr ∉ used /\
  exists lastp, last (Track.points tr) = Some lastp /\ passes p lastp = true /\
                km = distanceTo p lastp.
Proof.
  unfold candidateKm, passes, distanceTo.
  destruct (bool_decide (Track.id tr ∈ used)) eqn:Hu.
  - apply bool_decide_eq_true in Hu. split; [discriminate|]. intros [H _]. contradiction.
  - apply bool_decide_eq_false in Hu.
    destruct (last (Track.points tr)) as [lastp|];
      [|split; [discriminate|]; intros (_ & l & E & _); discriminate].
    cbv zeta.
    destruct ((Observation.ts p - TrackPoint.ts lastp <? 1800)
              || (5400 <? Observation.ts p - TrackPoint.ts lastp)) eqn:G.
    + split; [discriminate|]. intros (_ & l & E & H & _). injection E as <-.
      rewrite G in H. discriminate.
    + destruct (MAX_LINK_KM_PER_H * ((Observation.ts p - TrackPoint.ts lastp) / 3600)
                <? haversineKm (LatLon.mk (TrackPoint.lat lastp) (TrackPoint.lon lastp))
                     (LatLon.mk (Observation.lat p) (Observation.lon p))) eqn:G2.
      * split; [discriminate|]. intros (_ & l & E & H & _). injection E as <-.
        rewrite G, G2 in H. discriminate.
      * split.
        -- intros E. injection E as <-. split; [exact Hu|]. exists lastp.
           rewrite G, G2. auto.
        -- intros (_ & l & E & _ & ->). injection E as <-. reflexivity.
Qed.


(** *** What an hour does with its observations

    [link] tells for each observation of the hour, by index, the open
    track it is appended to, if any. *)

(** track [j] was given an observation of index below [i] *)
Definition claimedBefore (link : list (option nat)) (i j : nat) : Prop :=
  exists i', (i' < i)%nat /\ link !! i' = Some (Some j).

(** an open track is left as it is, or has the one observation linked to
    it appended *)
Definition tracksFollow (trs0 : list Track.t) (pts : list Observation.t)
    (link : list (option nat)) (trs : list Track.t) : Prop :=
  length trs = length trs0 /\
  forall j tr, trs0 !! j = Some tr ->
    ((forall i, link !! i <> Some (Some j)) /\ trs !! j = Some tr)
    \/ (exists i p, link !! i = Some (Some j) /\ pts !! i = Some p /\
                    trs !! j = Some (pushPoint p tr) /\
                    forall i', link !! i' = Some (Some j) -> i' = i).

(** the track an observation is linked to has a last point that passes
    both tests, at a distance below infinity; it was not claimed before,
    and no track that passes and was not claimed before is closer *)
Definition choiceIsNearest (trs0 : list Track.t) (pts : list Observation.t)
    (link : list (option nat)) : Prop :=
  forall i p j, pts !! i = Some p -> link !! i = Some (Some j) ->
    exists tr lastp,
      trs0 !! j = Some tr /\ last (Track.points tr) = Some lastp /\
      passes p lastp = true /\ (distanceTo p lastp <? infinity) = true /\
      ~ claimedBefore link i j /\
      forall k tr2 last2,
        trs0 !! k = Some tr2 -> last (Track.points tr2) = Some last2 ->
        passes p last2 = true -> ~ claimedBefore link i k ->
        (distanceTo p last2 <? distanceTo p lastp) = false.

(** an observation is left without a track only if no track that passes
    and was not claimed before is at a distance below infinity *)
Definition unlinkedHadNone (trs0 : list Track.t) (pts : list Observation.t)
    (link : list (option nat)) : Prop :=
  forall i p, pts !! i = Some p -> link !! i = Some None ->
    forall k tr2 last2,
      trs0 !! k = Some tr2 -> last (Track.points tr2) = Some last2 ->
      passes p last2 = true -> ~ claimedBefore link i k ->
      (distanceTo p last2 <? infinity) = false.

Definition linked (trs0 : list Track.t) (pts : list Observation.t)
    (link : list (option nat)) (trs : list Track.t) : Prop :=
  length link = length pts /\ tracksFollow trs0 pts link trs /\
  choiceIsNearest trs0 pts link /\ unlinkedHadNone trs0 pts link.

(** the observations no track was found for, in order *)
Fixpoint unlinked (pts : list Observation.t) (link : list (option nat))
    : list Observation.t :=
  match pts, link with
  | p :: pts', None :: link' => p :: unlinked pts' link'
  | _ :: pts', Some _ :: link' => unlinked pts' link'
  | _, _ => []
  end.

Lemma claimedBefore_app link l i j :
  (i <= length link)%nat -> claimedBefore (link ++ l) i j <-> claimedBefore link i j.
Proof.
  intros Hi. unfold claimedBefore. split; intros (i' & Hlt & E); exists i'; split; auto.
  - rewrite lookup_app_l in E by lia. exact E.
  - rewrite lookup_app_l by lia. exact E.
Qed.

Lemma claimedBefore_all link j :
  claimedBefore link (length link) j <-> exists i, link !! i = Some (Some j).
Proof.
  unfold claimedBefore. split.
  - intros (i & _ & E). eauto.
  - intros (i & E). exists i. split; [|exact E]. apply lookup_lt_Some in E. exact E.
Qed.

(** the state of the loop over the observations after those of [pre] *)
Definition linkedSoFar (trs0 : list Track.t) (pre : list Observation.t)
    (link : list (option nat)) (trs : list Track.t) (ut : gset string) (up : gset nat)
    : Prop :=
  linked trs0 pre link trs /\
  (forall j tr, trs0 !! j = Some tr ->
     Track.id tr ∈ ut <-> exists i, link !! i = Some (Some j)) /\
  (forall i, i ∈ up <-> exists j, link !! i = Some (Some j)).

Lemma linkedSoFar_unclaimed trs0 pre link trs ut up k tr2 :
  linkedSoFar trs0 pre link trs ut up ->
  trs0 !! k = Some tr2 -> ~ claimedBefore link (length link) k ->
  Track.id tr2 ∉ ut /\ trs !! k = Some tr2.
Proof.
  intros ((_ & (_ & Htr) & _ & _) & Hut & _) Hk Hn.
  rewrite claimedBefore_all in Hn. split.
  - intros Hin. apply Hn. apply (Hut k tr2 Hk). exact Hin.
  - destruct (Htr k tr2 Hk) as [[_ E]|(i & p & E & _)]; [exact E|].
    exfalso. apply Hn. eauto.
Qed.

Lemma linkedSoFar_skip trs0 pre link trs ut up p :
  linkedSoFar trs0 pre link trs ut up ->
  bestTrack p ut trs = None ->
  linkedSoFar trs0 (pre ++ [p]) (link ++ [None]) trs ut up.
Proof.
  intros H Hbest. pose proof H as ((Hlen & (Hl & Htr) & Hch & Hno) & Hut & Hup).
  assert (forall i x, (link ++ [None]) !! i = Some (Some x) -> link !! i = Some (Some x))
    as Hold.
  { intros i x E. apply lookup_app_Some in E as [E|[_ E]]; [exact E|].
    destruct (i - length link)%nat; [discriminate|]. destruct n; discriminate. }
  assert (forall i x, link !! i = Some x ->
            (link ++ [None]) !! i = Some x /\ (i < length link)%nat) as Hnew.
  { intros i x E. split; [apply lookup_app_l_Some; exact E|].
    apply lookup_lt_Some in E. exact E. }
  split; [split; [|split; [|split]]|split].
  - rewrite !length_app, Hlen. reflexivity.
  - split; [exact Hl|]. intros j tr Hj.
    destruct (Htr j tr Hj) as [[Hnone E]|(i & q & E1 & E2 & E3 & Hu)].
    + left. split; [|exact E]. intros i Hi. apply (Hnone i), Hold, Hi.
    + right. exists i, q. split; [apply Hnew; exact E1|].
      split; [apply lookup_app_l_Some; exact E2|]. split; [exact E3|].
      intros i' Hi'. apply Hu, Hold, Hi'.
  - intros i q j Hq Hi. pose proof (Hold _ _ Hi) as Hi0.
    destruct (Hnew _ _ Hi0) as [_ Hlt].
    rewrite lookup_app_l in Hq by lia.
    destruct (Hch i q j Hq Hi0) as (tr & lastp & A & B & C & D & E & F).
    exists tr, lastp. repeat split; auto.
    + rewrite claimedBefore_app by lia. exact E.
    + intros k tr2 last2 K1 K2 K3 K4. rewrite claimedBefore_app in K4 by lia.
      exact (F k tr2 last2 K1 K2 K3 K4).
  - intros i q Hq Hi k tr2 last2 K1 K2 K3 K4.
    apply lookup_app_Some in Hi as [Hi|[Hge Hi]].
    + destruct (Hnew _ _ Hi) as [_ Hlt].
      rewrite lookup_app_l in Hq by lia.
      rewrite claimedBefore_app in K4 by lia.
      exact (Hno i q Hq Hi k tr2 last2 K1 K2 K3 K4).
    + assert (i = length link) as ->.
      { apply lookup_lt_Some in Hq. rewrite length_app in Hq. cbn in Hq. lia. }
      rewrite lookup_app_r in Hq by lia. rewrite Hlen, Nat.sub_diag in Hq.
      injection Hq as <-.
      rewrite claimedBefore_app in K4 by lia.
      destruct (linkedSoFar_unclaimed _ _ _ _ _ _ k tr2 H K1 K4) as [Hun Hk].
      eapply (bestTrack_None p ut trs Hbest k tr2); [exact Hk|].
      apply candidateKm_passes. split; [exact Hun|]. exists last2. auto.
  - intros j tr Hj. rewrite (Hut j tr Hj). split; intros (i & E); exists i.
    + apply Hnew. exact E.
    + apply Hold. exact E.
  - intros i. rewrite (Hup i). split; intros (j & E); exists j.
    + apply Hnew. exact E.
    + apply Hold. exact E.
Qed.

Lemma linkedSoFar_link trs0 pre link trs ut up p b tr :
  NoDup (Track.id <$> trs0) ->
  linkedSoFar trs0 pre link trs ut up ->
  bestTrack p ut trs = Some b -> trs !! b = Some tr ->
  linkedSoFar trs0 (pre ++ [p]) (link ++ [Some b]) (alter (pushPoint p) b trs)
    ({[Track.id tr]} ∪ ut) ({[length pre]} ∪ up).
Proof.
  intros Hnd H Hbest Hb.
  pose proof H as ((Hlen & (Hl & Htr) & Hch & Hno) & Hut & Hup).
  destruct (bestTrack_Some p ut trs b Hbest) as (tr' & km & Hb' & Hc & Hkm & Hmin).
  assert (tr' = tr) as -> by congruence. clear Hb'.
  apply candidateKm_passes in Hc as (Hun & lastp & Hlast & Hpass & ->).
  assert (exists tr0, trs0 !! b = Some tr0) as (tr0 & Hb0).
  { apply lookup_lt_is_Some. rewrite <- Hl. apply lookup_lt_Some in Hb. exact Hb. }
  assert ((forall i, link !! i <> Some (Some b)) /\ tr0 = tr) as [Hfree ->].
  { destruct (Htr b tr0 Hb0) as [[Hnone E]|(i & q & E1 & _ & E3 & _)].
    - split; [exact Hnone|congruence].
    - exfalso. apply Hun. rewrite Hb in E3. injection E3 as ->. cbn [pushPoint Track.id].
      apply (Hut b tr0 Hb0). eauto. }
  assert (forall i x, (link ++ [Some b]) !! i = Some (Some x) ->
            link !! i = Some (Some x) \/ (i = length link /\ x = b)) as Hold.
  { intros i x E. apply lookup_app_Some in E as [E|[Hge E]]; [left; exact E|]. right.
    destruct (i - length link)%nat as [|n] eqn:D; [|destruct n; discriminate].
    injection E as <-. split; [lia|reflexivity]. }
  assert (forall i x, link !! i = Some x ->
            (link ++ [Some b]) !! i = Some x /\ (i < length link)%nat) as Hnew.
  { intros i x E. split; [apply lookup_app_l_Some; exact E|].
    apply lookup_lt_Some in E. exact E. }
  assert ((link ++ [Some b]) !! length link = Some (Some b)) as Hat.
  { rewrite lookup_app_r by lia. rewrite Nat.sub_diag. reflexivity. }
  assert ((pre ++ [p]) !! length link = Some p) as Hatp.
  { rewrite lookup_app_r by lia. rewrite Hlen, Nat.sub_diag. reflexivity. }
  split; [split; [|split; [|split]]|split].
  - rewrite !length_app, Hlen. reflexivity.
  - split; [rewrite length_alter; exact Hl|]. intros j tr2 Hj.
    destruct (decide (j = b)) as [->|Hjb].
    + assert (tr2 = tr) as -> by congruence.
      right. exists (length link), p. split; [exact Hat|]. split; [exact Hatp|].
      split; [rewrite list_lookup_alter_eq, Hb; reflexivity|].
      intros i' Hi'. destruct (Hold _ _ Hi') as [E|[E _]]; [|exact E].
      exfalso. exact (Hfree i' E).
    + rewrite list_lookup_alter_ne by congruence.
      destruct (Htr j tr2 Hj) as [[Hnone E]|(i & q & E1 & E2 & E3 & Hu)].
      * left. split; [|exact E]. intros i Hi.
        destruct (Hold _ _ Hi) as [Hi0|[_ Hi0]]; [exact (Hnone i Hi0)|congruence].
      * right. exists i, q. split; [apply Hnew; exact E1|].
        split; [apply lookup_app_l_Some; exact E2|]. split; [exact E3|].
        intros i' Hi'. destruct (Hold _ _ Hi') as [Hi0|[_ Hi0]]; [auto|congruence].
  - intros i q j Hq Hi. destruct (Hold _ _ Hi) as [Hi0|[-> ->]].
    + destruct (Hnew _ _ Hi0) as [_ Hlt].
      rewrite lookup_app_l in Hq by lia.
      destruct (Hch i q j Hq Hi0) as (tr2 & lastp2 & A & B & C & D & E & F).
      exists tr2, lastp2. repeat split; auto.
      * rewrite claimedBefore_app by lia. exact E.
      * intros k tr3 last3 K1 K2 K3 K4. rewrite claimedBefore_app in K4 by lia.
        exact (F k tr3 last3 K1 K2 K3 K4).
    + rewrite Hatp in Hq. injection Hq as <-.
      exists tr, lastp. repeat split; auto.
      * rewrite claimedBefore_app by lia. rewrite claimedBefore_all.
        intros (i & E). exact (Hfree i E).
      * intros k tr3 last3 K1 K2 K3 K4. rewrite claimedBefore_app in K4 by lia.
        destruct (linkedSoFar_unclaimed _ _ _ _ _ _ k tr3 H K1 K4) as [Hun3 Hk].
        apply (Hmin k tr3); [exact Hk|].
        apply candidateKm_passes. split; [exact Hun3|]. exists last3. auto.
  - intros i q Hq Hi k tr2 last2 K1 K2 K3 K4.
    apply lookup_app_Some in Hi as [Hi|[Hge Hi]].
    + destruct (Hnew _ _ Hi) as [_ Hlt].
      rewrite lookup_app_l in Hq by lia.
      rewrite claimedBefore_app in K4 by lia.
      exact (Hno i q Hq Hi k tr2 last2 K1 K2 K3 K4).
    + destruct (i - length link)%nat as [|n]; [discriminate|destruct n; discriminate].
  - intros j tr2 Hj. rewrite elem_of_union, elem_of_singleton, (Hut j tr2 Hj). split.
    + intros [E|(i & E)].
      * assert (j = b) as ->.
        { eapply (NoDup_lookup (Track.id <$> trs0)); [exact Hnd| |].
          - rewrite list_lookup_fmap, Hj. reflexivity.
          - rewrite list_lookup_fmap, Hb0. cbn. rewrite E. reflexivity. }
        eauto.
      * exists i. apply Hnew. exact E.
    + intros (i & E). destruct (Hold _ _ E) as [E0|[_ ->]]; [right; eauto|].
      left. congruence.
  - intros i. rewrite elem_of_union, elem_of_singleton, (Hup i), <- Hlen. split.
    + intros [->|(j & E)]; [eauto|]. exists j. apply Hnew. exact E.
    + intros (j & E). destruct (Hold _ _ E) as [E0|[-> _]]; [right; eauto|left; reflexivity].
Qed.

Lemma linkPoints_linked trs0 rest :
  NoDup (Track.id <$> trs0) ->
  forall pre link trs ut up,
    linkedSoFar trs0 pre link trs ut up ->
    exists link' ut',
      linkedSoFar trs0 (pre ++ rest) link'
        (linkPoints rest (length pre) trs ut up).1 ut'
        (linkPoints rest (length pre) trs ut up).2.
Proof.
  intros Hnd. induction rest as [|p rest IH]; intros pre link trs ut up H.
  - exists link, ut. rewrite app_nil_r. exact H.
  - cbn [linkPoints].
    replace (pre ++ p :: rest) with ((pre ++ [p]) ++ rest)
      by (rewrite <- app_assoc; reflexivity).
    replace (S (length pre)) with (length (pre ++ [p]))
      by (rewrite length_app; cbn; lia).
    destruct (bestTrack p ut trs) as [b|] eqn:Hbest.
    + destruct (trs !! b) as [tr|] eqn:Hb.
      * apply (IH _ _ _ _ _ (linkedSoFar_link _ _ _ _ _ _ p b tr Hnd H Hbest Hb)).
      * destruct (bestTrack_Some p ut trs b Hbest) as (tr' & km & Hb' & _). congruence.
    + apply (IH _ _ _ _ _ (linkedSoFar_skip _ _ _ _ _ _ p H Hbest)).
Qed.

Lemma linkedSoFar_start trs0 : linkedSoFar trs0 [] [] trs0 ∅ ∅.
Proof.
  split; [split; [|split; [|split]]|split].
  - reflexivity.
  - split; [reflexivity|]. intros j tr Hj. left. split; [|exact Hj].
    intros i E. rewrite lookup_nil in E. discriminate.
  - intros i p j E. rewrite lookup_nil in E. discriminate.
  - intros i p E. rewrite lookup_nil in E. discriminate.
  - intros j tr Hj. split; [set_solver|]. intros (i & E). rewrite lookup_nil in E. discriminate.
  - intros i. split; [set_solver|]. intros (j & E). rewrite lookup_nil in E. discriminate.
Qed.

(** the tracks [leftover] opens *)
Lemma leftover_tracks pts :
  forall i up st,
    tracks (leftover pts i up st)
    = tracks st ++ imap (freshTrack (nextId st)) (selected false pts i up)
    /\ nextId (leftover pts i up st)
       = (nextId st + length (selected false pts i up))%nat.
Proof.
  induction pts as [|p rest IH]; intros i up st; cbn [leftover selected].
  - cbn. rewrite app_nil_r, Nat.add_0_r. auto.
  - destruct (bool_decide (i ∈ up)); cbn [Bool.eqb]; [apply IH|].
    destruct (IH (S i) up (startTrack st p)) as [E1 E2]. rewrite E1, E2.
    unfold startTrack. cbn [tracks nextId imap length]. rewrite <- app_assoc. cbn [app].
    split; [|lia]. f_equal. f_equal.
    + unfold freshTrack. rewrite Nat.add_0_r. reflexivity.
    + apply imap_ext. intros k q _. unfold freshTrack. cbn.
      rewrite Nat.add_succ_r. reflexivity.
Qed.

Lemma selected_unlinked pts :
  forall link i0 up,
    length link = length pts ->
    (forall i, (i0 + i)%nat ∈ up <-> exists j, link !! i = Some (Some j)) ->
    selected false pts i0 up = unlinked pts link.
Proof.
  induction pts as [|p rest IH]; intros link i0 up Hlen Hup; [reflexivity|].
  destruct link as [|l link]; [discriminate|]. cbn [length] in Hlen.
  cbn [selected unlinked].
  assert (selected false rest (S i0) up = unlinked rest link) as E.
  { apply IH; [lia|]. intros i. rewrite <- (Hup (S i)). cbn [lookup].
    replace (i0 + S i)%nat with (S i0 + i)%nat by lia. reflexivity. }
  specialize (Hup 0%nat). rewrite Nat.add_0_r in Hup. cbn in Hup.
  destruct l as [j|].
  - rewrite bool_decide_eq_true_2 by (apply Hup; eauto). cbn [Bool.eqb]. exact E.
  - rewrite bool_decide_eq_false_2.
    + cbn [Bool.eqb]. rewrite E. reflexivity.
    + intros Hin. apply Hup in Hin as (j & Hj). discriminate.
Qed.

Lemma unlinked_none pts : unlinked pts (replicate (length pts) None) = pts.
Proof. induction pts as [|p rest IH]; [reflexivity|]. cbn. rewrite IH. reflexivity. Qed.

Lemma elem_of_unlinked pts :
  forall link i p, pts !! i = Some p -> link !! i = Some None -> p ∈ unlinked pts link.
Proof.
  induction pts as [|q rest IH]; intros link i p Hp Hl; [discriminate|].
  destruct link as [|l link]; [discriminate|].
  destruct i as [|i]; cbn in Hp, Hl.
  - injection Hp as ->. injection Hl as ->. left.
  - destruct l; cbn [unlinked]; [|right]; eapply IH; eauto.
Qed.

(** One pass of the loop over the hours: the observations are linked as
    [link] tells, and those left over open the tracks that follow. *)
Lemma linkHour_links st pts :
  NoDup (Track.id <$> tracks st) ->
  exists link trs,
    linked (tracks st) pts link trs /\
    tracks (linkHour st pts)
    = trs ++ imap (freshTrack (nextId st)) (unlinked pts link).
Proof.
  intros Hnd. unfold linkHour. destruct pts as [|p rest].
  - exists [], (tracks st). split; [apply linkedSoFar_start|].
    cbn. rewrite app_nil_r. reflexivity.
  - destruct (tracks st) as [|tr trs] eqn:E.
    + exists (replicate (length (p :: rest)) None), [].
      rewrite fold_startTrack_tracks, E, unlinked_none. split; [|reflexivity].
      split; [apply length_replicate|]. split; [|split].
      * split; [reflexivity|]. intros j x Hj. discriminate.
      * intros i q j _ Hi. apply lookup_replicate in Hi as [Hi _]. discriminate.
      * intros i q _ _ k tr2 last2 Hk. discriminate.
    + destruct (linkPoints_linked (tr :: trs) (p :: rest) Hnd [] [] (tr :: trs) ∅ ∅
                  (linkedSoFar_start _)) as (link & R).
      cbn [app length] in R. destruct R as (ut' & (Hl & _ & Hup)).
      destruct (linkPoints (p :: rest) 0 (tr :: trs) ∅ ∅) as [trs' up'].
      cbn [fst snd] in *. exists link, trs'. split; [exact Hl|].
      destruct (leftover_tracks (p :: rest) 0 up' {| nextId := nextId st; tracks := trs' |})
        as [Et _].
      rewrite Et. cbn [tracks nextId]. f_equal. f_equal.
      apply selected_unlinked; [apply Hl|]. intros i. apply Hup.
Qed.

(** the ids of the open tracks of a run are distinct *)
Lemma linkAll_ids_distinct hourly : NoDup (Track.id <$> tracks (linkAll hourly)).
Proof.
  rewrite (named_ids _ (named_linkAll hourly)).
  apply NoDup_fmap_2; [|apply NoDup_seq]. intros n m. apply trackName_inj.
Qed.
End LinkerLinks.

(** ** The requests of the reconstruction call *)

(** the body the request of hour [idx] is answered with, when it is *)
Definition bodyOf (net : string -> Handler.Exchange) (idx : nat) : option string :=
  match net (Handler.url idx) with
  | Handler.Response true (Some body) => Some body
  | _ => None
  end.

(** a network that settles the request of hour [idx] as [outcomes idx] *)
Definition serving (outcomes : nat -> Handler.Exchange) (u : string) : Handler.Exchange :=
  match List.find (fun i => String.eqb (Handler.url i) u) (seq 0 24) with
  | Some i => outcomes i
  | None => Handler.NoResponse
  end.

Lemma serving_url outcomes idx :
  (idx < 24)%nat -> serving outcomes (Handler.url idx) = outcomes idx.
Proof.
  intros H. unfold serving.
  do 24 (destruct idx as [|idx]; [reflexivity|]). lia.
Qed.

Section Requests.
Context {RT : Runtime}.
Import Balloons.

Lemma imap_map_seq {A B : Type} (f : nat -> A -> B) (g : nat -> A) n :
  imap f (List.map g (seq 0 n)) = List.map (fun i => f i (g i)) (seq 0 n).
Proof.
  apply list_eq. intros i.
  change (List.map ?h ?l) with (h <$> l).
  rewrite list_lookup_imap, !list_lookup_fmap.
  destruct (Nat.lt_ge_cases i n) as [Hlt|Hge].
  - rewrite lookup_seq_lt by exact Hlt. reflexivity.
  - rewrite lookup_seq_ge by exact Hge. reflexivity.
Qed.

Lemma hourOf_task clock net idx :
  Handler.hourOf clock idx
    (Handler.catch_
       (Handler.then_ (Handler.fetchText net (Handler.url idx))
          (fun txt => Handler.Fulfilled (SafeJson.safeParseJSON txt)))
       (Handler.Fulfilled None))
  = hourPoints (clock idx) idx (bodyOf net idx).
Proof.
  unfold Handler.fetchText, bodyOf, hourPoints.
  destruct (net (Handler.url idx)) as [|[|] [body|]];
    cbn [Handler.then_ Handler.catch_ Handler.hourOf negb]; reflexivity.
Qed.

Lemma hourOf_tasks clock net n :
  imap (Handler.hourOf clock)
    (List.map
       (fun i =>
          Handler.catch_
            (Handler.then_ (Handler.fetchText net (Handler.url i))
               (fun txt => Handler.Fulfilled (SafeJson.safeParseJSON txt)))
            (Handler.Fulfilled None))
       (seq 0 n))
  = List.map (fun idx => hourPoints (clock idx) idx (bodyOf net idx)) (seq 0 n).
Proof.
  rewrite imap_map_seq. apply map_ext. intros idx. apply hourOf_task.
Qed.

Lemma Handler_hourly clock net :
  imap (Handler.hourOf clock) (Handler.tasks net) = collectHourly clock (bodyOf net).
Proof. exact (hourOf_tasks clock net 24). Qed.

Lemma Handler_GET_tracks clock net :
  Handler.GET clock net = Handler.Fulfilled (GET clock (bodyOf net)).
Proof.
  unfold Handler.GET, Handler.Promise_allSettled, Handler.then_.
  rewrite Handler_hourly, GET_unfold. reflexivity.
Qed.
End Requests.

(** ** White space, and the lines of a text

    The words of the specification about stage 3, written out: the white
    space of ECMAScript ([WhiteSpace] and [LineTerminator], what [trim]
    removes and [\s] matches) by its code points, and what it is to split
    a text on line breaks. *)

Definition whiteSpaceCodePoints : list nat :=
  ([9; 10; 11; 12; 13; 32; 160; 5760] ++ seq 8192 11
   ++ [8232; 8233; 8239; 8287; 12288; 65279])%nat.

(** the UTF-8 encoding of a code point below 65536 *)
Definition utf8 (cp : nat) : string :=
  (if cp <? 128 then String (ascii_of_nat cp) EmptyString
   else if cp <? 2048 then
     String (ascii_of_nat (192 + cp / 64))
       (String (ascii_of_nat (128 + cp mod 64)) EmptyString)
   else
     String (ascii_of_nat (224 + cp / 4096))
       (String (ascii_of_nat (128 + (cp / 64) mod 64))
          (String (ascii_of_nat (128 + cp mod 64)) EmptyString)))%nat.

Definition whiteSpaceChars : list string := utf8 <$> whiteSpaceCodePoints.

(** a sequence of white-space characters *)
Inductive whiteSpace : string -> Prop :=
  | whiteSpace_nil : whiteSpace EmptyString
  | whiteSpace_cons w s : w ∈ whiteSpaceChars -> whiteSpace s -> whiteSpace (w ++ s).

Definition beginsWith (w s : string) : Prop := exists rest, s = (w ++ rest)%string.
Definition endsWith (w s : string) : Prop := exists before, s = (before ++ w)%string.

(** [l] is [raw] without the white space at its two ends *)
Definition trimmed (raw l : string) : Prop :=
  (exists before after,
     whiteSpace before /\ whiteSpace after /\ raw = (before ++ l ++ after)%string)
  /\ forall w, w ∈ whiteSpaceChars -> ~ beginsWith w l /\ ~ endsWith w l.

Definition lineFeed : string := String "010"%char EmptyString.
Definition carriageReturn : string := String "013"%char EmptyString.

(** [s] holds no line feed *)
Definition oneLine (s : string) : Prop := forall a b, s <> (a ++ lineFeed ++ b)%string.

(** the lines of a text split at each line feed, and at each carriage
    return that comes just before a line feed, together with it *)
Inductive splitsInto : string -> list string -> Prop :=
  | splitsInto_last l : oneLine l -> splitsInto l [l]
  | splitsInto_LF l rest ls :
      oneLine l -> ~ endsWith carriageReturn l -> splitsInto rest ls ->
      splitsInto (l ++ lineFeed ++ rest) (l :: ls)
  | splitsInto_CRLF l rest ls :
      oneLine l -> splitsInto rest ls ->
      splitsInto (l ++ carriageReturn ++ lineFeed ++ rest) (l :: ls).

Section WhiteSpace.
Import SafeJson.

Lemma app_String c (s t : string) : (String c s ++ t)%string = String c (s ++ t).
Proof. reflexivity. Qed.

Lemma string_app_assoc (a b c : string) : ((a ++ b) ++ c)%string = (a ++ b ++ c)%string.
Proof. induction a as [|x a IH]; [reflexivity|]. rewrite !app_String, IH. reflexivity. Qed.

Lemma string_app_nil_r (a : string) : (a ++ "")%string = a.
Proof. induction a as [|x a IH]; [reflexivity|]. rewrite !app_String, IH. reflexivity. Qed.

Lemma string_app_length (a b : string) :
  String.length (a ++ b) = (String.length a + String.length b)%nat.
Proof.
  induction a as [|x a IH]; [reflexivity|].
  rewrite app_String. cbn [String.length]. rewrite IH. reflexivity.
Qed.

Lemma ascii_of_code (a : ascii) n : nat_of_ascii a = n -> a = ascii_of_nat n.
Proof. intros <-. symmetry. apply ascii_nat_embedding. Qed.

(** *** [spaceWidth] finds the white-space characters *)

Lemma whiteSpaceChars_width w rest :
  w ∈ whiteSpaceChars ->
  spaceWidth (w ++ rest) = String.length w /\ (0 < String.length w)%nat.
Proof.
  intros H. apply list_elem_of_In in H. vm_compute in H.
  repeat (destruct H as [<-|H]; [split; [reflexivity|cbn; lia]|]).
  destruct H.
Qed.

Lemma isSpace_char a :
  isSpace a = true -> String a EmptyString ∈ whiteSpaceChars.
Proof.
  intros H. apply list_elem_of_In.
  destruct a as [[] [] [] [] [] [] [] []]; try discriminate H; vm_compute; tauto.
Qed.

Lemma isSpace2_char a b :
  isSpace2 (nat_of_ascii a) (nat_of_ascii b) = true ->
  String a (String b EmptyString) ∈ whiteSpaceChars.
Proof.
  unfold isSpace2. rewrite andb_true_iff, !Nat.eqb_eq. intros [Ha Hb].
  rewrite (ascii_of_code a _ Ha), (ascii_of_code b _ Hb).
  apply list_elem_of_In. vm_compute. tauto.
Qed.

Lemma isSpace3_char a b c :
  isSpace3 (nat_of_ascii a) (nat_of_ascii b) (nat_of_ascii c) = true ->
  String a (String b (String c EmptyString)) ∈ whiteSpaceChars.
Proof.
  unfold isSpace3.
  rewrite !orb_true_iff, !andb_true_iff, !orb_true_iff, !andb_true_iff, !Nat.eqb_eq,
    !Nat.leb_le.
  intros H.
  assert ((nat_of_ascii a = 225 /\ nat_of_ascii b = 154 /\ nat_of_ascii c = 128)
          \/ (nat_of_ascii a = 226 /\ nat_of_ascii b = 128 /\
              (nat_of_ascii c = 128 \/ nat_of_ascii c = 129 \/ nat_of_ascii c = 130
               \/ nat_of_ascii c = 131 \/ nat_of_ascii c = 132 \/ nat_of_ascii c = 133
               \/ nat_of_ascii c = 134 \/ nat_of_ascii c = 135 \/ nat_of_ascii c = 136
               \/ nat_of_ascii c = 137 \/ nat_of_ascii c = 138 \/ nat_of_ascii c = 168
               \/ nat_of_ascii c = 169 \/ nat_of_ascii c = 175))
          \/ (nat_of_ascii a = 226 /\ nat_of_ascii b = 129 /\ nat_of_ascii c = 159)
          \/ (nat_of_ascii a = 227 /\ nat_of_ascii b = 128 /\ nat_of_ascii c = 128)
          \/ (nat_of_ascii a = 239 /\ nat_of_ascii b = 187 /\ nat_of_ascii c = 191))%nat
    as Hc by lia.
  clear H. apply list_elem_of_In.
  repeat match goal with
         | H : _ \/ _ |- _ => destruct H as [H|H]
         | H : _ /\ _ |- _ => destruct H as [? H]
         end;
    repeat match goal with
           | H : nat_of_ascii ?x = _ |- _ => apply ascii_of_code in H; subst x
           end;
    vm_compute; tauto.
Qed.

Lemma spaceWidth_char s k :
  spaceWidth s = S k ->
  exists w rest, w ∈ whiteSpaceChars /\ s = (w ++ rest)%string /\ String.length w = S k.
Proof.
  destruct s as [|a s1]; [discriminate|]. cbn [spaceWidth].
  destruct (isSpace a) eqn:E1.
  { intros [= <-]. exists (String a EmptyString), s1.
    split; [apply isSpace_char; exact E1|split; reflexivity]. }
  destruct s1 as [|b s2]; [discriminate|].
  destruct (isSpace2 (nat_of_ascii a) (nat_of_ascii b)) eqn:E2.
  { intros [= <-]. exists (String a (String b EmptyString)), s2.
    split; [apply isSpace2_char; exact E2|split; reflexivity]. }
  destruct s2 as [|c s3]; [discriminate|].
  destruct (isSpace3 (nat_of_ascii a) (nat_of_ascii b) (nat_of_ascii c)) eqn:E3;
    [|discriminate].
  intros [= <-]. exists (String a (String b (String c EmptyString))), s3.
  split; [apply isSpace3_char; exact E3|split; reflexivity].
Qed.

Lemma spaceWidth_none s w :
  spaceWidth s = 0%nat -> w ∈ whiteSpaceChars -> ~ beginsWith w s.
Proof.
  intros H Hw [rest ->]. destruct (whiteSpaceChars_width w rest Hw) as [E L].
  rewrite E in H. lia.
Qed.

(** *** [\s*] and [trim] *)

Lemma skipSpacesFrom_pending pre rest :
  skipSpacesFrom (String.length pre) (pre ++ rest)
  = ((skipSpaces rest).1, (String.length pre + (skipSpaces rest).2)%nat).
Proof.
  induction pre as [|c pre IH].
  - change (skipSpacesFrom 0 rest = ((skipSpaces rest).1, (skipSpaces rest).2)).
    unfold skipSpaces. destruct (skipSpacesFrom 0 rest). reflexivity.
  - rewrite app_String. cbn [String.length skipSpacesFrom]. rewrite IH. reflexivity.
Qed.

Lemma skipSpaces_stop s : spaceWidth s = 0%nat -> skipSpaces s = (s, 0%nat).
Proof.
  intros H. unfold skipSpaces. destruct s as [|c s]; [reflexivity|].
  cbn [skipSpacesFrom]. rewrite H. reflexivity.
Qed.

Lemma skipSpaces_char w rest :
  w ∈ whiteSpaceChars ->
  skipSpaces (w ++ rest)
  = ((skipSpaces rest).1, (String.length w + (skipSpaces rest).2)%nat).
Proof.
  intros Hw. destruct (whiteSpaceChars_width w rest Hw) as [E L].
  destruct w as [|c w]; [cbn in L; lia|].
  unfold skipSpaces at 1. rewrite app_String. cbn [skipSpacesFrom].
  rewrite <- app_String, E. cbn [String.length].
  rewrite skipSpacesFrom_pending. reflexivity.
Qed.

(** what [\s*] skips is white space, all there is *)
Lemma skipSpaces_spec s :
  exists pre,
    whiteSpace pre /\ s = (pre ++ (skipSpaces s).1)%string /\
    (skipSpaces s).2 = String.length pre /\ spaceWidth (skipSpaces s).1 = 0%nat.
Proof.
  remember (String.length s) as n eqn:Hn. revert s Hn.
  induction n as [n IH] using lt_wf_ind. intros s Hn.
  destruct (spaceWidth s) as [|k] eqn:E.
  - exists EmptyString. rewrite (skipSpaces_stop s E).
    split; [constructor|split; [reflexivity|split; [reflexivity|exact E]]].
  - destruct (spaceWidth_char s k E) as (w & rest & Hw & -> & L).
    destruct (IH (String.length rest)) with (s := rest) as (pre & Hpre & E1 & E2 & E3);
      [rewrite Hn, string_app_length; lia|reflexivity|].
    exists (w ++ pre)%string. rewrite (skipSpaces_char w rest Hw). cbn [fst snd].
    split; [constructor; assumption|].
    split; [rewrite string_app_assoc, <- E1; reflexivity|].
    split; [rewrite string_app_length, E2; reflexivity|exact E3].
Qed.

Lemma whiteSpace_app a b : whiteSpace a -> whiteSpace b -> whiteSpace (a ++ b).
Proof.
  induction 1 as [|w s Hw _ IH]; intros Hb; [exact Hb|].
  rewrite string_app_assoc. constructor; auto.
Qed.

Lemma trimStart_spec s :
  exists pre, whiteSpace pre /\ s = (pre ++ trimStart s)%string /\
              spaceWidth (trimStart s) = 0%nat.
Proof.
  destruct (skipSpaces_spec s) as (pre & H1 & H2 & _ & H3). exists pre. auto.
Qed.

Lemma trimStart_char w s : w ∈ whiteSpaceChars -> trimStart (w ++ s) = trimStart s.
Proof. intros Hw. unfold trimStart. rewrite (skipSpaces_char w s Hw). reflexivity. Qed.

Lemma blank_whiteSpace s : blank s = true <-> whiteSpace s.
Proof.
  unfold blank. split.
  - intros H. destruct (trimStart_spec s) as (pre & Hpre & E & _).
    destruct (trimStart s); [|discriminate].
    rewrite string_app_nil_r in E. rewrite E. exact Hpre.
  - induction 1 as [|w s Hw _ IH]; [reflexivity|].
    rewrite (trimStart_char w s Hw). exact IH.
Qed.

Lemma trimEnd_spec s :
  exists post, whiteSpace post /\ s = (trimEnd s ++ post)%string /\
               forall w, w ∈ whiteSpaceChars -> ~ endsWith w (trimEnd s).
Proof.
  induction s as [|c s (post & Hpost & E & Hno)].
  - exists EmptyString. split; [constructor|split; [reflexivity|]].
    intros w Hw [before Hb]. destruct (whiteSpaceChars_width w "" Hw) as [_ L].
    apply (f_equal String.length) in Hb. rewrite string_app_length in Hb. cbn in Hb. lia.
  - cbn [trimEnd]. destruct (blank (String c s)) eqn:B.
    + exists (String c s). split; [apply blank_whiteSpace; exact B|split; [reflexivity|]].
      intros w Hw [before Hb]. destruct (whiteSpaceChars_width w "" Hw) as [_ L].
      apply (f_equal String.length) in Hb. rewrite string_app_length in Hb. cbn in Hb. lia.
    + exists post. split; [exact Hpost|]. split; [rewrite app_String, <- E; reflexivity|].
      intros w Hw [before Hb]. destruct before as [|d before].
      * cbn in Hb. assert (blank (String c s) = true) as B'; [|congruence].
        apply blank_whiteSpace. rewrite E, <- app_String, Hb.
        constructor; assumption.
      * rewrite app_String in Hb. injection Hb as _ Hb.
        apply (Hno w Hw). exists before. exact Hb.
Qed.

(** [trim] removes the white space of both ends, and all of it *)
Lemma trim_trimmed raw : trimmed raw (trim raw).
Proof.
  unfold trim.
  destruct (trimStart_spec raw) as (before & Hb & E1 & W).
  destruct (trimEnd_spec (trimStart raw)) as (after & Ha & E2 & Hno).
  split.
  - exists before, after. split; [exact Hb|]. split; [exact Ha|].
    rewrite <- E2. exact E1.
  - intros w Hw. split; [|apply Hno; exact Hw].
    intros [rest Hr]. apply (spaceWidth_none _ w W Hw).
    exists (rest ++ after)%string. rewrite E2 at 1. rewrite Hr, string_app_assoc.
    reflexivity.
Qed.

Lemma looksLikeRecord_begins l :
  looksLikeRecord l = true <-> beginsWith "{" l \/ beginsWith "[" l.
Proof.
  split.
  - destruct l as [|c l]; [discriminate|]. cbn [looksLikeRecord].
    rewrite orb_true_iff. intros [H|H]; apply Ascii.eqb_eq in H; subst c;
      [left|right]; exists l; reflexivity.
  - intros [[rest ->]|[rest ->]]; reflexivity.
Qed.

(** *** The lines *)

Lemma oneLine_nil : oneLine EmptyString.
Proof. intros [|a0 a] b H; discriminate. Qed.

Lemma oneLine_cons c l : c <> "010"%char -> oneLine l -> oneLine (String c l).
Proof.
  intros Hc Hl [|a0 a] b H.
  - cbn in H. injection H as H _. congruence.
  - rewrite app_String in H. injection H as _ H. exact (Hl a b H).
Qed.

Lemma splitLines_LF rest :
  splitLines (String "010" rest) = EmptyString :: splitLines rest.
Proof. reflexivity. Qed.

Lemma splitLines_CRLF rest :
  splitLines (String "013" (String "010" rest)) = EmptyString :: splitLines rest.
Proof. reflexivity. Qed.

Lemma splitLines_other c rest :
  c <> "010"%char ->
  (c = "013"%char -> forall r, rest <> String "010" r) ->
  splitLines (String c rest)
  = match splitLines rest with
    | l :: ls => String c l :: ls
    | [] => [String c EmptyString]
    end.
Proof.
  intros Hlf Hcr.
  destruct (Ascii.eqb_spec c "013"%char) as [->|NE].
  - destruct rest as [|d r]; [reflexivity|].
    destruct (Ascii.eqb_spec d "010"%char) as [->|NE];
      [exfalso; exact (Hcr eq_refl r eq_refl)|].
    destruct d as [[] [] [] [] [] [] [] []]; try reflexivity. congruence.
  - destruct c as [[] [] [] [] [] [] [] []]; try reflexivity; congruence.
Qed.

Lemma splitLines_nonempty s : splitLines s <> [].
Proof.
  induction s as [|c s IH]; [discriminate|].
  destruct (Ascii.eqb_spec c "010"%char) as [->|Hlf]; [discriminate|].
  destruct (Ascii.eqb_spec c "013"%char) as [->|Hcr].
  - destruct s as [|d r]; [discriminate|].
    destruct (Ascii.eqb_spec d "010"%char) as [->|Hd]; [discriminate|].
    rewrite splitLines_other by (try discriminate; intros _ r' E; congruence).
    destruct (splitLines (String d r)); discriminate.
  - rewrite splitLines_other by (try assumption; intros E; congruence).
    destruct (splitLines s); discriminate.
Qed.

(** a line that is not the line break's own grows by a character in front *)
Lemma splitsInto_cons c rest l ls :
  c <> "010"%char ->
  (c = "013"%char -> forall r, rest <> String "010" r) ->
  splitsInto rest (l :: ls) -> splitsInto (String c rest) (String c l :: ls).
Proof.
  intros Hlf Hcr H. inversion H as [l0 Hl|l0 r ls0 Hl Hend Hr|l0 r ls0 Hl Hr]; subst.
  - constructor. apply oneLine_cons; assumption.
  - rewrite <- app_String. constructor; [apply oneLine_cons; assumption| |exact Hr].
    intros [before Hb]. destruct before as [|d before].
    + cbn in Hb. injection Hb as -> ->. exact (Hcr eq_refl r eq_refl).
    + rewrite app_String in Hb. injection Hb as _ Hb. apply Hend. exists before. exact Hb.
  - rewrite <- app_String. constructor; [apply oneLine_cons; assumption|exact Hr].
Qed.

Lemma splitLines_splitsInto s : splitsInto s (splitLines s).
Proof.
  remember (String.length s) as n eqn:Hn. revert s Hn.
  induction n as [n IH] using lt_wf_ind. intros s Hn.
  destruct s as [|c s]; [constructor; apply oneLine_nil|].
  destruct (Ascii.eqb_spec c "010"%char) as [->|Hlf].
  - rewrite splitLines_LF.
    apply (splitsInto_LF EmptyString s);
      [apply oneLine_nil|intros [[|d b] Hb]; discriminate|].
    apply (IH (String.length s)); [subst n; cbn; lia|reflexivity].
  - destruct (Ascii.eqb_spec c "013"%char) as [->|Hcr].
    + destruct s as [|d r].
      * constructor. apply oneLine_cons; [discriminate|apply oneLine_nil].
      * destruct (Ascii.eqb_spec d "010"%char) as [->|Hd].
        -- rewrite splitLines_CRLF.
           apply (splitsInto_CRLF EmptyString r); [apply oneLine_nil|].
           apply (IH (String.length r)); [subst n; cbn; lia|reflexivity].
        -- assert (splitsInto (String d r) (splitLines (String d r))) as Hr
             by (apply (IH (String.length (String d r))); [subst n; cbn; lia|reflexivity]).
           rewrite splitLines_other by (try discriminate; intros _ r' E; congruence).
           pose proof (splitLines_nonempty (String d r)) as Hne.
           destruct (splitLines (String d r)) as [|l ls]; [congruence|].
           apply splitsInto_cons; [discriminate|intros _ r' E; congruence|exact Hr].
    + assert (splitsInto s (splitLines s)) as Hr
        by (apply (IH (String.length s)); [subst n; cbn; lia|reflexivity]).
      rewrite splitLines_other by (try assumption; intros E; congruence).
      pose proof (splitLines_nonempty s) as Hne.
      destruct (splitLines s) as [|l ls]; [congruence|].
      apply splitsInto_cons; [assumption|intros E; congruence|exact Hr].
Qed.
End WhiteSpace.

(** * The stated properties *)

(** ** Data for the worked examples, run on the reference runtime *)

(** an observation [i] hours before 1700000000, at latitude 10, 0.4566
    degrees of longitude further west per hour: the object heads east at
    50.0003 km per hour *)
Definition moverAt (i : nat) : Observation.t :=
  Observation.mk (1700000000 - Number_of_nat i * 3600) 10
    (20 - Number_of_nat i * 0x1.d38ef34d6a162p-2) None.

(** five hours of the mover, oldest first *)
Definition moverFiveHours : list Observation.t :=
  [moverAt 4; moverAt 3; moverAt 2; moverAt 1; moverAt 0].

(** a second object that keeps half a degree north of the mover *)
Definition driftAt (i : nat) : Observation.t :=
  Observation.mk (1700000000 - Number_of_nat i * 3600) 10.5
    (20 - Number_of_nat i * 0x1.d38ef34d6a162p-2) None.

Section StatedLinker.
Context {RT : Runtime}.
Import Balloons Geo FloatFacts.

End StatedLinker.




(** C1, as worded: the gates do not hold of every link.  Two observations
    whose timestamps are both [+Infinity] - a payload may say ["ts": 1e999] -
    have a time delta that is NaN, which neither test of the inner loop
    rejects: the second is appended to the track of the first, 14409 km
    away. *)
Definition quoted (s : string) : string := SafeJson.dquote ++ s ++ SafeJson.dquote.



Section StatedGap.
Context {RT : Runtime}.
Import Balloons Geo FloatFacts.

Lemma passes_7200 p lastp :
  Observation.ts p - TrackPoint.ts lastp = 7200 -> passes p lastp = false.
Proof. intros H. unfold passes. cbv zeta. rewrite H. reflexivity. Qed.

Lemma pushPoint_changes p tr : pushPoint p tr <> tr.
Proof.
  intros E. apply (f_equal (fun t => length (Track.points t))) in E.
  unfold pushPoint in E. cbn [Track.points] in E. rewrite length_app in E. cbn in E. lia.
Qed.

Lemma pushPoint_inj p q tr : pushPoint p tr = pushPoint q tr -> p = q.
Proof.
  unfold pushPoint. intros E. injection E as E. apply app_inv_head in E.
  assert (withId p (Track.id tr) = withId q (Track.id tr)) as E' by congruence.
  apply (f_equal observationOf) in E'. rewrite !observationOf_withId in E'. exact E'.
Qed.

(** C4. A missing hour is not bridged.  In a pass of the loop over the
    hours, an open track whose last point lies 7200 seconds before every
    observation of the hour is left as it is, and an observation 7200
    seconds after the last point of a track is never appended to that
    track.  The observation begins a new track when, besides, no other open
    track passes both tests of the inner loop for it. *)
Theorem gap_hour_starts_new_tracks hourly pts :
  (forall j tr lastp,
     tracks (linkAll hourly) !! j = Some tr -> last (Track.points tr) = Some lastp ->
     (forall p, p ∈ pts -> Observation.ts p - TrackPoint.ts lastp = 7200) ->
     tracks (linkAll (pts :: hourly)) !! j = Some tr)
  /\
  (forall j tr lastp p,
     tracks (linkAll hourly) !! j = Some tr -> last (Track.points tr) = Some lastp ->
     Observation.ts p - TrackPoint.ts lastp = 7200 ->
     tracks (linkAll (pts :: hourly)) !! j <> Some (pushPoint p tr))
  /\
  (forall i p,
     pts !! i = Some p ->
     (forall tr lastp,
        tr ∈ tracks (linkAll hourly) -> last (Track.points tr) = Some lastp ->
        Observation.ts p - TrackPoint.ts lastp = 7200 \/ passes p lastp = false) ->
     exists n,
       (length (tracks (linkAll hourly)) < n)%nat /\
       Track.mk (trackName n) [withId p (trackName n)] ∈ tracks (linkAll (pts :: hourly))).
Proof.
  destruct (linkHour_links (linkAll hourly) pts (linkAll_ids_distinct hourly))
    as (link & trs & (Hlen & (Hl & Hfollow) & Hchoice & Hnone) & Htracks).
  assert (tracks (linkAll (pts :: hourly))
          = trs ++ imap (freshTrack (nextId (linkAll hourly))) (unlinked pts link)) as E.
  { rewrite <- Htracks. unfold linkAll. cbn [rev]. rewrite fold_left_app. reflexivity. }
  assert (forall j tr, tracks (linkAll hourly) !! j = Some tr ->
            tracks (linkAll (pts :: hourly)) !! j = trs !! j) as Hkeep.
  { intros j tr Hj. rewrite E. apply lookup_app_l. rewrite Hl.
    apply lookup_lt_Some in Hj. exact Hj. }
  assert (forall i p j tr lastp,
            pts !! i = Some p -> link !! i = Some (Some j) ->
            tracks (linkAll hourly) !! j = Some tr -> last (Track.points tr) = Some lastp ->
            passes p lastp = true) as Hpass.
  { intros i p j tr lastp Hp Hi Hj Hlast.
    destruct (Hchoice i p j Hp Hi) as (tr' & lastp' & Hj' & Hlast' & Hpass & _).
    congruence. }
  split; [|split].
  - intros j tr lastp Hj Hlast Hgap. rewrite (Hkeep j tr Hj).
    destruct (Hfollow j tr Hj) as [[_ Hsame]|(i & p & Hi & Hp & _)]; [exact Hsame|].
    pose proof (Hpass i p j tr lastp Hp Hi Hj Hlast) as X.
    rewrite (passes_7200 p lastp) in X; [discriminate|].
    apply Hgap. eapply list_elem_of_lookup_2. exact Hp.
  - intros j tr lastp p Hj Hlast Hgap. rewrite (Hkeep j tr Hj).
    destruct (Hfollow j tr Hj) as [[_ Hsame]|(i & q & Hi & Hq & Hpush & _)].
    + rewrite Hsame. intros H.
      assert (pushPoint p tr = tr) as H' by congruence.
      exact (pushPoint_changes p tr H').
    + rewrite Hpush. intros H.
      assert (pushPoint q tr = pushPoint p tr) as H' by congruence.
      apply pushPoint_inj in H'. subst q.
      pose proof (Hpass i p j tr lastp Hq Hi Hj Hlast) as X.
      rewrite (passes_7200 p lastp Hgap) in X. discriminate.
  - intros i p Hp Hgap.
    destruct (link !! i) as [[j|]|] eqn:Hi.
    + destruct (Hchoice i p j Hp Hi) as (tr & lastp & Hj & Hlast & Hpass' & _).
      destruct (Hgap tr lastp (list_elem_of_lookup_2 _ _ _ Hj) Hlast) as [H|H].
      * rewrite (passes_7200 p lastp H) in Hpass'. discriminate.
      * congruence.
    + pose proof (elem_of_unlinked pts link i p Hp Hi) as Hin.
      apply list_elem_of_lookup_1 in Hin as [k Hk].
      exists (nextId (linkAll hourly) + k)%nat. split.
      * destruct (named_linkAll hourly) as [Hn _]. lia.
      * rewrite E. apply elem_of_app. right.
        apply (elem_of_lookup_imap_2 (freshTrack (nextId (linkAll hourly))) _ p k Hk).
    + apply lookup_ge_None in Hi. apply lookup_lt_Some in Hp. lia.
Qed.
End StatedGap.

(** the mover with hour 2 missing: the track of hours 4 and 3 is left as
    it is, and the observation of hour 1 begins the track [T2] *)
Lemma gap_hour_starts_new_tracks_witness :
  Balloons.tracks (Balloons.linkAll (RT := referenceRuntime)
                     [[moverAt 1]; [moverAt 3]; [moverAt 4]]) !! 0%nat
  = Some (Track.mk "T1" [Balloons.withId (moverAt 4) "T1"; Balloons.withId (moverAt 3) "T1"])
  /\
  (exists n,
     (1 < n)%nat /\
     Track.mk (Balloons.trackName n) [Balloons.withId (moverAt 1) (Balloons.trackName n)]
     ∈ Balloons.tracks (Balloons.linkAll (RT := referenceRuntime)
                          [[moverAt 1]; [moverAt 3]; [moverAt 4]]))
  /\
  Balloons.linkTracks (RT := referenceRuntime)
    [[moverAt 0]; [moverAt 1]; []; [moverAt 3]; [moverAt 4]]
  = [Track.mk "T1" [Balloons.withId (moverAt 4) "T1"; Balloons.withId (moverAt 3) "T1"];
     Track.mk "T2" [Balloons.withId (moverAt 1) "T2"; Balloons.withId (moverAt 0) "T2"]].
Proof.
  destruct (gap_hour_starts_new_tracks (RT := referenceRuntime)
              [[moverAt 3]; [moverAt 4]] [moverAt 1]) as (Hkept & _ & Hnew).
  split; [|split; [|vm_compute; reflexivity]].
  - apply (Hkept 0%nat _ (Balloons.withId (moverAt 3) "T1")).
    + vm_compute. reflexivity.
    + reflexivity.
    + intros p Hp. apply list_elem_of_singleton in Hp. subst p. vm_compute. reflexivity.
  - apply (Hnew 0%nat (moverAt 1)); [reflexivity|].
    intros tr lastp Htr Hlast. left.
    assert (tr = Track.mk "T1" [Balloons.withId (moverAt 4) "T1";
                                Balloons.withId (moverAt 3) "T1"]) as ->.
    { vm_compute in Htr. apply list_elem_of_singleton in Htr. exact Htr. }
    injection Hlast as <-. vm_compute. reflexivity.
Defined.

(** C4, as worded: the post-gap observation does not always begin a new
    track.  The mover is missing at hour 2, while the second object, 55 km
    away, is seen every hour: at hour 1 the mover's observation is 7200
    seconds after the last point of its own track and passes both tests for
    the track of the second object, which it joins; it is the observation
    of the second object that begins a track. *)
Lemma gap_observation_joins_neighbour :
  Balloons.tracks (Balloons.linkAll (RT := referenceRuntime)
                     [[moverAt 1; driftAt 1]; [driftAt 2]; [moverAt 3; driftAt 3]])
  = [Track.mk "T1" [Balloons.withId (moverAt 3) "T1"];
     Track.mk "T2" [Balloons.withId (driftAt 3) "T2"; Balloons.withId (driftAt 2) "T2";
                    Balloons.withId (moverAt 1) "T2"];
     Track.mk "T3" [Balloons.withId (driftAt 1) "T3"]]
  /\
  Observation.ts (moverAt 1) - Observation.ts (moverAt 3) = 7200
  /\
  Forall (fun tr => head (Track.points tr) <> Some (Balloons.withId (moverAt 1) (Track.id tr)))
    (Balloons.tracks (Balloons.linkAll (RT := referenceRuntime)
                        [[moverAt 1; driftAt 1]; [driftAt 2]; [moverAt 3; driftAt 3]])).
Proof.
  assert (Balloons.tracks (Balloons.linkAll (RT := referenceRuntime)
                     [[moverAt 1; driftAt 1]; [driftAt 2]; [moverAt 3; driftAt 3]])
          = [Track.mk "T1" [Balloons.withId (moverAt 3) "T1"];
             Track.mk "T2" [Balloons.withId (driftAt 3) "T2"; Balloons.withId (driftAt 2) "T2";
                            Balloons.withId (moverAt 1) "T2"];
             Track.mk "T3" [Balloons.withId (driftAt 1) "T3"]]) as E
    by (vm_compute; reflexivity).
  split; [exact E|]. split; [vm_compute; reflexivity|].
  rewrite E.
  repeat constructor; cbn [head Track.points Track.id]; intros H;
    apply (f_equal (fun o => match o with
                             | Some q => (TrackPoint.lat q <? 10.25)
                                         && (1699995000 <? TrackPoint.ts q)
                             | None => false
                             end)) in H;
    vm_compute in H; discriminate.
Qed.

Section StatedInvariants.
Context {RT : Runtime}.
Import Balloons Geo FloatFacts.

(** the fields the deduplication key is made of *)
Definition sameKeyFields (p q : TrackPoint.t) : Prop :=
  TrackPoint.id p = TrackPoint.id q /\ TrackPoint.ts p = TrackPoint.ts q /\
  Number_toFixed (TrackPoint.lat p) 5 = Number_toFixed (TrackPoint.lat q) 5 /\
  Number_toFixed (TrackPoint.lon p) 5 = Number_toFixed (TrackPoint.lon q) 5.

(** no two positions hold points with the same key fields *)
Definition deduplicated (pts : list TrackPoint.t) : Prop :=
  forall i j p q, pts !! i = Some p -> pts !! j = Some q -> sameKeyFields p q -> i = j.

Lemma NoDup_keys_deduplicated pts : NoDup (pointKey <$> pts) -> deduplicated pts.
Proof.
  intros Hnd i j p q Hi Hj (E1 & E2 & E3 & E4).
  eapply (NoDup_lookup _ i j (pointKey p)); [exact Hnd| |].
  - rewrite list_lookup_fmap, Hi. reflexivity.
  - rewrite list_lookup_fmap, Hj. unfold pointKey. rewrite E1, E2, E3, E4. reflexivity.
Qed.

(** C3. Every track a reconstruction run exposes has its points sorted
    strictly ascending by timestamp, deduplicated on (id, ts, lat and lon
    rounded to five decimals), all of finite lat, lon and ts, and at least
    two of them.  A run is [GET] with clock readings that are numbers, on
    bodies whose parsed values hold no NaN (JSON has no literal for it). *)
Theorem exposed_tracks_invariants clock fetchText :
  (forall idx, (idx < 24)%nat -> is_nan (clock idx) = false) ->
  (forall idx txt v, (idx < 24)%nat -> fetchText idx = Some txt ->
      SafeJson.safeParseJSON txt = Some v -> jsonClean v) ->
  forall tr, tr ∈ GET clock fetchText ->
    ascending (Track.points tr) /\
    deduplicated (Track.points tr) /\
    Forall (fun p => is_finite (TrackPoint.lat p) = true /\
                     is_finite (TrackPoint.lon p) = true /\
                     is_finite (TrackPoint.ts p) = true) (Track.points tr) /\
    (2 <= length (Track.points tr))%nat.
Proof.
  intros Hnow Hparse tr Htr. rewrite GET_unfold in Htr.
  pose proof (collectHourly_clean clock fetchText Hnow Hparse) as Hclean.
  destruct (linkTracks_invariants (collectHourly clock fetchText) Hclean tr Htr)
    as (Hasc & Hnd & Hfin & Hlen).
  split; [exact Hasc|]. split; [apply NoDup_keys_deduplicated; exact Hnd|].
  split; [|exact Hlen].
  eapply Forall_impl; [exact Hfin|].
  intros p Hp. unfold pointFinite, isFinite in Hp.
  apply andb_prop in Hp as [Hp H3]. apply andb_prop in Hp as [H1 H2]. auto.
Qed.
End StatedInvariants.

(** three hours of two balloons, as arrays of rows *)
Definition threeHours (idx : nat) : option string :=
  match idx with
  | 0%nat => Some "[[10, 20.0], [-33.5, 151.2, 18000]]"
  | 1%nat => Some "[[10, 19.55], [-33.5, 150.9, 18100]]"
  | 2%nat => Some "[[10, 19.1], [-33.5, 150.6, 18200], [10, 19.1]]"
  | _ => None
  end.

(** [Date.now()] as the hours are extracted: the second changes after the
    first two *)
Definition tickingClock (idx : nat) : float :=
  if Nat.ltb idx 2 then 1700000000999 else 1700000001000.

Lemma exposed_tracks_invariants_witness :
  length (Balloons.GET (RT := referenceRuntime) tickingClock threeHours) = 2%nat /\
  forall tr, tr ∈ Balloons.GET (RT := referenceRuntime) tickingClock threeHours ->
    ascending (Track.points tr) /\
    deduplicated (RT := referenceRuntime) (Track.points tr) /\
    Forall (fun p => is_finite (TrackPoint.lat p) = true /\
                     is_finite (TrackPoint.lon p) = true /\
                     is_finite (TrackPoint.ts p) = true) (Track.points tr) /\
    (2 <= length (Track.points tr))%nat.
Proof.
  split; [vm_compute; reflexivity|].
  apply (exposed_tracks_invariants (RT := referenceRuntime)).
  - intros idx _. unfold tickingClock. destruct (Nat.ltb idx 2); reflexivity.
  - intros idx txt v _ Hf Hp.
    destruct idx as [|[|[|idx]]]; simpl in Hf; try discriminate;
      injection Hf as <-; vm_compute in Hp; injection Hp as <-;
      vm_compute; auto 20.
Defined.

Section StatedProximity.
Context {RT : Runtime}.
Import Insights FloatFacts FloatZero.

(** the least distance of a list of pairs, in the words of the
    specification; [infinity] when there is none *)
Definition minimumKm (ps : list (TrackPoint.t * LatLon.t)) : float :=
  foldr (fun pf m => if pairKm pf <? m then pairKm pf else m) infinity ps.

(** Two places with the same finite coordinates are at distance zero,
    when the runtime has the sine, the arcsine and the square of +0 equal
    to +0, as ECMAScript requires, and a cosine of the latitude that does
    not exceed 1 in magnitude. *)
Lemma haversineKm_same a b :
  LatLon.lat b = LatLon.lat a -> LatLon.lon b = LatLon.lon a ->
  is_finite (LatLon.lat a) = true -> is_finite (LatLon.lon a) = true ->
  Math_sin 0 = 0 -> Math_asin 0 = 0 -> Math_pow 0 2 = 0 ->
  (abs (Math_cos (LatLon.lat a * Math_PI / 180)) <=? 1) = true ->
  Geo.haversineKm a b = 0.
Proof.
  intros Hlat Hlon Flat Flon Hsin Hasin Hpow Hcos.
  unfold Geo.haversineKm. cbv zeta. rewrite Hlat, Hlon, (sub_self _ Flat), (sub_self _ Flon).
  change (0 * Math_PI / 180 / 2) with 0. rewrite Hsin, Hpow.
  rewrite (zero_absorbs _ _ Hcos Hcos).
  change (Math_sqrt 0) with 0. rewrite Hasin. reflexivity.
Qed.

(** C2. For every track and event list the stat of the track has
    [near_count] the number of pairs of the cartesian product of the
    track's points and the events at distance at most the threshold of 100
    km, each pair counted.  When a pair is at a distance below infinity,
    [closest_km] is the least distance over the product, rounded to one
    decimal ([Math.round(minKm * 10) / 10]), and [closest_ts] the timestamp
    of the track point of a pair at that least distance: no pair is closer,
    and the pair is at most as far as every pair whose distance is a number.
    A track of one point at the place of the one event gives
    [closest_km = 0] and [near_count = 1]. *)
Theorem proximity_stat_spec firePts t :
  near_count (stat firePts t) = length (List.filter near (pairs (Track.points t) firePts))
  /\
  ((exists pf, pf ∈ pairs (Track.points t) firePts /\ (pairKm pf <? infinity) = true) ->
   exists p f,
     (p, f) ∈ pairs (Track.points t) firePts /\
     (forall pf', pf' ∈ pairs (Track.points t) firePts ->
                  (pairKm pf' <? pairKm (p, f)) = false) /\
     (forall pf', pf' ∈ pairs (Track.points t) firePts -> is_nan (pairKm pf') = false ->
                  (pairKm (p, f) <=? pairKm pf') = true) /\
     closest_km (stat firePts t) = Math_round (pairKm (p, f) * 10) / 10 /\
     closest_ts (stat firePts t) = Some (TrackPoint.ts p))
  /\
  (forall p f,
     Track.points t = [p] -> firePts = [f] ->
     LatLon.lat f = TrackPoint.lat p -> LatLon.lon f = TrackPoint.lon p ->
     is_finite (TrackPoint.lat p) = true -> is_finite (TrackPoint.lon p) = true ->
     Math_sin 0 = 0 -> Math_asin 0 = 0 -> Math_pow 0 2 = 0 ->
     (abs (Math_cos (TrackPoint.lat p * Math_PI / 180)) <=? 1) = true ->
     closest_km (stat firePts t) = 0 /\ near_count (stat firePts t) = 1%nat /\
     closest_ts (stat firePts t) = Some (TrackPoint.ts p)).
Proof.
  split; [|split].
  - unfold stat. cbn [near_count]. rewrite scan_pairs, fold_nearCount. reflexivity.
  - intros (pf0 & Hin0 & Hfin0). unfold stat. cbn [closest_km closest_ts].
    rewrite scan_pairs.
    destruct (fold_min (pairs (Track.points t) firePts)
                {| minKm := infinity; minWhen := None; nearCount := 0 |})
      as [(_ & _ & A)|(pf & Hin & E1 & E2 & Hlt & A)]; cbn [minKm] in *.
    + rewrite (A pf0 Hin0) in Hfin0. discriminate.
    + destruct pf as [p f]. exists p, f. split; [exact Hin|]. split; [exact A|].
      split; [|rewrite E1, E2; split; reflexivity].
      intros pf' Hpf' Hnan. apply ltb_false_leb.
      * exact Hnan.
      * apply (ltb_nonnan _ _ Hlt).
      * apply A. exact Hpf'.
  - intros p f Hp Hf Hlat Hlon Flat Flon Hsin Hasin Hpow Hcos.
    assert (pairKm (p, f) = 0) as Hz.
    { unfold pairKm. cbn [fst snd].
      apply haversineKm_same; cbn [LatLon.lat LatLon.lon]; assumption. }
    unfold stat. rewrite scan_pairs, Hp, Hf.
    cbn [pairs flat_map List.map app fold_left closest_km near_count closest_ts].
    pose proof (visitPair_min {| minKm := infinity; minWhen := None; nearCount := 0 |}
                  (p, f)) as Hm.
    pose proof (visitPair_nearCount
                  {| minKm := infinity; minWhen := None; nearCount := 0 |} (p, f)) as Hn.
    unfold near in Hn. rewrite Hz in Hm, Hn. cbn [minKm nearCount] in Hm, Hn.
    change (0 <? infinity) with true in Hm. change (0 <=? PROX_KM) with true in Hn.
    cbv iota in Hm, Hn. injection Hm as E1 E2. rewrite E1, E2, Hn.
    repeat split; reflexivity.
Qed.
End StatedProximity.

(** a balloon seen twice on the equator, and two fires; a balloon seen
    once, at the place of a fire *)
Definition equatorTrack : Track.t :=
  Track.mk "T1" [TrackPoint.mk "T1" 1700000000 0 0 None;
                 TrackPoint.mk "T1" 1700003600 0 0.5 None].

Definition twoFires : list LatLon.t := [LatLon.mk 0 1; LatLon.mk 0 0.5].

Definition sydneyTrack : Track.t :=
  Track.mk "T2" [TrackPoint.mk "T2" 1700000000 (-33.5) 151.25 None].

Lemma proximity_stat_spec_witness :
  Insights.near_count (Insights.stat (RT := referenceRuntime) twoFires equatorTrack) = 3%nat /\
  Insights.closest_km (Insights.stat (RT := referenceRuntime) twoFires equatorTrack) = 0 /\
  Insights.closest_ts (Insights.stat (RT := referenceRuntime) twoFires equatorTrack)
  = Some 1700003600 /\
  (exists p f,
     (p, f) ∈ pairs (Track.points equatorTrack) twoFires /\
     Insights.closest_km (Insights.stat (RT := referenceRuntime) twoFires equatorTrack)
     = Math_round (pairKm (RT := referenceRuntime) (p, f) * 10) / 10) /\
  Insights.closest_km
    (Insights.stat (RT := referenceRuntime) [LatLon.mk (-33.5) 151.25] sydneyTrack) = 0 /\
  Insights.near_count
    (Insights.stat (RT := referenceRuntime) [LatLon.mk (-33.5) 151.25] sydneyTrack) = 1%nat.
Proof.
  split; [vm_compute; reflexivity|]. split; [vm_compute; reflexivity|].
  split; [vm_compute; reflexivity|].
  destruct (proximity_stat_spec (RT := referenceRuntime) twoFires equatorTrack)
    as (_ & Hgen & _).
  destruct (proximity_stat_spec (RT := referenceRuntime) [LatLon.mk (-33.5) 151.25]
              sydneyTrack) as (_ & _ & Hsame).
  split.
  - destruct Hgen as (p & f & Hin & _ & _ & Hkm & _).
    + exists (TrackPoint.mk "T1" 1700000000 0 0 None, LatLon.mk 0 1).
      split; [left|vm_compute; reflexivity].
    + exists p, f. split; assumption.
  - assert (Insights.closest_km
              (Insights.stat (RT := referenceRuntime) [LatLon.mk (-33.5) 151.25] sydneyTrack) = 0
            /\ Insights.near_count
                 (Insights.stat (RT := referenceRuntime) [LatLon.mk (-33.5) 151.25] sydneyTrack)
               = 1%nat
            /\ Insights.closest_ts
                 (Insights.stat (RT := referenceRuntime) [LatLon.mk (-33.5) 151.25] sydneyTrack)
               = Some 1700000000) as (Hkm & Hn & _).
    { apply (Hsame (TrackPoint.mk "T2" 1700000000 (-33.5) 151.25 None)
               (LatLon.mk (-33.5) 151.25)); vm_compute; reflexivity. }
    split; assumption.
Defined.

(** C2, as worded: the closest distance returned is not the least distance
    itself.  One degree of longitude on the equator is 111.19... km, and
    the stat holds 111.2. *)
Lemma closest_km_is_rounded :
  let t := Track.mk "T1" [TrackPoint.mk "T1" 1700000000 0 0 None] in
  let fires := [LatLon.mk 0 1] in
  Insights.closest_km (Insights.stat (RT := referenceRuntime) fires t)
  <> minimumKm (RT := referenceRuntime) (pairs (Track.points t) fires)
  /\ (minimumKm (RT := referenceRuntime) (pairs (Track.points t) fires)
      <? Insights.closest_km (Insights.stat (RT := referenceRuntime) fires t)) = true.
Proof.
  cbv zeta. split; [|vm_compute; reflexivity].
  intros H.
  apply (f_equal (fun x => x <? 111.1953125)) in H. vm_compute in H. discriminate.
Qed.

Section StatedSentinel.
Context {RT : Runtime}.
Import Insights FloatFacts.

(** C5. A track with no points, or an empty event list, yields the
    sentinel [closest_km = +infinity], [near_count = 0], [closest_ts]
    undefined, and the stat returned for the track holds it: the rounding
    leaves infinity as it is, it is not turned into zero. *)
Theorem proximity_sentinel balloons fires t :
  t ∈ default [] balloons ->
  Track.points t = [] \/ default [] fires = [] ->
  stat (default [] fires) t ∈ GET balloons fires /\
  closest_km (stat (default [] fires) t) = infinity /\
  near_count (stat (default [] fires) t) = 0%nat /\
  closest_ts (stat (default [] fires) t) = None /\
  (closest_km (stat (default [] fires) t) =? 0) = false.
Proof.
  intros Ht Hempty. split; [apply stat_in_GET; exact Ht|].
  unfold stat. rewrite (scan_empty _ _ Hempty).
  cbn [minKm minWhen nearCount closest_km near_count closest_ts].
  repeat split; reflexivity.
Qed.
End StatedSentinel.

Lemma proximity_sentinel_witness :
  Insights.GET (RT := referenceRuntime) (Some [equatorTrack]) None
  = [{| Insights.id := "T1"; Insights.closest_km := infinity;
        Insights.near_count := 0; Insights.closest_ts := None |}].
Proof.
  destruct (proximity_sentinel (RT := referenceRuntime) (Some [equatorTrack]) None
              equatorTrack) as (Hin & Hkm & Hn & Hts & _).
  - left.
  - right. reflexivity.
  - vm_compute. reflexivity.
Defined.

Section StatedReconstruction.
Context {RT : Runtime}.
Import Balloons.

(** the ways the hour of a request comes to nothing: no response (network
    error, time-out), a status that is not a success, a body that cannot be
    read, a body no recovery stage parses, a parsed value that is falsy,
    an extraction that raises *)
Definition failedHour (clock : nat -> float) (net : string -> Handler.Exchange)
    (idx : nat) : Prop :=
  net (Handler.url idx) = Handler.NoResponse
  \/ (exists body, net (Handler.url idx) = Handler.Response false body)
  \/ net (Handler.url idx) = Handler.Response true None
  \/ (exists body, net (Handler.url idx) = Handler.Response true (Some body) /\
        (SafeJson.safeParseJSON body = None
         \/ exists value, SafeJson.safeParseJSON body = Some value /\
              (truthy value = false
               \/ extractHourPoints (clock idx) value idx = None))).

(** C6. The reconstruction call does not fail on fetch failures.  Whatever
    becomes of the 24 requests, the call is fulfilled, with the tracks
    [linkTracks] makes of 24 hourly lists: the list of an hour whose request
    failed in any way, or whose body no stage parses, or whose extraction
    raises, is empty; the list of an hour that answered with a body that
    parses is the observations extracted from it, whatever became of the
    other hours.  When all 24 hours fail the call is fulfilled with the
    empty track set.  Every combination of 24 outcomes is what some network
    does. *)
Theorem reconstruction_never_fails clock net :
  (exists hourly,
     Handler.GET clock net = Handler.Fulfilled (linkTracks hourly) /\
     length hourly = 24%nat /\
     (forall idx, (idx < 24)%nat -> failedHour clock net idx -> hourly !! idx = Some []) /\
     (forall idx body value pts, (idx < 24)%nat ->
        net (Handler.url idx) = Handler.Response true (Some body) ->
        SafeJson.safeParseJSON body = Some value -> truthy value = true ->
        extractHourPoints (clock idx) value idx = Some pts ->
        hourly !! idx = Some pts)) /\
  ((forall idx, (idx < 24)%nat -> failedHour clock net idx) ->
   Handler.GET clock net = Handler.Fulfilled []) /\
  (forall outcomes : nat -> Handler.Exchange,
     forall idx, (idx < 24)%nat -> serving outcomes (Handler.url idx) = outcomes idx).
Proof.
  assert (forall idx, failedHour clock net idx ->
            hourPoints (clock idx) idx (bodyOf net idx) = []) as Hfail.
  { intros idx [E|[(b & E)|[E|(b & E & [P|(v & P & [T|X])])]]];
      unfold bodyOf, hourPoints; rewrite E.
    - reflexivity.
    - reflexivity.
    - reflexivity.
    - rewrite P. reflexivity.
    - rewrite P, T. reflexivity.
    - rewrite P, X. destruct (truthy v); reflexivity. }
  split; [|split].
  - exists (collectHourly clock (bodyOf net)).
    split; [rewrite Handler_GET_tracks, GET_unfold; reflexivity|].
    split; [unfold collectHourly; rewrite length_map, length_seq; reflexivity|].
    split.
    + intros idx Hidx F. rewrite collectHourly_lookup by exact Hidx.
      rewrite (Hfail idx F). reflexivity.
    + intros idx body value pts Hidx E P T X.
      rewrite collectHourly_lookup by exact Hidx.
      unfold bodyOf, hourPoints. rewrite E, P, T, X. reflexivity.
  - intros F. rewrite Handler_GET_tracks, GET_unfold, linkTracks_all_empty; [reflexivity|].
    unfold collectHourly. rewrite Forall_forall.
    intros pts Hin. apply list_elem_of_In, in_map_iff in Hin as (idx & <- & Hidx).
    apply in_seq in Hidx. apply Hfail, F. lia.
  - intros outcomes idx Hidx. exact (serving_url outcomes idx Hidx).
Qed.
End StatedReconstruction.

(** every request fails; and a day on which three hours answer, while the
    others meet a gateway's error page, a page sent in place of the data,
    a record whose latitude cannot be converted to a number, a body that
    breaks off, and no response at all *)
Definition allFail (idx : nat) : Handler.Exchange := Handler.NoResponse.

Definition troubledDay (idx : nat) : Handler.Exchange :=
  match idx with
  | 3%nat => Handler.Response false (Some "<html>502 Bad Gateway</html>")
  | 4%nat => Handler.Response true (Some "<html>maintenance</html>")
  | 5%nat => Handler.Response true
               (Some ("[{" ++ quoted "lat" ++ ": {" ++ quoted "toString" ++ ": 0}, "
                      ++ quoted "lon" ++ ": 1}]")%string)
  | 6%nat => Handler.Response true None
  | _ => match threeHours idx with
         | Some body => Handler.Response true (Some body)
         | None => Handler.NoResponse
         end
  end.

Lemma reconstruction_never_fails_witness :
  Handler.GET (RT := referenceRuntime) tickingClock (serving allFail) = Handler.Fulfilled [] /\
  (exists tracks,
     Handler.GET (RT := referenceRuntime) tickingClock (serving troubledDay)
     = Handler.Fulfilled tracks /\
     length tracks = 2%nat /\
     Forall (fun t => length (Track.points t) = 3%nat) tracks) /\
  (exists hourly,
     Handler.GET (RT := referenceRuntime) tickingClock (serving troubledDay)
     = Handler.Fulfilled (Balloons.linkTracks (RT := referenceRuntime) hourly) /\
     length <$> hourly
     = [2; 2; 3; 0; 0; 0; 0; 0; 0; 0; 0; 0; 0; 0; 0; 0; 0; 0; 0; 0; 0; 0; 0; 0]%nat).
Proof.
  destruct (reconstruction_never_fails (RT := referenceRuntime) tickingClock
              (serving allFail)) as (_ & Hall & _).
  destruct (reconstruction_never_fails (RT := referenceRuntime) tickingClock
              (serving troubledDay)) as ((hourly & HG & Hlen & Hfail & Hok) & _ & _).
  split; [apply Hall; intros idx Hidx; left; apply serving_url; exact Hidx|].
  split; [eexists; split; [vm_compute; reflexivity|split; [reflexivity|repeat constructor]]|].
  exists hourly. split; [exact HG|].
  assert (forall idx, (idx < 24)%nat -> (3 <= idx)%nat ->
            failedHour (RT := referenceRuntime) tickingClock (serving troubledDay) idx)
    as F.
  { intros idx Hlt Hge. unfold failedHour. rewrite serving_url by exact Hlt.
    destruct idx as [|[|[|[|[|[|[|idx]]]]]]]; try lia.
    - right; left. eexists. reflexivity.
    - right; right; right. eexists. split; [reflexivity|]. left. vm_compute. reflexivity.
    - right; right; right. eexists. split; [reflexivity|]. right.
      eexists. split; [vm_compute; reflexivity|]. right. vm_compute. reflexivity.
    - right; right; left. reflexivity.
    - left. reflexivity. }
  apply list_eq. intros idx. rewrite list_lookup_fmap.
  destruct (Nat.lt_ge_cases idx 24) as [Hlt|Hge].
  - destruct (Nat.lt_ge_cases idx 3) as [Hs|Hb].
    + destruct idx as [|[|[|idx]]]; try lia.
      * erewrite (Hok 0%nat); cycle 1;
          [lia|reflexivity|vm_compute; reflexivity|reflexivity|vm_compute; reflexivity
          |reflexivity].
      * erewrite (Hok 1%nat); cycle 1;
          [lia|reflexivity|vm_compute; reflexivity|reflexivity|vm_compute; reflexivity
          |reflexivity].
      * erewrite (Hok 2%nat); cycle 1;
          [lia|reflexivity|vm_compute; reflexivity|reflexivity|vm_compute; reflexivity
          |reflexivity].
    + rewrite (Hfail idx Hlt (F idx Hlt Hb)).
      do 24 (destruct idx as [|idx]; [try lia; reflexivity|]). lia.
  - rewrite lookup_ge_None_2 by lia.
    rewrite lookup_ge_None_2; [reflexivity|]. cbn. exact Hge.
Defined.

Section StatedRecords.
Context {RT : Runtime}.
Import Balloons FloatFacts.

End StatedRecords.

(** a record without longitude between two good ones; a row whose latitude
    is not a number between two good ones; a record whose latitude is an
    object with a property [toString] *)
Definition recordNorth : json := JObj [("lat", JNum 10); ("lon", JNum 20)].
Definition recordNoLon : json := JObj [("lat", JNum 11); ("alt", JNum 18000)].
Definition recordOddLat : json :=
  JObj [("lat", JObj [("toString", JNum 0)]); ("lon", JNum 21)].




Section StatedTimestamps.
Context {RT : Runtime}.
Import Balloons FloatFacts.

(** C10. For a payload that is an array whose first entry is an array
    (rows of coordinates) or of object type (key-value records), every
    extracted observation carries the same timestamp, that of the hour,
    [floor(now / 1000) - hourIdx * 3600], whatever timestamp fields the
    payload holds.  A timestamp of the payload is honoured in the recursive
    walk alone: there an object with finite coordinates and a readable
    timestamp field yields an observation at that timestamp, and every
    observation has the timestamp of the hour or the one read from the
    object it comes from.  The extraction returns whenever no conversion
    of an entry raises. *)
Theorem array_payload_timestamps_ignored now idx :
  (forall first rest pts,
     isArray first || isObjectType first = true ->
     extractHourPoints now (JArr (first :: rest)) idx = Some pts ->
     Forall (fun o => Observation.ts o = toEpochSecondsFromHourIdx now idx) pts)
  /\
  (forall payload pts,
     caseOf payload = CaseC ->
     extractHourPoints now payload idx = Some pts ->
     (forall r t,
        r ∈ objectsIn payload -> usableNested r = true ->
        toEpochSeconds (timestampOf r) = Some t ->
        exists o, o ∈ pts /\ Observation.ts o = t /\
                  Observation.lat o = numberOf (nestedLatitudeOf r) /\
                  Observation.lon o = numberOf (nestedLongitudeOf r)) /\
     (forall o, o ∈ pts ->
        exists r, r ∈ objectsIn payload /\
          Observation.ts o
          = match toEpochSeconds (timestampOf r) with
            | Some t => t
            | None => toEpochSecondsFromHourIdx now idx
            end))
  /\
  (forall payload,
     existsb (raises (caseOf payload)) (recordsOf payload) = false ->
     exists pts, extractHourPoints now payload idx = Some pts).
Proof.
  split; [|split].
  - intros first rest pts Hshape E. eapply extract_array_ts; eauto.
  - intros payload pts Hc E. rewrite extract_spec, Hc in E.
    assert (recordsOf payload = objectsIn payload) as Hrec.
    { unfold recordsOf. rewrite Hc. destruct payload; reflexivity. }
    rewrite Hrec in E. cbn [raises usable observation] in E.
    destruct (existsb nestedRaises (objectsIn payload)); [discriminate|].
    injection E as <-. split.
    + intros r t Hr Hu Ht. exists (nestedObservation (toEpochSecondsFromHourIdx now idx) r).
      split.
      * apply list_elem_of_fmap. exists r. split; [reflexivity|].
        apply list_elem_of_In, filter_In. split; [apply list_elem_of_In; exact Hr|exact Hu].
      * unfold nestedObservation. cbn [Observation.ts Observation.lat Observation.lon].
        rewrite Ht. repeat split.
    + intros o Ho. apply list_elem_of_fmap in Ho as (r & -> & Hr).
      apply list_elem_of_In, filter_In in Hr as [Hr _]. apply list_elem_of_In in Hr.
      exists r. split; [exact Hr|reflexivity].
  - intros payload Hno. rewrite extract_spec, Hno. eexists. reflexivity.
Qed.
End StatedTimestamps.

(** a record with a timestamp of its own, in an array and wrapped in an
    object *)
Definition stampedRecord : json :=
  JObj [("lat", JNum 10); ("lon", JNum 20); ("ts", JNum 1600000000)].

Lemma array_payload_timestamps_ignored_witness :
  Balloons.extractHourPoints (RT := referenceRuntime) 1700000000123
    (JArr [stampedRecord]) 2
  = Some [Observation.mk 1699992800 10 20 None]
  /\
  Forall (fun o => Observation.ts o
                   = Balloons.toEpochSecondsFromHourIdx 1700000000123 2)
    [Observation.mk 1699992800 10 20 None]
  /\
  Balloons.extractHourPoints (RT := referenceRuntime) 1700000000123
    (JObj [("balloon", stampedRecord)]) 2
  = Some [Observation.mk 1600000000 10 20 None]
  /\
  exists o, o ∈ [Observation.mk 1600000000 10 20 None] /\
            Observation.ts o = 1600000000.
Proof.
  destruct (array_payload_timestamps_ignored (RT := referenceRuntime) 1700000000123 2)
    as (Harr & Hwalk & _).
  split; [vm_compute; reflexivity|].
  split.
  - apply (Harr stampedRecord []); [reflexivity|vm_compute; reflexivity].
  - split; [vm_compute; reflexivity|].
    destruct (Hwalk (JObj [("balloon", stampedRecord)])
                [Observation.mk 1600000000 10 20 None]) as [Hts _];
      [reflexivity|vm_compute; reflexivity|].
    destruct (Hts stampedRecord 1600000000) as (o & Ho & Ht & _);
      [right; left|vm_compute; reflexivity|vm_compute; reflexivity|].
    exists o. split; assumption.
Defined.

Section StatedSegmenter.
Context {RT : Runtime}.
Import Page FloatFacts.

(** C9. RenderSegmenter keeps the points at or after the cut-off, walks
    them in order, starts a new segment whenever the longitudes of two
    consecutive points differ by more than 180 degrees in magnitude or
    their great-circle distance exceeds the hop cap, and drops the segments
    of fewer than two points ([segmentsSpec]).  A track that goes from
    longitude 179 to longitude -179 between two consecutive kept points is
    cut there: its segments are those of the part up to the first of the
    two, followed by those of the part from the second on. *)
Theorem segmenter_spec pts cutoffTs maxHopKm :
  splitByDatelineAndHops pts cutoffTs maxHopKm = segmentsSpec pts cutoffTs maxHopKm
  /\
  (forall pts1 a b pts2,
     pts = pts1 ++ a :: b :: pts2 ->
     (cutoffTs <=? Observation.ts a) = true -> (cutoffTs <=? Observation.ts b) = true ->
     Observation.lon a = 179 -> Observation.lon b = -179 ->
     splitByDatelineAndHops pts cutoffTs maxHopKm
     = splitByDatelineAndHops (pts1 ++ [a]) cutoffTs maxHopKm
       ++ splitByDatelineAndHops (b :: pts2) cutoffTs maxHopKm).
Proof.
  split; [apply splitByDatelineAndHops_spec|].
  intros pts1 a b pts2 -> Ha Hb Hla Hlb.
  apply split_at_break; [exact Ha|exact Hb|].
  unfold breaksBetween. rewrite Hla, Hlb. reflexivity.
Qed.
End StatedSegmenter.

(** four hourly points going east across the antimeridian *)
Definition crossing : list Observation.t :=
  [Observation.mk 1700000000 10 178 None; Observation.mk 1700003600 10 179 None;
   Observation.mk 1700007200 10 (-179) None; Observation.mk 1700010800 10 (-178) None].

Lemma segmenter_spec_witness :
  Page.splitByDatelineAndHops (RT := referenceRuntime) crossing 1700000000 Page.pageMaxHopKm
  = [[(10, 178); (10, 179)]; [(10, -179); (10, -178)]].
Proof.
  destruct (segmenter_spec (RT := referenceRuntime) crossing 1700000000 Page.pageMaxHopKm)
    as [_ Hcut].
  rewrite (Hcut [Observation.mk 1700000000 10 178 None]
             (Observation.mk 1700003600 10 179 None)
             (Observation.mk 1700007200 10 (-179) None)
             [Observation.mk 1700010800 10 (-178) None]);
    [vm_compute; reflexivity|reflexivity|reflexivity|reflexivity|reflexivity|reflexivity].
Defined.

Section StatedJsonl.
Context {RT : Runtime}.
Import SafeJson.

(** C8. Stage 3 of the recovery splits the repaired text on line breaks (at
    each line feed, together with the carriage return before it when there
    is one), removes from each line the white space at its two ends, keeps
    the lines that then begin with an opening brace or bracket, parses each
    of them on its own and collects the values of those that parse; it
    succeeds exactly when one of the kept lines parses.  When the first two
    stages fail and stage 3 succeeds, its list is the result of
    [safeParseJSON]. *)
Theorem jsonl_stage_spec text :
  splitsInto (cleanup (stripBOM text)) (splitLines (cleanup (stripBOM text)))
  /\
  (forall raw, trimmed raw (trim raw))
  /\
  (forall l, looksLikeRecord l = true <-> beginsWith "{" l \/ beginsWith "[" l)
  /\
  parseJsonl (cleanup (stripBOM text))
  = match omap JSON_parse
            (List.filter looksLikeRecord
               (List.map trim (splitLines (cleanup (stripBOM text))))) with
    | [] => None
    | arr => Some (JArr arr)
    end
  /\
  (parseJsonl (cleanup (stripBOM text)) <> None <->
   exists raw v,
     raw ∈ splitLines (cleanup (stripBOM text)) /\
     (beginsWith "{" (trim raw) \/ beginsWith "[" (trim raw)) /\
     JSON_parse (trim raw) = Some v)
  /\
  (JSON_parse (stripBOM text) = None ->
   JSON_parse (cleanup (stripBOM text)) = None ->
   forall arr, parseJsonl (cleanup (stripBOM text)) = Some arr ->
               safeParseJSON text = Some arr).
Proof.
  split; [apply splitLines_splitsInto|].
  split; [apply trim_trimmed|].
  split; [apply looksLikeRecord_begins|].
  split; [apply parseJsonl_spec|]. split.
  - rewrite parseJsonl_succeeds. split.
    + intros (l & v & Hl & Hp). apply elem_of_jsonlLines in Hl as (raw & Hraw & -> & Hr).
      exists raw, v. rewrite <- looksLikeRecord_begins. auto.
    + intros (raw & v & Hraw & Hr & Hp). exists (trim raw), v. split; [|exact Hp].
      apply elem_of_jsonlLines. exists raw. rewrite looksLikeRecord_begins. auto.
  - intros H1 H2 arr H3. rewrite (safeParseJSON_stage3 text H1 H2), H3. reflexivity.
Qed.
End StatedJsonl.

(** two records, one per line, with no enclosing array *)
Definition twoRecordLines : string :=
  "{" ++ quoted "lat" ++ ": 10, " ++ quoted "lon" ++ ": 20}" ++ lineFeed
  ++ "{" ++ quoted "lat" ++ ": -33.5, " ++ quoted "lon" ++ ": 151.25}".

Lemma jsonl_stage_spec_witness :
  SafeJson.safeParseJSON (RT := referenceRuntime) twoRecordLines
  = Some (JArr [JObj [("lat", JNum 10); ("lon", JNum 20)];
                JObj [("lat", JNum (-33.5)); ("lon", JNum 151.25)]])
  /\
  Balloons.hourPoints (RT := referenceRuntime) 1700000000123 2 (Some twoRecordLines)
  = [Observation.mk 1699992800 10 20 None; Observation.mk 1699992800 (-33.5) 151.25 None]
  /\
  SafeJson.trim (carriageReturn ++ utf8 160 ++ "[1, 2]" ++ utf8 8232 ++ utf8 65279)
  = "[1, 2]".
Proof.
  split; [|split; [vm_compute; reflexivity|vm_compute; reflexivity]].
  destruct (jsonl_stage_spec (RT := referenceRuntime) twoRecordLines)
    as (_ & _ & _ & _ & _ & Hres).
  apply Hres; vm_compute; reflexivity.
Defined.

(** C8, as worded: not every non-empty line is parsed.  A line holding the
    number 5 parses, and stage 3 leaves it out; two such lines make the
    stage fail, although both parse. *)
Lemma jsonl_skips_scalar_lines :
  (SafeJson.parseJsonl (RT := referenceRuntime) ("5" ++ lineFeed ++ "[1,2]")
   = Some (JArr [JArr [JNum 1; JNum 2]])
   /\ jsonlSpec (RT := referenceRuntime) ("5" ++ lineFeed ++ "[1,2]")
      = Some (JArr [JNum 5; JArr [JNum 1; JNum 2]])
   /\ SafeJson.parseJsonl (RT := referenceRuntime) ("5" ++ lineFeed ++ "[1,2]")
      <> jsonlSpec (RT := referenceRuntime) ("5" ++ lineFeed ++ "[1,2]"))
  /\
  (SafeJson.parseJsonl (RT := referenceRuntime) ("5" ++ lineFeed ++ "6") = None
   /\ jsonlSpec (RT := referenceRuntime) ("5" ++ lineFeed ++ "6")
      = Some (JArr [JNum 5; JNum 6])
   /\ SafeJson.safeParseJSON (RT := referenceRuntime) ("5" ++ lineFeed ++ "6") = None).
Proof.
  assert (SafeJson.parseJsonl (RT := referenceRuntime) ("5" ++ lineFeed ++ "[1,2]")
          = Some (JArr [JArr [JNum 1; JNum 2]])) as E1 by (vm_compute; reflexivity).
  assert (jsonlSpec (RT := referenceRuntime) ("5" ++ lineFeed ++ "[1,2]")
          = Some (JArr [JNum 5; JArr [JNum 1; JNum 2]])) as E2 by (vm_compute; reflexivity).
  split.
  - split; [exact E1|]. split; [exact E2|]. rewrite E1, E2. discriminate.
  - repeat split; vm_compute; reflexivity.
Qed.

(** * Further properties of the code *)

(** ** [Array.prototype.sort] with a comparator [(a, b) => key(a) - key(b)] *)

Section SortByKey.
Context {A : Type} (key : A -> float).
Import FloatFacts FloatOrder.

Definition byKey (a b : A) : float := key a - key b.

Definition keyLe (a b : A) : Prop := (key a <=? key b) = true.

(** the key is a number *)
Definition keyed (a : A) : Prop := is_nan (key a) = false.

Lemma sort_insert_sorted x l :
  keyed x -> Forall keyed l -> StronglySorted keyLe l ->
  StronglySorted keyLe (sort_insert byKey x l).
Proof.
  intros Hx Hl Hs. induction l as [|y l IH]; cbn [sort_insert].
  - repeat constructor.
  - inversion Hl as [|? ? Hy Hl']; subst.
    apply StronglySorted_inv in Hs as [Hs Hall].
    unfold byKey at 1. rewrite (sub_pos_iff _ _ Hx Hy).
    destruct (key y <? key x) eqn:L.
    + constructor; [apply IH; assumption|].
      rewrite Forall_forall. intros z Hz.
      rewrite (sort_insert_Permutation byKey x l) in Hz.
      apply elem_of_cons in Hz as [->|Hz].
      * apply ltb_leb. exact L.
      * rewrite Forall_forall in Hall. apply Hall. exact Hz.
    + assert (keyLe x y) as Hxy by (apply ltb_false_leb; assumption).
      constructor; [constructor; assumption|].
      constructor; [exact Hxy|].
      eapply Forall_impl; [exact Hall|].
      intros z Hz. eapply leb_trans; eassumption.
Qed.

(** the result is in ascending order of the key *)
Lemma Array_sort_sorted l :
  Forall keyed l -> StronglySorted keyLe (Array_sort byKey l).
Proof.
  unfold Array_sort. induction 1 as [|x l Hx Hl IH]; cbn [fold_right].
  - constructor.
  - apply sort_insert_sorted; [exact Hx| |exact IH].
    rewrite Forall_forall in *. intros z Hz.
    apply Hl. rewrite <- (Array_sort_Permutation byKey l). exact Hz.
Qed.

(** a list already in ascending order is left as it is *)
Lemma Array_sort_sorted_id l :
  Forall keyed l -> StronglySorted keyLe l -> Array_sort byKey l = l.
Proof.
  unfold Array_sort. intros Hl Hs. induction l as [|x l IH]; [reflexivity|].
  inversion Hl as [|? ? Hx Hl']; subst.
  apply StronglySorted_inv in Hs as [Hs Hall].
  cbn [fold_right]. rewrite IH by assumption.
  destruct l as [|y l']; [reflexivity|]. cbn [sort_insert].
  inversion Hl' as [|? ? Hy _]; subst. inversion Hall as [|? ? Hxy _]; subst.
  unfold byKey. rewrite (sub_pos_iff _ _ Hx Hy), (leb_not_ltb _ _ Hxy). reflexivity.
Qed.
End SortByKey.

(** ** [dedupeAndSort] on any list of points *)

Section PostProcessorAll.
Context {RT : Runtime}.
Import Geo FloatFacts.

(** ascending timestamps, equal ones allowed *)
Definition tsLe (a b : TrackPoint.t) : Prop :=
  (TrackPoint.ts a <=? TrackPoint.ts b) = true.

Lemma dedupeAndSort_byKey pts :
  dedupeAndSort pts = Array_sort (byKey TrackPoint.ts) (dedupeLoop pts ∅ []).
Proof. reflexivity. Qed.

Lemma pointFinite_keyed l :
  Forall (fun p => pointFinite p = true) l -> Forall (keyed TrackPoint.ts) l.
Proof.
  intros H. eapply Forall_impl; [exact H|].
  intros p Hp. apply finite_nonnan, pointFinite_ts. exact Hp.
Qed.

(** a finite point whose key is new has its key in the result *)
Lemma dedupeLoop_keeps_key points p :
  forall seen out,
    p ∈ points -> pointFinite p = true -> pointKey p ∉ seen ->
    exists q, q ∈ dedupeLoop points seen out /\ pointKey q = pointKey p.
Proof.
  induction points as [|h rest IH]; intros seen out Hin Hfin Hnew;
    [apply elem_of_nil in Hin; contradiction|].
  cbn [dedupeLoop].
  destruct (bool_decide (pointKey h ∉ seen) && pointFinite h) eqn:Hpush.
  - destruct (decide (pointKey h = pointKey p)) as [E|NE].
    + exists h. split; [|exact E].
      destruct (dedupeLoop_spec rest ({[pointKey h]} ∪ seen) (out ++ [h]))
        as (kept & -> & _). set_solver.
    + apply elem_of_cons in Hin as [E|Hrest]; [congruence|].
      apply IH; [exact Hrest|exact Hfin|set_solver].
  - apply elem_of_cons in Hin as [E|Hrest].
    + subst h. rewrite Hfin, bool_decide_eq_true_2 in Hpush by exact Hnew. discriminate.
    + apply IH; assumption.
Qed.

Lemma dedupeAndSort_facts pts :
  StronglySorted tsLe (dedupeAndSort pts) /\
  Forall (fun p => pointFinite p = true) (dedupeAndSort pts) /\
  NoDup (pointKey <$> dedupeAndSort pts).
Proof.
  rewrite dedupeAndSort_byKey.
  destruct (dedupeLoop_spec pts ∅ []) as (kept & E & Hsub & Hfin & Hnd & _).
  rewrite E. cbn [app].
  pose proof (Array_sort_Permutation (byKey TrackPoint.ts) kept) as Hperm.
  split; [apply (Array_sort_sorted TrackPoint.ts), pointFinite_keyed; exact Hfin|].
  split; [rewrite Hperm; exact Hfin|rewrite Hperm; exact Hnd].
Qed.

(** X1. Whatever the input, the result of [dedupeAndSort] is in ascending
    order of timestamp, holds finite points only, no two of them with the
    same key, and holds input points only. *)
Theorem dedupeAndSort_output pts :
  StronglySorted tsLe (dedupeAndSort pts) /\
  Forall (fun p => pointFinite p = true) (dedupeAndSort pts) /\
  NoDup (pointKey <$> dedupeAndSort pts) /\
  (forall p, p ∈ dedupeAndSort pts -> p ∈ pts) /\
  (length (dedupeAndSort pts) <= length pts)%nat.
Proof.
  destruct (dedupeAndSort_facts pts) as (Hs & Hfin & Hnd).
  split; [exact Hs|]. split; [exact Hfin|]. split; [exact Hnd|].
  rewrite dedupeAndSort_byKey.
  destruct (dedupeLoop_spec pts ∅ []) as (kept & E & Hsub & _).
  rewrite E. cbn [app].
  pose proof (Array_sort_Permutation (byKey TrackPoint.ts) kept) as Hperm.
  split.
  - intros p Hp. rewrite Hperm in Hp. eapply elem_of_sublist; eauto.
  - rewrite Hperm. apply sublist_length. exact Hsub.
Qed.

(** X2. [dedupeAndSort] is idempotent: a second pass changes nothing. *)
Theorem dedupeAndSort_idempotent pts :
  dedupeAndSort (dedupeAndSort pts) = dedupeAndSort pts.
Proof.
  destruct (dedupeAndSort_facts pts) as (Hs & Hfin & Hnd).
  rewrite (dedupeAndSort_byKey (dedupeAndSort pts)).
  rewrite (dedupeLoop_keeps_all _ ∅ [] Hfin Hnd) by set_solver.
  cbn [app]. apply (Array_sort_sorted_id TrackPoint.ts); [|exact Hs].
  apply pointFinite_keyed. exact Hfin.
Qed.

(** X3. No key is lost: a finite input point has a point of the same key in
    the result; and finite points of pairwise distinct keys are only put in
    order. *)
Theorem dedupeAndSort_keeps_keys pts :
  (forall p, p ∈ pts -> pointFinite p = true ->
     exists q, q ∈ dedupeAndSort pts /\ pointKey q = pointKey p) /\
  (Forall (fun p => pointFinite p = true) pts -> NoDup (pointKey <$> pts) ->
   Permutation (dedupeAndSort pts) pts).
Proof.
  split.
  - intros p Hin Hfin. rewrite dedupeAndSort_byKey.
    destruct (dedupeLoop_keeps_key pts p ∅ [] Hin Hfin ltac:(set_solver))
      as (q & Hq & E).
    exists q. split; [|exact E].
    rewrite (Array_sort_Permutation (byKey TrackPoint.ts)). exact Hq.
  - intros Hfin Hnd. rewrite dedupeAndSort_byKey.
    rewrite (dedupeLoop_keeps_all _ ∅ [] Hfin Hnd) by set_solver.
    apply Array_sort_Permutation.
Qed.
End PostProcessorAll.

(** three sightings of a balloon, the last one twice, given newest first,
    and one with a latitude that is not a number *)
Definition sightings : list TrackPoint.t :=
  [TrackPoint.mk "T1" 1700007200 10 21 None;
   TrackPoint.mk "T1" 1700007200 10 21 (Some 18000);
   TrackPoint.mk "T1" 1700003600 nan 20.5 None;
   TrackPoint.mk "T1" 1700003600 10 20.5 None;
   TrackPoint.mk "T1" 1700000000 10 20 None].

Lemma dedupeAndSort_output_witness :
  StronglySorted tsLe (Geo.dedupeAndSort (RT := referenceRuntime) sightings) /\
  length (Geo.dedupeAndSort (RT := referenceRuntime) sightings) = 3%nat /\
  (forall p, p ∈ Geo.dedupeAndSort (RT := referenceRuntime) sightings -> p ∈ sightings).
Proof.
  destruct (dedupeAndSort_output (RT := referenceRuntime) sightings)
    as (Hs & _ & _ & Hin & _).
  split; [exact Hs|]. split; [vm_compute; reflexivity|exact Hin].
Defined.

Lemma dedupeAndSort_keeps_keys_witness :
  Geo.dedupeAndSort (RT := referenceRuntime) sightings
  = [TrackPoint.mk "T1" 1700000000 10 20 None;
     TrackPoint.mk "T1" 1700003600 10 20.5 None;
     TrackPoint.mk "T1" 1700007200 10 21 None]
  /\
  (exists q, q ∈ Geo.dedupeAndSort (RT := referenceRuntime) sightings /\
             Geo.pointKey (RT := referenceRuntime) q
             = Geo.pointKey (RT := referenceRuntime)
                 (TrackPoint.mk "T1" 1700007200 10 21 (Some 18000)))
  /\
  Permutation
    (Geo.dedupeAndSort (RT := referenceRuntime)
       [TrackPoint.mk "T1" 1700003600 10 20.5 None; TrackPoint.mk "T1" 1700000000 10 20 None])
    [TrackPoint.mk "T1" 1700003600 10 20.5 None; TrackPoint.mk "T1" 1700000000 10 20 None].
Proof.
  split; [vm_compute; reflexivity|].
  split.
  - apply (dedupeAndSort_keeps_keys (RT := referenceRuntime) sightings);
      [right; left|reflexivity].
  - apply (dedupeAndSort_keeps_keys (RT := referenceRuntime)).
    + repeat constructor.
    + apply (bool_decide_unpack _). vm_compute. exact I.
Defined.

(** ** The stats of the proximity route *)

Section ProximityStats.
Context {RT : Runtime}.
Import Insights FloatFacts FloatOrder.

Lemma GET_byKey balloons fires :
  GET balloons fires
  = Array_sort (byKey closest_km) (stat (default [] fires) <$> default [] balloons).
Proof. reflexivity. Qed.

(** the running minimum is never NaN: a distance only replaces it when it
    compares below it *)
Lemma scan_minKm_nonnan points firePts : is_nan (minKm (scan points firePts)) = false.
Proof.
  rewrite scan_pairs.
  destruct (fold_min (pairs points firePts)
              {| minKm := infinity; minWhen := None; nearCount := 0 |})
    as [(E & _)|(pf & _ & E & _ & Hlt & _)]; rewrite E.
  - reflexivity.
  - apply (ltb_nonnan _ _ Hlt).
Qed.

Lemma closest_km_nonnan firePts t : is_nan (closest_km (stat firePts t)) = false.
Proof.
  unfold stat. cbn [closest_km].
  apply div_nonnan; [|reflexivity].
  apply Math_round_nonnan, mul_nonnan_r; [|reflexivity].
  apply scan_minKm_nonnan.
Qed.

Lemma pairs_length points firePts :
  length (pairs points firePts) = (length points * length firePts)%nat.
Proof.
  unfold pairs. induction points as [|p rest IH]; [reflexivity|].
  cbn [flat_map length]. rewrite length_app, length_map, IH. lia.
Qed.

Lemma filter_none {A} (f : A -> bool) l :
  Forall (fun x => f x = false) l -> List.filter f l = [].
Proof.
  induction 1 as [|x l Hx _ IH]; [reflexivity|]. cbn [List.filter]. rewrite Hx. exact IH.
Qed.

(** X4. The stats come out in ascending order of [closest_km], and no
    [closest_km] is NaN, whatever the tracks, the fires and the runtime's
    distance function. *)
Theorem stats_sorted_by_distance balloons fires :
  StronglySorted (fun a b => (closest_km a <=? closest_km b) = true)
    (GET balloons fires) /\
  Forall (fun s => is_nan (closest_km s) = false) (GET balloons fires).
Proof.
  rewrite GET_byKey.
  assert (Forall (keyed closest_km) (stat (default [] fires) <$> default [] balloons))
    as Hk.
  { rewrite Forall_fmap. rewrite Forall_forall. intros t _. apply closest_km_nonnan. }
  split.
  - apply (Array_sort_sorted closest_km). exact Hk.
  - rewrite (Array_sort_Permutation (byKey closest_km)). exact Hk.
Qed.

(** X5. There is one stat per track, under the track's id: the stats are the
    per-track results in another order.  When the request for the tracks
    fails there is no stat. *)
Theorem stats_one_per_track balloons fires :
  Permutation (GET balloons fires) (stat (default [] fires) <$> default [] balloons) /\
  Permutation (id <$> GET balloons fires) (Track.id <$> default [] balloons) /\
  length (GET balloons fires) = length (default [] balloons) /\
  GET None fires = [].
Proof.
  rewrite GET_byKey.
  pose proof (Array_sort_Permutation (byKey closest_km)
                (stat (default [] fires) <$> default [] balloons)) as Hperm.
  split; [exact Hperm|]. split; [|split; [|reflexivity]].
  - rewrite Hperm, <- list_fmap_compose. reflexivity.
  - rewrite Hperm, length_fmap. reflexivity.
Qed.

(** X6. [closest_ts] is undefined only in the sentinel case, where the distance
    is infinite and nothing is near; when defined it is the timestamp of a
    point of the track.  [near_count] is at most the number of (point, fire)
    pairs. *)
Theorem closest_ts_defined_or_sentinel firePts t :
  (closest_ts (stat firePts t) = None ->
   closest_km (stat firePts t) = infinity /\ near_count (stat firePts t) = 0%nat) /\
  (forall ts, closest_ts (stat firePts t) = Some ts ->
              exists p, p ∈ Track.points t /\ TrackPoint.ts p = ts) /\
  (near_count (stat firePts t) <= length (Track.points t) * length firePts)%nat.
Proof.
  unfold stat. cbn [closest_km near_count closest_ts]. rewrite scan_pairs.
  pose proof (fold_nearCount (pairs (Track.points t) firePts)
                {| minKm := infinity; minWhen := None; nearCount := 0 |}) as Hn.
  cbn [nearCount] in Hn. rewrite Nat.add_0_l in Hn.
  destruct (fold_min (pairs (Track.points t) firePts)
              {| minKm := infinity; minWhen := None; nearCount := 0 |})
    as [(E1 & E2 & A)|(pf & Hin & E1 & E2 & _)]; cbn [minKm minWhen] in *.
  - split; [|split].
    + intros _. rewrite E1. split; [reflexivity|].
      rewrite Hn.
      assert (Forall (fun pf => near pf = false) (pairs (Track.points t) firePts)) as Hfar.
      { rewrite Forall_forall. intros pf Hpf.
        destruct (near pf) eqn:Hnear; [|reflexivity]. unfold near in Hnear.
        assert ((pairKm pf <? infinity) = true) as Hlt
            by (eapply leb_ltb_trans; [exact Hnear|reflexivity]).
        rewrite (A pf Hpf) in Hlt. discriminate. }
      rewrite (filter_none _ _ Hfar). reflexivity.
    + intros ts Hts. rewrite E2 in Hts. discriminate.
    + rewrite Hn, <- pairs_length. apply filter_length_le.
  - split; [|split].
    + intros Hnone. rewrite E2 in Hnone. discriminate.
    + intros ts Hts. rewrite E2 in Hts. injection Hts as <-.
      destruct pf as [p f]. apply elem_of_pairs in Hin as [Hp _]. exists p. auto.
    + rewrite Hn, <- pairs_length. apply filter_length_le.
Qed.
End ProximityStats.

Lemma closest_ts_defined_or_sentinel_witness :
  (exists p, p ∈ Track.points equatorTrack /\ TrackPoint.ts p = 1700003600) /\
  Insights.closest_km (Insights.stat (RT := referenceRuntime) [] equatorTrack) = infinity /\
  Insights.near_count (Insights.stat (RT := referenceRuntime) [] equatorTrack) = 0%nat.
Proof.
  split.
  - apply (closest_ts_defined_or_sentinel (RT := referenceRuntime) twoFires equatorTrack).
    vm_compute. reflexivity.
  - apply (closest_ts_defined_or_sentinel (RT := referenceRuntime) [] equatorTrack).
    reflexivity.
Defined.

(** ** The tracks [linkTracks] returns *)

Section LinkerFacts.
Context {RT : Runtime}.
Import Balloons Geo.

Lemma sublist_List_filter {A} (f : A -> bool) l : sublist (List.filter f l) l.
Proof.
  induction l as [|x l IH]; [constructor|]. cbn [List.filter].
  destruct (f x); [apply sublist_skip|apply sublist_cons]; exact IH.
Qed.

Lemma sublist_fmap_mono {A B} (f : A -> B) l1 l2 :
  sublist l1 l2 -> sublist (f <$> l1) (f <$> l2).
Proof.
  induction 1; cbn; [constructor|apply sublist_skip|apply sublist_cons]; assumption.
Qed.

Lemma dedupeAndSort_subset pts p : p ∈ dedupeAndSort pts -> p ∈ pts.
Proof.
  unfold dedupeAndSort. rewrite Array_sort_Permutation.
  destruct (dedupeLoop_spec pts ∅ []) as (kept & -> & Hsub & _). cbn [app].
  intros Hp. eapply elem_of_sublist; eauto.
Qed.

Lemma dedupeAndSort_length pts : (length (dedupeAndSort pts) <= length pts)%nat.
Proof.
  unfold dedupeAndSort. rewrite Array_sort_Permutation.
  destruct (dedupeLoop_spec pts ∅ []) as (kept & -> & Hsub & _). cbn [app].
  apply sublist_length. exact Hsub.
Qed.

(** a returned track is an open track after [finish] *)
Lemma linkTracks_elem hourly tr :
  tr ∈ linkTracks hourly ->
  exists tr0, tr0 ∈ tracks (linkAll hourly) /\ tr = finish tr0.
Proof.
  unfold linkTracks. intros H.
  apply list_elem_of_In, filter_In in H as [H _].
  apply in_map_iff in H as (tr0 & <- & H0). exists tr0.
  split; [apply list_elem_of_In; exact H0|reflexivity].
Qed.

Lemma elem_of_allPoints trs tr p : tr ∈ trs -> p ∈ Track.points tr -> p ∈ allPoints trs.
Proof.
  intros Htr Hp. unfold allPoints. apply list_elem_of_In, in_concat.
  exists (Track.points tr). split; [|apply list_elem_of_In; exact Hp].
  apply in_map, list_elem_of_In. exact Htr.
Qed.

Lemma tracks_at_most_points trs :
  Forall (fun tr => Track.points tr <> []) trs -> (length trs <= length (allPoints trs))%nat.
Proof.
  induction 1 as [|tr trs Hne _ IH]; [reflexivity|].
  change (allPoints (tr :: trs)) with (Track.points tr ++ allPoints trs).
  rewrite length_app. destruct (Track.points tr); [congruence|cbn [length]; lia].
Qed.

(** X7. The loop of [linkTracks] puts every observation of every hour in one
    track, once, and changes nothing in it: the points of the open tracks,
    without their ids, are the observations in another order.  The tracks
    returned hold such points only, each under the id of its track. *)
Theorem linker_conserves_observations hourly :
  Permutation (observationOf <$> allPoints (tracks (linkAll hourly))) (concat hourly) /\
  (forall tr p, tr ∈ linkTracks hourly -> p ∈ Track.points tr ->
     observationOf p ∈ concat hourly /\ TrackPoint.id p = Track.id tr).
Proof.
  split; [apply linkAll_conserve|].
  intros tr p Htr Hp.
  apply linkTracks_elem in Htr as (tr0 & Htr0 & ->).
  unfold finish in Hp |- *. cbn [Track.points Track.id] in *.
  apply dedupeAndSort_subset in Hp. split.
  - rewrite <- linkAll_conserve. apply list_elem_of_fmap_2.
    eapply elem_of_allPoints; eauto.
  - destruct (named_linkAll hourly) as [_ Hk].
    apply list_elem_of_lookup_1 in Htr0 as [k Hlk].
    destruct (Hk k tr0 Hlk) as [_ Hown].
    unfold ownPoints in Hown. rewrite Forall_forall in Hown. apply Hown. exact Hp.
Qed.

(** X8. The ids of the returned tracks are taken, in order, from [T1], [T2],
    ..., [Tn], where [n] is at most the number of observations; no two
    returned tracks have the same id. *)
Theorem track_ids_distinct hourly :
  (exists n, (n <= length (concat hourly))%nat /\
             sublist (Track.id <$> linkTracks hourly) (trackName <$> seq 1 n)) /\
  NoDup (Track.id <$> linkTracks hourly).
Proof.
  assert (sublist (Track.id <$> linkTracks hourly)
            (trackName <$> seq 1 (length (tracks (linkAll hourly))))) as Hsub.
  { rewrite <- (named_ids _ (named_linkAll hourly)).
    unfold linkTracks.
    replace (Track.id <$> tracks (linkAll hourly))
      with (Track.id <$> List.map finish (tracks (linkAll hourly))).
    - apply sublist_fmap_mono, sublist_List_filter.
    - change (List.map finish ?l) with (finish <$> l).
      rewrite <- list_fmap_compose. reflexivity. }
  split.
  - exists (length (tracks (linkAll hourly))). split; [|exact Hsub].
    rewrite <- (Permutation_length (linkAll_conserve hourly)), length_fmap.
    apply tracks_at_most_points. eapply Forall_impl; [apply linkAll_wellLinked|].
    intros tr [Hne _]. exact Hne.
  - eapply sublist_NoDup; [|exact Hsub].
    apply NoDup_fmap_2; [|apply NoDup_seq].
    intros n m. apply trackName_inj.
Qed.

(** X9. One pass of the loop over the hours leaves every open track as it was
    or appends one observation of the hour to it, and opens tracks of one
    observation of the hour each, after the others. *)
Theorem hour_extends_tracks_by_one st pts :
  exists kept fresh,
    tracks (linkHour st pts) = kept ++ fresh /\
    Forall2 (grows pts) (tracks st) kept /\
    Forall (opened pts) fresh /\
    (length (tracks st) <= length (tracks (linkHour st pts)))%nat.
Proof.
  destruct (linkHour_structure st pts) as (kept & fresh & E & Hg & Hf).
  exists kept, fresh. split; [exact E|]. split; [exact Hg|]. split; [exact Hf|].
  rewrite E, length_app, (Forall2_length _ _ _ Hg). lia.
Qed.

(** the hours that hold an observation *)
Definition hoursWithData (hourly : list (list Observation.t)) : nat :=
  length (List.filter (fun pts => (0 <? length pts)%nat) hourly).

Lemma hoursWithData_cons pts hs :
  hoursWithData (pts :: hs)
  = ((match pts with [] => 0 | _ :: _ => 1 end) + hoursWithData hs)%nat.
Proof. destruct pts; reflexivity. Qed.

Lemma fold_linkHour_length hs :
  forall st B,
    Forall (fun tr => (length (Track.points tr) <= B)%nat) (tracks st) ->
    Forall (fun tr => (length (Track.points tr) <= B + hoursWithData hs)%nat)
      (tracks (fold_left linkHour hs st)).
Proof.
  induction hs as [|pts hs IH]; intros st B H; cbn [fold_left].
  - change (hoursWithData []) with 0%nat. rewrite Nat.add_0_r. exact H.
  - rewrite hoursWithData_cons. destruct pts as [|p rest].
    + apply IH. exact H.
    + replace (B + (1 + hoursWithData hs))%nat with (S B + hoursWithData hs)%nat by lia.
      apply IH.
      destruct (linkHour_structure st (p :: rest)) as (kept & fresh & -> & Hg & Hf).
      apply Forall_app. split.
      * rewrite Forall_forall. intros tr' Htr'.
        apply list_elem_of_lookup_1 in Htr' as [k Hk].
        destruct (Forall2_lookup_r _ _ _ _ _ Hg Hk) as (tr & Htr & _ & Hpts).
        rewrite Forall_forall in H.
        assert (length (Track.points tr) <= B)%nat as Hlen
            by (apply H; eapply list_elem_of_lookup_2; exact Htr).
        destruct Hpts as [->|(q & _ & ->)]; [lia|].
        rewrite length_app. cbn [length]. lia.
      * eapply Forall_impl; [exact Hf|].
        intros tr (q & _ & ->). cbn [length]. lia.
Qed.

Lemma linkAll_length hourly :
  Forall (fun tr => (length (Track.points tr) <= hoursWithData hourly)%nat)
    (tracks (linkAll hourly)).
Proof.
  unfold linkAll.
  pose proof (fold_linkHour_length (rev hourly) {| nextId := 1; tracks := [] |} 0
                ltac:(constructor)) as H.
  cbn [Nat.add] in H. unfold hoursWithData in *.
  rewrite filter_rev, length_rev in H. exact H.
Qed.

(** X10. A track gains at most one point per hour that holds an observation: a
    returned track has at most as many points as there are such hours, and
    with fewer than two such hours no track is returned. *)
Theorem track_length_at_most_hours hourly :
  (forall tr, tr ∈ linkTracks hourly ->
     (length (Track.points tr) <= hoursWithData hourly)%nat) /\
  ((hoursWithData hourly < 2)%nat -> linkTracks hourly = []).
Proof.
  pose proof (linkAll_length hourly) as Hlen. rewrite Forall_forall in Hlen.
  assert (forall tr, tr ∈ linkTracks hourly ->
            (length (Track.points tr) <= hoursWithData hourly)%nat) as Hb.
  { intros tr Htr. apply linkTracks_elem in Htr as (tr0 & Htr0 & ->).
    unfold finish. cbn [Track.points].
    etransitivity; [apply dedupeAndSort_length|apply Hlen; exact Htr0]. }
  split; [exact Hb|].
  intros Hfew.
  assert (forall tr, tr ∉ linkTracks hourly) as Hnone.
  { intros tr Htr. pose proof (Hb tr Htr) as Hle.
    unfold linkTracks in Htr. apply list_elem_of_In, filter_In in Htr as [_ H2].
    apply Nat.leb_le in H2. lia. }
  destruct (linkTracks hourly) as [|tr l]; [reflexivity|].
  exfalso. apply (Hnone tr). left.
Qed.

(** X11. Every track of the answer of the balloons route has at most 24 points. *)
Theorem answer_tracks_at_most_24_points clock fetchText tr :
  tr ∈ GET clock fetchText -> (length (Track.points tr) <= 24)%nat.
Proof.
  rewrite GET_unfold. intros Htr.
  apply linkTracks_elem in Htr as (tr0 & Htr0 & ->).
  unfold finish. cbn [Track.points].
  etransitivity; [apply dedupeAndSort_length|].
  pose proof (linkAll_length (collectHourly clock fetchText)) as Hlen.
  rewrite Forall_forall in Hlen. etransitivity; [apply Hlen; exact Htr0|].
  unfold hoursWithData. etransitivity; [apply filter_length_le|].
  unfold collectHourly. rewrite length_map, length_seq. lia.
Qed.
End LinkerFacts.

Lemma linker_conserves_observations_witness :
  Forall (fun tr =>
            Forall (fun p => observationOf p ∈ moverFiveHours /\
                             TrackPoint.id p = Track.id tr) (Track.points tr))
    (Balloons.linkTracks (RT := referenceRuntime) (rev ((fun o => [o]) <$> moverFiveHours)))
  /\
  length (Balloons.linkTracks (RT := referenceRuntime)
            (rev ((fun o => [o]) <$> moverFiveHours))) = 1%nat.
Proof.
  split; [|vm_compute; reflexivity].
  rewrite Forall_forall. intros tr Htr. rewrite Forall_forall. intros p Hp.
  destruct (linker_conserves_observations (RT := referenceRuntime)
              (rev ((fun o => [o]) <$> moverFiveHours))) as [_ H].
  destruct (H tr p Htr Hp) as [Hobs Hid]. split; [|exact Hid].
  apply list_elem_of_In. apply list_elem_of_In in Hobs.
  apply in_concat in Hobs as (l & Hl & Hin).
  apply in_rev in Hl. cbn in Hl.
  repeat (destruct Hl as [<-|Hl]; [destruct Hin as [<-|[]]; cbn; tauto|]).
  destruct Hl.
Defined.

(** one hour alone, with two observations *)
Lemma track_length_at_most_hours_witness :
  Balloons.linkTracks (RT := referenceRuntime) [[moverAt 0; moverAt 1]] = [] /\
  Forall (fun tr => (length (Track.points tr) <= 5)%nat)
    (Balloons.linkTracks (RT := referenceRuntime) (rev ((fun o => [o]) <$> moverFiveHours))).
Proof.
  split.
  - apply (track_length_at_most_hours (RT := referenceRuntime)). vm_compute. lia.
  - rewrite Forall_forall. intros tr Htr.
    destruct (track_length_at_most_hours (RT := referenceRuntime)
                (rev ((fun o => [o]) <$> moverFiveHours))) as [Hle _].
    exact (Hle tr Htr).
Defined.

Lemma answer_tracks_at_most_24_points_witness :
  Forall (fun tr => (length (Track.points tr) <= 24)%nat)
    (Balloons.GET (RT := referenceRuntime) tickingClock threeHours) /\
  length (Balloons.GET (RT := referenceRuntime) tickingClock threeHours) = 2%nat.
Proof.
  split; [|vm_compute; reflexivity].
  rewrite Forall_forall. intros tr Htr.
  exact (answer_tracks_at_most_24_points (RT := referenceRuntime) _ _ tr Htr).
Defined.

(** ** What [extractHourPoints] returns, for any payload *)

Section ExtractionAll.
Context {RT : Runtime}.
Import Balloons FloatFacts.

(** both coordinates are finite numbers *)
Definition coordsFinite (o : Observation.t) : Prop :=
  is_finite (Observation.lat o) = true /\ is_finite (Observation.lon o) = true.

Lemma usableCoords_finite lat lon :
  usableCoords lat lon = true ->
  is_finite (numberOf lat) = true /\ is_finite (numberOf lon) = true.
Proof.
  unfold usableCoords. intros H.
  apply andb_prop in H as [H H2]. apply andb_prop in H as [_ H1]. split; assumption.
Qed.

Lemma usable_finite c ts r : usable c r = true -> coordsFinite (observation c ts r).
Proof.
  destruct c; cbn [usable observation].
  - destruct r as [| | | |[|r0 [|r1 more]]|]; try discriminate.
    cbn [usableRow rowObservation]. intros H.
    apply andb_prop in H as [H H2]. apply andb_prop in H as [_ H1]. split; assumption.
  - intros H. apply usableCoords_finite in H. exact H.
  - intros H. apply usableCoords_finite in H. exact H.
Qed.

Lemma extract_finite now payload idx pts :
  extractHourPoints now payload idx = Some pts -> Forall coordsFinite pts.
Proof.
  rewrite extract_spec.
  destruct (existsb (raises (caseOf payload)) (recordsOf payload)); [discriminate|].
  intros [= <-]. rewrite Forall_fmap, Forall_forall. intros r Hr.
  apply list_elem_of_In, filter_In in Hr as [_ Hu]. apply usable_finite. exact Hu.
Qed.

(** X12. Whatever the payload, every observation extracted from it has a
    finite latitude and a finite longitude; so has every observation of
    an hourly list the handler builds. *)
Theorem extracted_coordinates_finite now idx :
  (forall payload pts,
     extractHourPoints now payload idx = Some pts -> Forall coordsFinite pts) /\
  (forall fetched, Forall coordsFinite (hourPoints now idx fetched)).
Proof.
  split; [intros payload pts; apply extract_finite|].
  intros fetched. unfold hourPoints.
  destruct fetched as [txt|]; [|constructor].
  destruct (SafeJson.safeParseJSON txt) as [value|]; [|constructor].
  destruct (truthy value); [|constructor].
  destruct (extractHourPoints now value idx) as [pts|] eqn:E; [|constructor].
  eapply extract_finite; eauto.
Qed.

(** X13. When the clock reading is a number and the payload holds no NaN, no
    extracted observation has a NaN timestamp: a timestamp field that
    cannot be read falls back to the timestamp of the hour. *)
Theorem extracted_timestamps_are_numbers now payload idx pts :
  is_nan now = false -> (idx < 24)%nat -> jsonClean payload ->
  extractHourPoints now payload idx = Some pts ->
  Forall (fun o => is_nan (Observation.ts o) = false) pts.
Proof.
  intros Hnow Hidx Hclean E.
  eapply Forall_impl; [eapply extract_clean; eauto|].
  intros o Ho. exact Ho.
Qed.

(** *** The recursive walk finds records at any depth *)

(** [v] is [node], or an entry of an array or a property value of an
    object that is itself inside [node] *)
Inductive inside (v : json) : json -> Prop :=
  | inside_here : inside v v
  | inside_item items x : x ∈ items -> inside v x -> inside v (JArr items)
  | inside_prop props k x : (k, x) ∈ props -> inside v x -> inside v (JObj props).

Lemma sublist_flat_map {A B} (f : A -> list B) x l : x ∈ l -> sublist (f x) (flat_map f l).
Proof.
  induction l as [|y r IH]; intros Hx; [apply elem_of_nil in Hx; contradiction|].
  cbn [flat_map]. apply elem_of_cons in Hx as [->|Hx].
  - apply sublist_inserts_r. reflexivity.
  - apply sublist_inserts_l, IH. exact Hx.
Qed.

(** the objects of a part are among the objects of the whole, in order *)
Lemma objectsIn_inside v node : inside v node -> sublist (objectsIn v) (objectsIn node).
Proof.
  induction 1 as [|items x Hx _ IH|props k x Hx _ IH]; [reflexivity| |].
  - cbn [objectsIn]. etransitivity; [exact IH|]. apply sublist_flat_map. exact Hx.
  - cbn [objectsIn]. apply sublist_cons. etransitivity; [exact IH|].
    apply (sublist_flat_map (fun kv => objectsIn kv.2) (k, x)). exact Hx.
Qed.

Lemma elem_of_objectsIn r node : r ∈ objectsIn node -> inside r node.
Proof.
  revert r. induction node as [| | | |items IH|props IH] using json_induction;
    intros r Hr; cbn [objectsIn] in Hr; try (apply elem_of_nil in Hr; contradiction).
  - apply list_elem_of_In, in_flat_map in Hr as (x & Hx & Hr).
    apply list_elem_of_In in Hx, Hr. rewrite Forall_forall in IH.
    apply (inside_item _ _ x Hx). apply IH; assumption.
  - apply elem_of_cons in Hr as [->|Hr]; [constructor|].
    apply list_elem_of_In, in_flat_map in Hr as ([k x] & Hx & Hr).
    apply list_elem_of_In in Hx, Hr. rewrite Forall_forall in IH.
    apply (inside_prop _ _ k x Hx). apply (IH (k, x) Hx). exact Hr.
Qed.

(** a loop over some of the entries raises no more, and collects no more *)
Lemma collect_sublist {A B : Type} (f : A -> option (list B)) l1 l2 :
  sublist l1 l2 ->
  forall out, collect f l2 = Some out ->
  exists here, collect f l1 = Some here /\ sublist here out.
Proof.
  induction 1 as [|x l1 l2 _ IH|x l1 l2 _ IH]; intros out E; cbn [collect] in *.
  - exists []. split; [reflexivity|apply sublist_nil_l].
  - destruct (f x) as [a|]; [|discriminate]. cbn in *.
    destruct (collect f l2) as [b|]; [|discriminate]. cbn in E. injection E as <-.
    destruct (IH b eq_refl) as (here & -> & Hs). cbn.
    exists (a ++ here). split; [reflexivity|]. apply sublist_app; [reflexivity|exact Hs].
  - destruct (f x) as [a|]; [|discriminate]. cbn in *.
    destruct (collect f l2) as [b|]; [|discriminate]. cbn in E. injection E as <-.
    destruct (IH b eq_refl) as (here & -> & Hs).
    exists here. split; [reflexivity|]. apply sublist_inserts_l. exact Hs.
Qed.

Lemma collect_None {A B : Type} (f : A -> option (list B)) l :
  collect f l = None <-> exists x, x ∈ l /\ f x = None.
Proof.
  induction l as [|x l IH]; cbn [collect].
  - split; [discriminate|]. intros (x & Hx & _). apply elem_of_nil in Hx. contradiction.
  - destruct (f x) as [a|] eqn:Ex; cbn.
    + destruct (collect f l) as [b|]; cbn.
      * split; [discriminate|]. intros (y & Hy & Ey).
        apply elem_of_cons in Hy as [->|Hy]; [congruence|].
        destruct IH as [_ IH]. discriminate IH. eauto.
      * split; [|reflexivity]. intros _. destruct IH as [IH _].
        destruct (IH eq_refl) as (y & Hy & Ey). exists y. split; [right; exact Hy|exact Ey].
    + split; [|reflexivity]. intros _. exists x. split; [left|exact Ex].
Qed.

Lemma pushIfValid_not_object ts v : isObject v = false -> pushIfValid ts v = Some [].
Proof. destruct v; try reflexivity. discriminate. Qed.

(** X14. In the recursive walk (a payload that is an object, here), the
    extraction raises exactly when [pushIfValid] raises on an object inside
    the payload, at any depth.  When it returns, the observations of a
    part of the payload are among those of the whole, in the same order,
    and an object with both coordinates readable, at any depth, yields its
    observation. *)
Theorem walk_finds_nested_records now idx props :
  (extractHourPoints now (JObj props) idx = None <->
   exists r, inside r (JObj props) /\
             pushIfValid (toEpochSecondsFromHourIdx now idx) r = None)
  /\
  (forall pts v,
     extractHourPoints now (JObj props) idx = Some pts ->
     inside v (JObj props) ->
     exists here,
       walk (toEpochSecondsFromHourIdx now idx) v = Some here /\
       sublist here pts /\
       (forall found o,
          pushIfValid (toEpochSecondsFromHourIdx now idx) v = Some found ->
          o ∈ found -> o ∈ pts)).
Proof.
  assert (extractHourPoints now (JObj props) idx
          = collect (pushIfValid (toEpochSecondsFromHourIdx now idx))
              (objectsIn (JObj props))) as E.
  { cbv beta iota zeta delta [extractHourPoints]. apply walk_objects. }
  split.
  - rewrite E, collect_None. split.
    + intros (r & Hr & Hp). exists r. split; [apply elem_of_objectsIn; exact Hr|exact Hp].
    + intros (r & Hr & Hp). exists r. split; [|exact Hp].
      destruct (isObject r) eqn:O;
        [|rewrite (pushIfValid_not_object _ r O) in Hp; discriminate].
      destruct r; try discriminate.
      eapply elem_of_sublist; [|apply objectsIn_inside; exact Hr]. left.
  - intros pts v Hpts Hin. rewrite E in Hpts.
    destruct (collect_sublist _ _ _ (objectsIn_inside v _ Hin) pts Hpts)
      as (here & Hhere & Hsub).
    exists here. rewrite walk_objects. split; [exact Hhere|]. split; [exact Hsub|].
    intros found o Hf Ho. eapply elem_of_sublist; [|exact Hsub].
    destruct (isObject v) eqn:O;
      [|rewrite (pushIfValid_not_object _ v O) in Hf; injection Hf as <-;
        apply elem_of_nil in Ho; contradiction].
    destruct v as [| | | | |vprops]; try discriminate.
    cbn [objectsIn collect] in Hhere. rewrite Hf in Hhere.
    destruct (collect (pushIfValid (toEpochSecondsFromHourIdx now idx))
                (flat_map (fun kv => objectsIn kv.2) vprops)) as [more|];
      [|discriminate Hhere].
    injection Hhere as <-. apply elem_of_app. left. exact Ho.
Qed.
End ExtractionAll.

(** an envelope around a list of records, one of them without longitude *)
Definition envelope : json :=
  JObj [("meta", JObj [("count", JNum 2)]);
        ("data", JArr [recordNorth; recordNoLon; stampedRecord])].

Lemma extracted_coordinates_finite_witness :
  Balloons.extractHourPoints (RT := referenceRuntime) 1700000000123 envelope 2
  = Some [Observation.mk 1699992800 10 20 None; Observation.mk 1600000000 10 20 None] /\
  Forall coordsFinite
    [Observation.mk 1699992800 10 20 None; Observation.mk 1600000000 10 20 None].
Proof.
  split; [vm_compute; reflexivity|].
  destruct (extracted_coordinates_finite (RT := referenceRuntime) 1700000000123 2)
    as [H _].
  apply (H envelope). vm_compute. reflexivity.
Defined.

Lemma extracted_timestamps_are_numbers_witness :
  Forall (fun o => is_nan (Observation.ts o) = false)
    [Observation.mk 1699992800 10 20 None; Observation.mk 1600000000 10 20 None].
Proof.
  apply (extracted_timestamps_are_numbers (RT := referenceRuntime) 1700000000123
           envelope 2).
  - reflexivity.
  - lia.
  - vm_compute. auto 10.
  - vm_compute. reflexivity.
Defined.

Lemma walk_finds_nested_records_witness :
  Observation.mk 1600000000 10 20 None
  ∈ [Observation.mk 1699992800 10 20 None; Observation.mk 1600000000 10 20 None]
  /\
  Balloons.extractHourPoints (RT := referenceRuntime) 1700000000123
    (JObj [("data", JArr [recordNorth; recordOddLat])]) 2 = None.
Proof.
  split.
  - destruct (walk_finds_nested_records (RT := referenceRuntime) 1700000000123 2
                [("meta", JObj [("count", JNum 2)]);
                 ("data", JArr [recordNorth; recordNoLon; stampedRecord])])
      as [_ Hfound].
    destruct (Hfound [Observation.mk 1699992800 10 20 None;
                      Observation.mk 1600000000 10 20 None] stampedRecord)
      as (here & _ & _ & Hin).
    + vm_compute. reflexivity.
    + apply (inside_prop _ _ "data" (JArr [recordNorth; recordNoLon; stampedRecord]));
        [right; left|].
      apply (inside_item _ _ stampedRecord); [right; right; left|apply inside_here].
    + apply (Hin [Observation.mk 1600000000 10 20 None]); [vm_compute; reflexivity|left].
  - apply (walk_finds_nested_records (RT := referenceRuntime) 1700000000123 2
             [("data", JArr [recordNorth; recordOddLat])]).
    exists recordOddLat. split; [|vm_compute; reflexivity].
    apply (inside_prop _ _ "data" (JArr [recordNorth; recordOddLat])); [left|].
    apply (inside_item _ _ recordOddLat); [right; left|apply inside_here].
Defined.

(** ** The text stages of [safeParseJSON] *)

Section TextStages.
Import SafeJson.

Local Open Scope char_scope.

(** does a character of [s] satisfy [f] *)
Fixpoint hasChar (f : ascii -> bool) (s : string) : bool :=
  match s with
  | EmptyString => false
  | String c rest => f c || hasChar f rest
  end.

Definition isOpener (c : ascii) : bool := Ascii.eqb c "[" || Ascii.eqb c "{".
Definition isCloser (c : ascii) : bool := Ascii.eqb c "]" || Ascii.eqb c "}".

Local Open Scope string_scope.

Lemma hasChar_app f s t : hasChar f (s ++ t) = hasChar f s || hasChar f t.
Proof.
  induction s as [|c s IH]; [reflexivity|].
  change (String c s ++ t) with (String c (s ++ t)). cbn [hasChar].
  rewrite IH, orb_assoc. reflexivity.
Qed.

(** *** Stage 4: the first block *)

Lemma uptoLastCloser_None s : uptoLastCloser s = None <-> hasChar isCloser s = false.
Proof.
  induction s as [|c s IH]; cbn [uptoLastCloser hasChar]; [tauto|].
  fold (isCloser c). destruct (uptoLastCloser s) as [p|].
  - split; [discriminate|]. intros H. apply orb_false_elim in H as [_ H].
    apply IH in H. discriminate.
  - destruct (isCloser c); cbn [orb]; [split; discriminate|].
    split; [intros _; apply IH; reflexivity|reflexivity].
Qed.

Lemma uptoLastCloser_Some s p :
  uptoLastCloser s = Some p <->
  exists mid c post,
    s = mid ++ String c post /\ isCloser c = true /\ hasChar isCloser post = false /\
    p = mid ++ String c EmptyString.
Proof.
  revert p. induction s as [|a s IH]; intros p; cbn [uptoLastCloser].
  - split; [discriminate|]. intros (mid & c & post & E & _). destruct mid; discriminate.
  - fold (isCloser a). split.
    + destruct (uptoLastCloser s) as [q|] eqn:Eq.
      * intros H. injection H as <-.
        destruct (proj1 (IH q) eq_refl) as (mid & c & post & -> & Hc & Hpost & ->).
        exists (String a mid), c, post. repeat split; auto.
      * destruct (isCloser a) eqn:Ha; [|discriminate]. intros H. injection H as <-.
        exists EmptyString, a, s. repeat split; auto. apply uptoLastCloser_None. exact Eq.
    + intros (mid & c & post & E & Hc & Hpost & ->). destruct mid as [|b mid].
      * cbn in E. injection E as -> ->.
        rewrite (proj2 (uptoLastCloser_None post) Hpost), Hc. reflexivity.
      * change (String b mid ++ String c post) with (String b (mid ++ String c post)) in E.
        injection E as -> ->.
        rewrite (proj2 (IH (mid ++ String c EmptyString))); [reflexivity|].
        exists mid, c, post. repeat split; auto.
Qed.

Lemma firstBlock_None s : hasChar isOpener s = false -> firstBlock s = None.
Proof.
  induction s as [|c s IH]; cbn [firstBlock hasChar]; [reflexivity|].
  fold (isOpener c). intros H. apply orb_false_elim in H as [-> H]. auto.
Qed.

(** X15. The block of stage 4 runs from the first opening bracket or brace of
    the text to its last closing one, provided one closes after the first
    opens; otherwise there is no block. *)
Theorem firstBlock_spec s m :
  firstBlock s = Some m <->
  exists pre o mid c post,
    s = pre ++ String o (mid ++ String c post) /\
    hasChar isOpener pre = false /\ isOpener o = true /\
    isCloser c = true /\ hasChar isCloser post = false /\
    m = String o (mid ++ String c EmptyString).
Proof.
  revert m. induction s as [|a s IH]; intros m; cbn [firstBlock].
  - split; [discriminate|]. intros (pre & o & mid & c & post & E & _).
    destruct pre; discriminate.
  - fold (isOpener a). split.
    + destruct (isOpener a) eqn:Ha.
      * destruct (uptoLastCloser s) as [p|] eqn:Ep; [|discriminate].
        intros H. injection H as <-.
        apply uptoLastCloser_Some in Ep as (mid & c & post & -> & Hc & Hpost & ->).
        exists EmptyString, a, mid, c, post. repeat split; auto.
      * intros H. apply IH in H as (pre & o & mid & c & post & -> & Hpre & Ho & Hc & Hp & ->).
        exists (String a pre), o, mid, c, post. repeat split; auto.
        cbn [hasChar]. rewrite Ha, Hpre. reflexivity.
    + intros (pre & o & mid & c & post & E & Hpre & Ho & Hc & Hpost & ->).
      destruct pre as [|b pre].
      * cbn in E. injection E as -> ->. rewrite Ho.
        rewrite (proj2 (uptoLastCloser_Some _ (mid ++ String c EmptyString)));
          [reflexivity|].
        exists mid, c, post. repeat split; auto.
      * change (String b pre ++ ?x) with (String b (pre ++ x)) in E.
        injection E as -> ->. cbn [hasChar] in Hpre.
        apply orb_false_elim in Hpre as [-> Hpre].
        apply IH. exists pre, o, mid, c, post. repeat split; auto.
Qed.
End TextStages.

Lemma firstBlock_spec_witness :
  SafeJson.firstBlock "note: {'a': [1, 2]} and } more" = Some "{'a': [1, 2]} and }".
Proof.
  apply firstBlock_spec.
  exists "note: ", "{"%char, "'a': [1, 2]} and ", "}"%char, " more".
  repeat split; reflexivity.
Defined.

(** *** Stage 2: what the clean-up rewrites *)

Section Cleanup.
Import SafeJson.

Local Open Scope char_scope.

Definition isComma (c : ascii) : bool := Ascii.eqb c ",".
Definition isColon (c : ascii) : bool := Ascii.eqb c ":".

Local Open Scope string_scope.

(** [matchAt] matches only at a character that satisfies [f] *)
Definition matchesAt (f : ascii -> bool) (matchAt : string -> option (string * nat))
    : Prop :=
  forall c rest, f c = false -> matchAt (String c rest) = None.

Lemma append_assoc (a b c : string) : (a ++ b) ++ c = a ++ (b ++ c).
Proof.
  induction a as [|x a IH]; [reflexivity|].
  change (String x a ++ ?y) with (String x (a ++ y)).
  change (String x (a ++ b) ++ c) with (String x ((a ++ b) ++ c)).
  rewrite IH. reflexivity.
Qed.

Lemma unfold_replaceAll_0 matchAt c rest :
  replaceAll matchAt 0 (String c rest)
  = match matchAt (String c rest) with
    | Some (rep, S k) => rep ++ replaceAll matchAt k rest
    | _ => String c (replaceAll matchAt 0 rest)
    end.
Proof. reflexivity. Qed.

Lemma replaceAll_untouched f matchAt s :
  matchesAt f matchAt -> hasChar f s = false -> replaceAll matchAt 0 s = s.
Proof.
  intros Hm. induction s as [|c s IH]; [reflexivity|].
  cbn [hasChar replaceAll]. intros H. apply orb_false_elim in H as [Hc Hs].
  rewrite (Hm c s Hc), (IH Hs). reflexivity.
Qed.

Lemma trailingComma_at : matchesAt isComma trailingComma.
Proof.
  intros c rest Hc. unfold trailingComma.
  destruct c as [[] [] [] [] [] [] [] []]; try reflexivity. discriminate.
Qed.

Lemma colonWord_at w : matchesAt isColon (colonWord w).
Proof.
  intros c rest Hc. unfold colonWord.
  destruct c as [[] [] [] [] [] [] [] []]; try reflexivity. discriminate.
Qed.

Lemma singleQuoted_at : matchesAt isColon singleQuoted.
Proof.
  intros c rest Hc. unfold singleQuoted.
  destruct c as [[] [] [] [] [] [] [] []]; try reflexivity. discriminate.
Qed.

Lemma skipSpaces_suffix f s :
  hasChar f s = false -> hasChar f (skipSpaces s).1 = false.
Proof.
  intros H. destruct (skipSpaces_spec s) as (pre & _ & E & _).
  rewrite E, hasChar_app in H. apply orb_false_elim in H as [_ H]. exact H.
Qed.

(** a replacement made of characters that do not satisfy [f] *)
Definition replacesWithout (f : ascii -> bool)
    (matchAt : string -> option (string * nat)) : Prop :=
  forall s rep n, hasChar f s = false -> matchAt s = Some (rep, n) -> hasChar f rep = false.

Lemma replaceAll_preserves f matchAt :
  replacesWithout f matchAt ->
  forall s k, hasChar f s = false -> hasChar f (replaceAll matchAt k s) = false.
Proof.
  intros Hm. induction s as [|c s IH]; intros k H; [reflexivity|].
  pose proof H as Hcs. cbn [hasChar] in H. apply orb_false_elim in H as [Hc Hs].
  cbn [replaceAll]. destruct k as [|k]; [|apply IH; exact Hs].
  destruct (matchAt (String c s)) as [[rep [|n]]|] eqn:E.
  - cbn [hasChar]. rewrite Hc, (IH 0%nat Hs). reflexivity.
  - rewrite hasChar_app, (Hm _ _ _ Hcs E), (IH n Hs). reflexivity.
  - cbn [hasChar]. rewrite Hc, (IH 0%nat Hs). reflexivity.
Qed.

(** the bracket put back in place of a trailing comma is one of the text *)
Lemma trailingComma_replaces f : replacesWithout f trailingComma.
Proof.
  intros s rep n Hs. unfold trailingComma.
  destruct s as [|c rest]; [discriminate|].
  destruct (Ascii.eqb_spec c ","%char) as [->|NE].
  - cbn [hasChar] in Hs. apply orb_false_elim in Hs as [_ Hs].
    pose proof (skipSpaces_suffix f rest Hs) as Hr.
    destruct (skipSpaces rest) as [[|d r] k]; [discriminate|].
    cbn [fst hasChar] in Hr. apply orb_false_elim in Hr as [Hd _].
    destruct (_ || _)%bool; [|discriminate].
    intros E. injection E as <- _. cbn [hasChar]. rewrite Hd. reflexivity.
  - destruct c as [[] [] [] [] [] [] [] []]; try discriminate. congruence.
Qed.

Lemma colonWord_replaces w : replacesWithout isOpener (colonWord w).
Proof.
  intros s rep n _. unfold colonWord.
  destruct s as [|c rest]; [discriminate|].
  destruct (Ascii.eqb_spec c ":"%char) as [->|NE].
  - destruct (skipSpaces rest) as [r k]. destruct (startsWithCI w r); [|discriminate].
    intros E. injection E as <- _. reflexivity.
  - destruct c as [[] [] [] [] [] [] [] []]; try discriminate. congruence.
Qed.

Lemma quotedBody_chars f s body :
  hasChar f s = false -> quotedBody s = Some body -> hasChar f body = false.
Proof.
  revert body. induction s as [|c s IH]; intros body Hs; [discriminate|].
  cbn [hasChar] in Hs. apply orb_false_elim in Hs as [Hc Hs].
  destruct (Ascii.eqb_spec c "'"%char) as [->|NE].
  - cbn [quotedBody]. intros E. injection E as <-. reflexivity.
  - assert (quotedBody (String c s) = option_map (String c) (quotedBody s)) as ->.
    { destruct c as [[] [] [] [] [] [] [] []]; try reflexivity. congruence. }
    destruct (quotedBody s) as [b|]; [|discriminate].
    intros E. injection E as <-. cbn [hasChar]. rewrite Hc, (IH b Hs eq_refl). reflexivity.
Qed.

Lemma singleQuoted_replaces : replacesWithout isOpener singleQuoted.
Proof.
  intros s rep n Hs. unfold singleQuoted.
  destruct s as [|c rest]; [discriminate|].
  destruct (Ascii.eqb_spec c ":"%char) as [->|NE].
  - cbn [hasChar] in Hs. apply orb_false_elim in Hs as [_ Hs].
    pose proof (skipSpaces_suffix isOpener rest Hs) as Hr.
    destruct (skipSpaces rest) as [[|d r] k]; [discriminate|].
    cbn [fst hasChar] in Hr. apply orb_false_elim in Hr as [_ Hr].
    destruct (Ascii.eqb_spec d "'"%char) as [->|NE].
    + destruct (quotedBody r) as [body|] eqn:Eb; [|discriminate].
      intros E. injection E as <- _.
      pose proof (quotedBody_chars isOpener r body Hr Eb) as Hb.
      change (": " ++ dquote ++ body ++ dquote)
        with (String ":"%char (String " "%char (String "034"%char (body ++ dquote)))).
      cbn [hasChar]. rewrite hasChar_app, Hb. reflexivity.
    + destruct d as [[] [] [] [] [] [] [] []]; try discriminate. congruence.
  - destruct c as [[] [] [] [] [] [] [] []]; try discriminate. congruence.
Qed.

Lemma cleanup_no_opener s : hasChar isOpener s = false -> hasChar isOpener (cleanup s) = false.
Proof.
  intros H. unfold cleanup.
  apply replaceAll_preserves; [apply singleQuoted_replaces|].
  do 3 (apply replaceAll_preserves; [apply colonWord_replaces|]).
  apply replaceAll_preserves; [apply trailingComma_replaces|exact H].
Qed.

Lemma cleanup_colon_free s :
  hasChar isColon s = false -> cleanup s = replaceAll trailingComma 0 s.
Proof.
  intros H. unfold cleanup.
  pose proof (replaceAll_preserves isColon trailingComma (trailingComma_replaces isColon)
                s 0%nat H) as H1.
  rewrite (replaceAll_untouched isColon (colonWord "nan") _ (colonWord_at _) H1).
  rewrite (replaceAll_untouched isColon (colonWord "infinity") _ (colonWord_at _) H1).
  rewrite (replaceAll_untouched isColon (colonWord "-infinity") _ (colonWord_at _) H1).
  apply (replaceAll_untouched isColon singleQuoted _ singleQuoted_at H1).
Qed.

(** X16. The clean-up leaves a text without comma and colon as it is. *)
Theorem cleanup_untouched s :
  hasChar isComma s = false -> hasChar isColon s = false -> cleanup s = s.
Proof.
  intros Hcomma Hcolon. rewrite (cleanup_colon_free s Hcolon).
  apply (replaceAll_untouched isComma trailingComma s trailingComma_at Hcomma).
Qed.

(** white space only *)
Definition allSpaces (s : string) : bool := negb (hasChar (fun c => negb (isSpace c)) s).

Lemma skipSpaces_spaces ws r :
  allSpaces ws = true -> spaceWidth r = 0%nat ->
  skipSpaces (ws ++ r) = (r, String.length ws).
Proof.
  unfold allSpaces. intros Hws Hr. apply negb_true_iff in Hws.
  induction ws as [|a ws IH].
  - change (EmptyString ++ r) with r. apply skipSpaces_stop. exact Hr.
  - cbn [hasChar] in Hws. apply orb_false_elim in Hws as [Ha Hws].
    apply negb_false_iff in Ha.
    change (String a ws ++ r) with (String a EmptyString ++ (ws ++ r)).
    rewrite (skipSpaces_char _ _ (isSpace_char a Ha)), (IH Hws). reflexivity.
Qed.

Lemma replaceAll_skip matchAt a b :
  replaceAll matchAt (String.length a) (a ++ b) = replaceAll matchAt 0 b.
Proof.
  induction a as [|c a IH]; [reflexivity|].
  change (String c a ++ b) with (String c (a ++ b)).
  cbn [String.length replaceAll]. exact IH.
Qed.

Lemma isCloser_not_space c t : isCloser c = true -> spaceWidth (String c t) = 0%nat.
Proof.
  unfold isCloser. intros H. apply orb_prop in H as [H|H];
    apply Ascii.eqb_eq in H; subst c; destruct t as [|b [|d t]]; reflexivity.
Qed.

Lemma skipSpaces_length s : String.length s = ((skipSpaces s).2 + String.length (skipSpaces s).1)%nat.
Proof.
  destruct (skipSpaces_spec s) as (pre & _ & E & L & _).
  rewrite E at 1. rewrite string_app_length, L. reflexivity.
Qed.

(** a comma after the text is no part of a white-space character *)
Lemma spaceWidth_before_comma a s rest :
  spaceWidth (String a s ++ String ","%char rest) = spaceWidth (String a s).
Proof.
  change (String a s ++ ?x) with (String a (s ++ x)). cbn [spaceWidth].
  destruct (isSpace a); [reflexivity|].
  destruct s as [|b s].
  - change (EmptyString ++ ?x) with x. cbv beta iota.
    assert (isSpace2 (nat_of_ascii a) (nat_of_ascii ","%char) = false) as ->
      by (unfold isSpace2; apply andb_false_r).
    destruct rest as [|c rest]; [reflexivity|].
    assert (isSpace3 (nat_of_ascii a) (nat_of_ascii ","%char) (nat_of_ascii c) = false)
      as ->; [|reflexivity].
    unfold isSpace3. change (nat_of_ascii ","%char) with 44%nat. cbn [Nat.eqb].
    rewrite !andb_false_r. reflexivity.
  - change (String b s ++ ?x) with (String b (s ++ x)). cbv beta iota.
    destruct (isSpace2 (nat_of_ascii a) (nat_of_ascii b)); [reflexivity|].
    destruct s as [|c s]; [|reflexivity].
    change (EmptyString ++ ?x) with x. cbv beta iota.
    assert (isSpace3 (nat_of_ascii a) (nat_of_ascii b) (nat_of_ascii ","%char) = false)
      as ->; [|reflexivity].
    unfold isSpace3. change (nat_of_ascii ","%char) with 44%nat.
    cbn [Nat.eqb Nat.leb]. rewrite !andb_false_r. reflexivity.
Qed.

(** white space is skipped up to a comma as up to the end of the text *)
Lemma skipSpaces_before_comma s rest :
  skipSpaces (s ++ String ","%char rest)
  = match skipSpaces s with
    | (String d r, n) => (String d (r ++ String ","%char rest), n)
    | (EmptyString, n) => (String ","%char rest, n)
    end.
Proof.
  remember (String.length s) as n eqn:Hn. revert s Hn.
  induction n as [n IH] using lt_wf_ind. intros s Hn.
  destruct s as [|a s].
  { change (EmptyString ++ ?x) with x. apply skipSpaces_stop.
    destruct rest as [|b [|c r]]; reflexivity. }
  destruct (spaceWidth (String a s)) as [|k] eqn:E.
  - rewrite (skipSpaces_stop _ E).
    apply (skipSpaces_stop (String a s ++ String ","%char rest)).
    rewrite spaceWidth_before_comma. exact E.
  - destruct (spaceWidth_char _ k E) as (w & s' & Hw & Es & L). rewrite Es.
    rewrite string_app_assoc, !(skipSpaces_char w _ Hw).
    rewrite (IH (String.length s')); [|rewrite Hn, Es, string_app_length; lia|reflexivity].
    destruct (skipSpaces s') as [[|d r] m]; reflexivity.
Qed.

(** a match that starts before a comma does not reach it *)
Lemma trailingComma_before_comma a s rest :
  trailingComma (String a s ++ String ","%char rest) = trailingComma (String a s).
Proof.
  change (String a s ++ ?x) with (String a (s ++ x)). unfold trailingComma.
  destruct (Ascii.eqb_spec a ","%char) as [->|NE].
  - rewrite skipSpaces_before_comma.
    destruct (skipSpaces s) as [[|d r] n]; reflexivity.
  - destruct a as [[] [] [] [] [] [] [] []]; try reflexivity. congruence.
Qed.

Lemma trailingComma_skip s rep k :
  trailingComma s = Some (rep, S k) -> (k < String.length s)%nat.
Proof.
  unfold trailingComma. destruct s as [|a s]; [discriminate|].
  destruct (Ascii.eqb_spec a ","%char) as [->|NE].
  - pose proof (skipSpaces_length s) as Hlen.
    destruct (skipSpaces s) as [[|d r] n]; [discriminate|].
    destruct (_ || _)%bool; [|discriminate].
    intros E. injection E as _ <-. cbn [fst snd String.length] in *. lia.
  - destruct a as [[] [] [] [] [] [] [] []]; try discriminate. congruence.
Qed.

(** the commas before a comma are treated as if the text ended there *)
Lemma replaceAll_before_comma s rest :
  forall k, (k <= String.length s)%nat ->
    replaceAll trailingComma k (s ++ String ","%char rest)
    = replaceAll trailingComma k s ++ replaceAll trailingComma 0 (String ","%char rest).
Proof.
  induction s as [|a s IH]; intros k Hk.
  - cbn [String.length] in Hk. assert (k = 0%nat) as -> by lia. reflexivity.
  - change (String a s ++ ?x) with (String a (s ++ x)).
    cbn [String.length] in Hk.
    destruct k as [|k]; [|cbn [replaceAll]; apply IH; lia].
    rewrite (unfold_replaceAll_0 _ a (s ++ String ","%char rest)).
    rewrite (unfold_replaceAll_0 _ a s).
    change (String a (s ++ String ","%char rest))
      with (String a s ++ String ","%char rest).
    rewrite trailingComma_before_comma.
    destruct (trailingComma (String a s)) as [[rep [|n]]|] eqn:E.
    + rewrite (IH 0%nat) by lia. reflexivity.
    + apply trailingComma_skip in E. cbn [String.length] in E.
      rewrite (IH n) by lia. rewrite append_assoc. reflexivity.
    + rewrite (IH 0%nat) by lia. reflexivity.
Qed.

Lemma trailingComma_dropped s ws c t :
  allSpaces ws = true -> isCloser c = true ->
  replaceAll trailingComma 0 (s ++ String ","%char (ws ++ String c t))
  = replaceAll trailingComma 0 s ++ String c (replaceAll trailingComma 0 t).
Proof.
  intros Hws Hc. rewrite replaceAll_before_comma by lia. f_equal.
  cbn [replaceAll]. unfold trailingComma at 1.
  rewrite (skipSpaces_spaces ws (String c t) Hws (isCloser_not_space c t Hc)).
  assert ((Ascii.eqb c "}" || Ascii.eqb c "]") = true) as ->
      by (rewrite orb_comm; exact Hc).
  change (String c EmptyString ++ ?x) with (String c x). f_equal.
  change (String c t) with (String c EmptyString ++ t).
  rewrite <- append_assoc.
  replace (S (String.length ws)) with (String.length (ws ++ String c EmptyString)).
  - apply replaceAll_skip.
  - clear. induction ws as [|b ws IH]; [reflexivity|].
    change (String b ws ++ ?x) with (String b (ws ++ x)). cbn [String.length].
    rewrite IH. reflexivity.
Qed.

(** X17. In a text without colon (rows of numbers, as the feed sends them), a
    comma that only white space separates from a closing bracket or brace
    is removed together with the white space, and the text before it and
    the text after the bracket are cleaned up on their own. *)
Theorem trailing_comma_removed s ws c t :
  allSpaces ws = true -> isCloser c = true ->
  hasChar isColon (s ++ String ","%char (ws ++ String c t)) = false ->
  cleanup (s ++ String ","%char (ws ++ String c t)) = cleanup s ++ String c (cleanup t).
Proof.
  intros Hws Hc Hcolon.
  rewrite (cleanup_colon_free _ Hcolon), (trailingComma_dropped s ws c t Hws Hc).
  rewrite hasChar_app in Hcolon. apply orb_false_elim in Hcolon as [Hs Hcolon].
  cbn [hasChar] in Hcolon. apply orb_false_elim in Hcolon as [_ Hcolon].
  rewrite hasChar_app in Hcolon. apply orb_false_elim in Hcolon as [_ Hcolon].
  cbn [hasChar] in Hcolon. apply orb_false_elim in Hcolon as [_ Hcolon].
  rewrite (cleanup_colon_free t Hcolon), (cleanup_colon_free s Hs). reflexivity.
Qed.
End Cleanup.

Lemma cleanup_untouched_witness : SafeJson.cleanup "[[10 20] [30 40]]" = "[[10 20] [30 40]]".
Proof. apply cleanup_untouched; reflexivity. Defined.

Lemma trailing_comma_removed_witness :
  SafeJson.cleanup "[[1, 2,], [3, 4] ,  ]" = "[[1, 2], [3, 4] ]".
Proof.
  exact (trailing_comma_removed "[[1, 2,], [3, 4] " "  " "]"%char "" eq_refl eq_refl eq_refl).
Defined.

(** *** Stage 3: the lines *)

Section Lines.
Import SafeJson.

Local Open Scope char_scope.

Definition isLF (c : ascii) : bool := Ascii.eqb c "010".

(** no carriage return is followed by a line feed *)
Fixpoint crlfFree (s : string) : bool :=
  match s with
  | EmptyString => true
  | String c rest =>
      negb (Ascii.eqb c "013"
            && match rest with String d _ => Ascii.eqb d "010" | EmptyString => false end)
      && crlfFree rest
  end.

Local Open Scope string_scope.

(** the characters of the lines are characters of the text *)
Lemma splitLines_chars f s :
  hasChar f s = false -> Forall (fun l => hasChar f l = false) (splitLines s).
Proof.
  induction s as [|c s IH]; intros H.
  - repeat constructor.
  - cbn [hasChar] in H. apply orb_false_elim in H as [Hc Hs]. specialize (IH Hs).
    destruct (Ascii.eqb_spec c "010"%char) as [->|Hlf];
      [rewrite splitLines_LF; constructor; [reflexivity|exact IH]|].
    destruct (Ascii.eqb_spec c "013"%char) as [->|Hcr].
    + destruct s as [|d r]; [repeat constructor; cbn; rewrite Hc; reflexivity|].
      destruct (Ascii.eqb_spec d "010"%char) as [->|Hd].
      * change (splitLines (String "013" (String "010" r)))
          with (EmptyString :: splitLines r).
        rewrite splitLines_LF in IH. exact IH.
      * rewrite splitLines_other by (try discriminate; intros _ r' E; congruence).
        destruct (splitLines (String d r)) as [|l ls]; [repeat constructor; cbn; rewrite Hc; reflexivity|].
        inversion IH; subst. constructor; [cbn [hasChar]; rewrite Hc; assumption|assumption].
    + rewrite splitLines_other by (try assumption; intros E; congruence).
      destruct (splitLines s) as [|l ls]; [repeat constructor; cbn; rewrite Hc; reflexivity|].
      inversion IH; subst. constructor; [cbn [hasChar]; rewrite Hc; assumption|assumption].
Qed.
Lemma concat_cons sep x xs :
  xs <> [] -> String.concat sep (x :: xs) = x ++ sep ++ String.concat sep xs.
Proof. destruct xs; [congruence|reflexivity]. Qed.

Lemma crlfFree_tail c s : crlfFree (String c s) = true -> crlfFree s = true.
Proof. cbn [crlfFree]. intros H. apply andb_prop in H as [_ H]. exact H. Qed.

Lemma splitLines_join s :
  crlfFree s = true -> String.concat (String "010" EmptyString) (splitLines s) = s.
Proof.
  induction s as [|c s IH]; intros H; [reflexivity|].
  pose proof (IH (crlfFree_tail c s H)) as E.
  destruct (Ascii.eqb_spec c "010"%char) as [->|Hlf].
  - rewrite splitLines_LF, concat_cons by apply splitLines_nonempty.
    rewrite E. reflexivity.
  - assert (c = "013"%char -> forall r, s <> String "010" r) as Hcr.
    { intros -> r ->. discriminate. }
    rewrite (splitLines_other c s Hlf Hcr).
    pose proof (splitLines_nonempty s) as Hne.
    destruct (splitLines s) as [|l ls]; [congruence|].
    destruct ls as [|l2 ls].
    + cbn [String.concat] in *. rewrite E. reflexivity.
    + rewrite concat_cons by discriminate. rewrite concat_cons in E by discriminate.
      change (String c l ++ ?x) with (String c (l ++ x)). rewrite E. reflexivity.
Qed.

(** X18. Splitting into lines loses nothing but the line breaks: there is at
    least one line, no line holds a line feed, and, when no carriage return
    precedes a line feed, joining the lines with line feeds gives the text
    back. *)
Theorem splitLines_round_trip s :
  splitLines s <> [] /\
  Forall (fun l => hasChar isLF l = false) (splitLines s) /\
  (crlfFree s = true -> String.concat (String "010" EmptyString) (splitLines s) = s).
Proof.
  split; [apply splitLines_nonempty|]. split; [|apply splitLines_join].
  induction s as [|c s IH]; [repeat constructor|].
  destruct (Ascii.eqb_spec c "010"%char) as [->|Hlf];
    [rewrite splitLines_LF; constructor; [reflexivity|exact IH]|].
  assert (isLF c = false) as Hc by (apply Ascii.eqb_neq; exact Hlf).
  destruct (Ascii.eqb_spec c "013"%char) as [->|Hcr].
  - destruct s as [|d r]; [repeat constructor|].
    destruct (Ascii.eqb_spec d "010"%char) as [->|Hd].
    + change (splitLines (String "013" (String "010" r)))
        with (EmptyString :: splitLines r).
      rewrite splitLines_LF in IH. exact IH.
    + rewrite splitLines_other by (try discriminate; intros _ r' E; congruence).
      destruct (splitLines (String d r)) as [|l ls]; [repeat constructor|].
      inversion IH; subst. constructor; [cbn [hasChar]; assumption|assumption].
  - rewrite splitLines_other by (try assumption; intros E; congruence).
    destruct (splitLines s) as [|l ls];
      [repeat constructor; cbn [hasChar]; rewrite Hc; reflexivity|].
    inversion IH; subst.
    constructor; [cbn [hasChar]; rewrite Hc; assumption|assumption].
Qed.

Lemma trimStart_chars f s : hasChar f s = false -> hasChar f (trimStart s) = false.
Proof. apply skipSpaces_suffix. Qed.

Lemma trimEnd_chars f s : hasChar f s = false -> hasChar f (trimEnd s) = false.
Proof.
  intros H. destruct (trimEnd_spec s) as (post & _ & E & _).
  rewrite E, hasChar_app in H. apply orb_false_elim in H as [H _]. exact H.
Qed.

Lemma looksLikeRecord_opener l : looksLikeRecord l = true -> hasChar isOpener l = true.
Proof.
  destruct l as [|c l]; [discriminate|]. cbn [looksLikeRecord hasChar].
  unfold isOpener. rewrite (orb_comm (Ascii.eqb c "[")). intros ->. reflexivity.
Qed.

(** a text without opening bracket or brace has no line for stage 3 *)
Lemma jsonlLines_none s : hasChar isOpener s = false -> jsonlLines s = [].
Proof.
  intros H. unfold jsonlLines. apply filter_none.
  rewrite Forall_forall. intros l Hl.
  apply list_elem_of_In, in_map_iff in Hl as (raw & <- & Hraw).
  pose proof (splitLines_chars isOpener s H) as Hall. rewrite Forall_forall in Hall.
  pose proof (Hall raw ltac:(apply list_elem_of_In; exact Hraw)) as Hr.
  destruct (looksLikeRecord (trim raw)) eqn:E; [|reflexivity].
  apply looksLikeRecord_opener in E. unfold trim in E.
  rewrite (trimEnd_chars _ _ (trimStart_chars _ _ Hr)) in E. discriminate.
Qed.

Lemma stripBOM_chars f s : hasChar f s = false -> hasChar f (stripBOM s) = false.
Proof.
  intros H.
  assert (exists pre, s = pre ++ stripBOM s) as (pre & E).
  { destruct s as [|a s1]; [exists EmptyString; reflexivity|].
    destruct (Ascii.eqb_spec a "239"%char) as [->|NE];
      [|exists EmptyString; destruct a as [[] [] [] [] [] [] [] []];
        try reflexivity; congruence].
    destruct s1 as [|b s2]; [exists EmptyString; reflexivity|].
    destruct (Ascii.eqb_spec b "187"%char) as [->|NE];
      [|exists EmptyString; destruct b as [[] [] [] [] [] [] [] []];
        try reflexivity; congruence].
    destruct s2 as [|c s3]; [exists EmptyString; reflexivity|].
    destruct (Ascii.eqb_spec c "191"%char) as [->|NE];
      [|exists EmptyString; destruct c as [[] [] [] [] [] [] [] []];
        try reflexivity; congruence].
    exists (String "239" (String "187" (String "191" EmptyString))). reflexivity. }
  rewrite E, hasChar_app in H. apply orb_false_elim in H as [_ H]. exact H.
Qed.
End Lines.

Section BracketFree.
Context {RT : Runtime}.
Import SafeJson.

(** X19. A text without opening bracket or brace gets nothing from the recovery
    of lines and of the first block: its result is that of parsing it
    directly, then after the clean-up, and [null] when both fail. *)
Theorem bracket_free_text text :
  hasChar isOpener text = false ->
  safeParseJSON text
  = match JSON_parse (stripBOM text) with
    | Some v => Some v
    | None => JSON_parse (cleanup (stripBOM text))
    end.
Proof.
  intros H. unfold safeParseJSON.
  destruct (JSON_parse (stripBOM text)); [reflexivity|].
  destruct (JSON_parse (cleanup (stripBOM text))); [reflexivity|].
  pose proof (cleanup_no_opener _ (stripBOM_chars _ _ H)) as Hc.
  unfold parseJsonl. rewrite (jsonlLines_none _ Hc). cbn [length Nat.ltb Nat.leb].
  rewrite (firstBlock_None _ Hc). reflexivity.
Qed.
End BracketFree.

Lemma splitLines_round_trip_witness :
  SafeJson.splitLines ("[1, 2]" ++ lineFeed ++ lineFeed ++ "[3, 4]")
  = ["[1, 2]"; ""; "[3, 4]"] /\
  String.concat lineFeed (SafeJson.splitLines ("[1, 2]" ++ lineFeed ++ lineFeed ++ "[3, 4]"))
  = ("[1, 2]" ++ lineFeed ++ lineFeed ++ "[3, 4]")%string.
Proof.
  split; [reflexivity|].
  apply (splitLines_round_trip ("[1, 2]" ++ lineFeed ++ lineFeed ++ "[3, 4]")).
  reflexivity.
Defined.

Lemma bracket_free_text_witness :
  SafeJson.safeParseJSON (RT := referenceRuntime) "<html>502 Bad Gateway</html>" = None /\
  SafeJson.safeParseJSON (RT := referenceRuntime) " 42 " = Some (JNum 42).
Proof.
  split.
  - rewrite (bracket_free_text (RT := referenceRuntime)) by reflexivity.
    vm_compute. reflexivity.
  - rewrite (bracket_free_text (RT := referenceRuntime)) by reflexivity.
    vm_compute. reflexivity.
Defined.

(** ** The segments the page draws *)

Section SegmenterFacts.
Context {RT : Runtime}.
Import Page.

Lemma runsFrom_concat maxHopKm rest :
  forall a, (runsFrom maxHopKm a rest).1 ++ concat (runsFrom maxHopKm a rest).2 = a :: rest.
Proof.
  induction rest as [|b rest IH]; intros a; [reflexivity|].
  cbn [runsFrom]. specialize (IH b).
  destruct (runsFrom maxHopKm b rest) as [run more]. cbn [fst snd] in IH.
  destruct (breaksBetween maxHopKm a b); cbn [fst snd concat app]; rewrite IH; reflexivity.
Qed.

(** the runs, put end to end, are the list *)
Lemma runs_concat maxHopKm l : concat (runs maxHopKm l) = l.
Proof.
  destruct l as [|a rest]; [reflexivity|]. unfold runs.
  pose proof (runsFrom_concat maxHopKm rest a) as H.
  destruct (runsFrom maxHopKm a rest) as [run more]. exact H.
Qed.

Lemma plottable_lengths l : Forall (fun seg => (2 <= length seg)%nat) (plottable l).
Proof.
  unfold plottable. induction l as [|run l IH]; [constructor|].
  cbn [List.filter]. destruct (2 <=? length run)%nat eqn:E; [|exact IH].
  cbn [List.map]. constructor; [|exact IH].
  rewrite length_map. apply Nat.leb_le. exact E.
Qed.

Lemma plottable_sublist l : sublist (concat (plottable l)) (List.map coord (concat l)).
Proof.
  unfold plottable. induction l as [|run l IH]; [constructor|].
  cbn [List.filter concat]. rewrite List.map_app.
  destruct (2 <=? length run)%nat.
  - cbn [List.map concat]. apply sublist_app; [reflexivity|exact IH].
  - apply sublist_inserts_l. exact IH.
Qed.

(** no step of the list breaks *)
Fixpoint unbroken (maxHopKm : float) (l : list Observation.t) : bool :=
  match l with
  | a :: (b :: _) as rest => negb (breaksBetween maxHopKm a b) && unbroken maxHopKm rest
  | _ => true
  end.

Lemma runsFrom_unbroken maxHopKm rest :
  forall a, unbroken maxHopKm (a :: rest) = true ->
            runsFrom maxHopKm a rest = (a :: rest, []).
Proof.
  induction rest as [|b rest IH]; intros a H; [reflexivity|].
  cbn [unbroken] in H. apply andb_prop in H as [Hab H].
  apply negb_true_iff in Hab. cbn [runsFrom]. rewrite (IH b H), Hab. reflexivity.
Qed.

(** [filtered]: the points at or after the cut-off *)
Definition filtered (pts : list Observation.t) (cutoffTs : float) : list Observation.t :=
  List.filter (fun p => cutoffTs <=? Observation.ts p) pts.

(** X20. Every segment has at least two points, and the segments hold, in
    order, points kept by the cut-off and nothing else. *)
Theorem segments_have_two_points pts cutoffTs maxHopKm :
  Forall (fun seg => (2 <= length seg)%nat) (splitByDatelineAndHops pts cutoffTs maxHopKm) /\
  sublist (concat (splitByDatelineAndHops pts cutoffTs maxHopKm))
    (List.map coord (filtered pts cutoffTs)).
Proof.
  rewrite splitByDatelineAndHops_spec. unfold segmentsSpec, filtered.
  split; [apply plottable_lengths|].
  pose proof (plottable_sublist
                (runs maxHopKm (List.filter (fun p => cutoffTs <=? Observation.ts p) pts)))
    as H.
  rewrite runs_concat in H. exact H.
Qed.

(** X21. When no step between the points kept by the cut-off breaks, there is
    one segment, with all of them; when fewer than two points are kept,
    there is no segment. *)
Theorem unbroken_track_is_one_segment pts cutoffTs maxHopKm :
  (unbroken maxHopKm (filtered pts cutoffTs) = true ->
   (2 <= length (filtered pts cutoffTs))%nat ->
   splitByDatelineAndHops pts cutoffTs maxHopKm
   = [List.map coord (filtered pts cutoffTs)]) /\
  ((length (filtered pts cutoffTs) < 2)%nat ->
   splitByDatelineAndHops pts cutoffTs maxHopKm = []).
Proof.
  rewrite splitByDatelineAndHops_spec. unfold segmentsSpec, filtered.
  destruct (List.filter (fun p => cutoffTs <=? Observation.ts p) pts) as [|a [|b rest]].
  - split; [cbn [length]; lia|reflexivity].
  - split; [cbn [length]; lia|reflexivity].
  - split; [|cbn [length]; lia].
    intros Hu _. unfold runs. rewrite (runsFrom_unbroken _ _ _ Hu). reflexivity.
Qed.
End SegmenterFacts.

Lemma unbroken_track_is_one_segment_witness :
  Page.splitByDatelineAndHops (RT := referenceRuntime)
    ((fun i => moverAt i) <$> [4; 3; 2; 1; 0]%nat) 1699990000 Page.pageMaxHopKm
  = [[(10, Observation.lon (moverAt 2)); (10, Observation.lon (moverAt 1));
      (10, Observation.lon (moverAt 0))]]
  /\
  Page.splitByDatelineAndHops (RT := referenceRuntime)
    ((fun i => moverAt i) <$> [4; 3; 2; 1; 0]%nat) 1699999000 Page.pageMaxHopKm
  = [].
Proof.
  destruct (unbroken_track_is_one_segment (RT := referenceRuntime)
              ((fun i => moverAt i) <$> [4; 3; 2; 1; 0]%nat) 1699990000 Page.pageMaxHopKm)
    as [Hone _].
  destruct (unbroken_track_is_one_segment (RT := referenceRuntime)
              ((fun i => moverAt i) <$> [4; 3; 2; 1; 0]%nat) 1699999000 Page.pageMaxHopKm)
    as [_ Hnone].
  split.
  - rewrite Hone; [vm_compute; reflexivity|vm_compute; reflexivity|vm_compute; lia].
  - apply Hnone. vm_compute. lia.
Defined.

(** ** The segments and their tooltips *)

Section PageFacts.
Context {RT : Runtime}.
Import PageMemo.

Local Open Scope string_scope.

Lemma tooltip_prefix s rest :
  hasChar isColon s = false -> tooltip (s ++ String ":" rest) = s.
Proof.
  induction s as [|c s IH]; intros H; [reflexivity|].
  cbn [hasChar] in H. apply orb_false_elim in H as [Hc Hs].
  change (String c s ++ ?x) with (String c (s ++ x)). cbn [tooltip].
  unfold isColon in Hc. rewrite Hc, (IH Hs). reflexivity.
Qed.

Lemma trackName_no_colon n : hasChar isColon (Balloons.trackName n) = false.
Proof.
  unfold Balloons.trackName.
  change ("T" ++ ?x) with (String "T" x). cbn [hasChar].
  change (isColon "T") with false. cbn [orb].
  induction (Nat.to_uint n) as [|d IH|d IH|d IH|d IH|d IH|d IH|d IH|d IH|d IH|d IH];
    cbn [NilEmpty.string_of_uint hasChar]; [reflexivity|..]; exact IH.
Qed.

(** X22. Each drawn segment has at least two points and belongs to a track whose
    id its tooltip shows, when that id holds no colon; the ids the linker
    gives hold none. *)
Theorem segment_tooltip_is_track_id tracks cutoff :
  Forall (fun s => (2 <= length s.2)%nat /\
                   exists t, t ∈ tracks /\
                             (hasChar isColon (id t) = false -> tooltip s.1 = id t))
    (segments tracks cutoff) /\
  (forall n, hasChar isColon (Balloons.trackName n) = false).
Proof.
  split; [|apply trackName_no_colon].
  unfold segments. rewrite Forall_forall. intros [sid seg] Hin.
  apply list_elem_of_In, in_flat_map in Hin as (t & Ht & Hin).
  apply list_elem_of_In, elem_of_lookup_imap in Hin as (idx & seg' & E & Hseg).
  injection E as -> ->. cbn [fst snd]. split.
  - pose proof (plottable_lengths (runs 800 (filtered (points t) cutoff))) as Hlen.
    change (plottable _) with (segmentsSpec (points t) cutoff 800) in Hlen.
    rewrite <- (splitByDatelineAndHops_spec (points t) cutoff 800) in Hlen.
    rewrite Forall_forall in Hlen. apply Hlen.
    eapply list_elem_of_lookup_2. exact Hseg.
  - exists t. split; [apply list_elem_of_In; exact Ht|].
    intros Hid. apply tooltip_prefix. exact Hid.
Qed.
End PageFacts.

(** the crossing as track [T7] of the page *)
Lemma segment_tooltip_is_track_id_witness :
  (PageMemo.tooltip <$>
     (fst <$> PageMemo.segments (RT := referenceRuntime)
                [{| PageMemo.id := "T7"; PageMemo.points := crossing |}] 1700000000))
  = ["T7"; "T7"]
  /\
  Forall (fun s => (2 <= length s.2)%nat /\
                   exists t, t ∈ [{| PageMemo.id := "T7"; PageMemo.points := crossing |}] /\
                             (hasChar isColon (PageMemo.id t) = false ->
                              PageMemo.tooltip s.1 = PageMemo.id t))
    (PageMemo.segments (RT := referenceRuntime)
       [{| PageMemo.id := "T7"; PageMemo.points := crossing |}] 1700000000).
Proof.
  split; [vm_compute; reflexivity|].
  apply (segment_tooltip_is_track_id (RT := referenceRuntime)).
Defined.

(** ** Equally close tracks: the one opened first is chosen *)

Section LinkerTies.
Context {RT : Runtime}.
Import Balloons FloatFacts.

Lemma scanTracks_earliest p used trs :
  forall t bi bk b km,
    is_nan bk = false ->
    (forall b0, bi = Some b0 -> (b0 < t)%nat) ->
    scanTracks p used trs t bi bk = (Some b, km) ->
    forall j tr' km',
      trs !! j = Some tr' -> candidateKm p used tr' = Some km' ->
      is_nan km' = false -> (t + j < b)%nat -> (km <? km') = true.
Proof.
  induction trs as [|tr rest IH]; intros t bi bk b km Hbk Hbi E j tr' km' Hj Hc Hn Hlt;
    [rewrite lookup_nil in Hj; discriminate|].
  rewrite scanTracks_cons in E.
  assert (forall bi1 bk1,
            is_nan bk1 = false -> (forall b0, bi1 = Some b0 -> (b0 < S t)%nat) ->
            scanTracks p used rest (S t) bi1 bk1 = (Some b, km) ->
            (j = 0%nat -> (bk1 <=? km') = true) ->
            (km <? km') = true) as Hrest.
  { intros bi1 bk1 Hbk1 Hbi1 E1 Hhead. destruct j as [|j].
    - specialize (Hhead eq_refl).
      destruct (scanTracks_spec p used rest (S t) bi1 bk1)
        as [[E2 _]|(j2 & tr2 & km2 & E2 & _ & _ & Hlt2 & _)]; rewrite E2 in E1.
      + injection E1 as -> ->. specialize (Hbi1 b eq_refl). lia.
      + injection E1 as _ <-. eapply ltb_leb_trans; eassumption.
    - cbn in Hj. eapply (IH (S t) bi1 bk1 b km Hbk1 Hbi1 E1 j tr' km'); eauto. lia. }
  destruct (candidateKm p used tr) as [km0|] eqn:C.
  - destruct (km0 <? bk) eqn:L.
    + eapply Hrest; [exact (proj1 (ltb_nonnan _ _ L))| |exact E|].
      * intros b0 Hb0. injection Hb0 as <-. lia.
      * intros ->. cbn in Hj. injection Hj as <-. rewrite C in Hc. injection Hc as <-.
        apply leb_refl. exact Hn.
    + eapply Hrest; [exact Hbk| |exact E|].
      * intros b0 Hb0. specialize (Hbi b0 Hb0). lia.
      * intros ->. cbn in Hj. injection Hj as <-. rewrite C in Hc. injection Hc as <-.
        apply ltb_false_leb; assumption.
  - eapply Hrest; [exact Hbk| |exact E|].
    + intros b0 Hb0. specialize (Hbi b0 Hb0). lia.
    + intros ->. cbn in Hj. injection Hj as <-. congruence.
Qed.

(** X23. The track [bestTrack] returns is the first of the candidates at the
    least distance: no candidate is closer, and every candidate before it,
    at a distance that is a number, is farther. *)
Theorem first_of_the_closest_is_chosen p used trs b :
  bestTrack p used trs = Some b ->
  exists tr km,
    trs !! b = Some tr /\ candidateKm p used tr = Some km /\
    (forall j tr' km', trs !! j = Some tr' -> candidateKm p used tr' = Some km' ->
                       (km' <? km) = false) /\
    (forall j tr' km', (j < b)%nat -> trs !! j = Some tr' ->
                       candidateKm p used tr' = Some km' -> is_nan km' = false ->
                       (km <? km') = true).
Proof.
  unfold bestTrack. intros H.
  destruct (scanTracks_spec p used trs 0 None infinity)
    as [[E A]|(j & tr & km & E & Hj & Hc & Hlt & A)]; rewrite E in H; cbn [fst] in H;
    [discriminate|].
  injection H as <-. exists tr, km. split; [exact Hj|]. split; [exact Hc|].
  split; [exact A|].
  intros j' tr' km' Hlt' Hj' Hc' Hn.
  eapply (scanTracks_earliest p used trs 0 None infinity j km); eauto.
  intros b0 Hb0. discriminate.
Qed.
End LinkerTies.

(** two open tracks at the same distance from the observation *)
Lemma first_of_the_closest_is_chosen_witness :
  Balloons.bestTrack (RT := referenceRuntime) (moverAt 0) ∅
    [Track.mk "T1" [Balloons.withId (moverAt 1) "T1"];
     Track.mk "T2" [Balloons.withId (moverAt 1) "T2"]] = Some 0%nat
  /\
  exists tr km,
    [Track.mk "T1" [Balloons.withId (moverAt 1) "T1"];
     Track.mk "T2" [Balloons.withId (moverAt 1) "T2"]] !! 0%nat = Some tr /\
    candidateKm (RT := referenceRuntime) (moverAt 0) ∅ tr = Some km.
Proof.
  assert (Balloons.bestTrack (RT := referenceRuntime) (moverAt 0) ∅
            [Track.mk "T1" [Balloons.withId (moverAt 1) "T1"];
             Track.mk "T2" [Balloons.withId (moverAt 1) "T2"]] = Some 0%nat) as E
      by (vm_compute; reflexivity).
  split; [exact E|].
  destruct (first_of_the_closest_is_chosen (RT := referenceRuntime) _ _ _ _ E)
    as (tr & km & Hb & Hc & _).
  exists tr, km. split; assumption.
Defined.

(** ** The fires route *)

Section FiresFacts.
Context {RT : Runtime}.
Variable parse : string -> list (list (string * json)).
Import Fires.

(** a body that is not blank *)
Definition answers (resp : option string) : bool :=
  match tryFetch resp with Some _ => true | None => false end.

Lemma firstCsv_first pre csv post :
  Forall (fun resp => answers resp = false) pre -> tryFetch (Some csv) = Some csv ->
  firstCsv (pre ++ Some csv :: post) = Some csv.
Proof.
  intros Hpre Hcsv. induction Hpre as [|resp pre Hresp _ IH].
  - cbn [app firstCsv]. rewrite Hcsv. reflexivity.
  - cbn [app firstCsv]. unfold answers in Hresp.
    destruct (tryFetch resp); [discriminate|exact IH].
Qed.

Lemma firstCsv_none candidates :
  Forall (fun resp => answers resp = false) candidates -> firstCsv candidates = None.
Proof.
  induction 1 as [|resp rest Hresp _ IH]; [reflexivity|].
  cbn [firstCsv]. unfold answers in Hresp.
  destruct (tryFetch resp); [discriminate|exact IH].
Qed.

(** a value that is no array and no object, as the parser of the file
    yields them *)
Definition primitive (v : json) : bool :=
  match v with JArr _ | JObj _ => false | _ => true end.

Definition primitiveOpt (v : option json) : Prop :=
  match v with Some v => primitive v = true | None => True end.

Lemma getProp_primitive row k :
  Forall (fun kv => primitive kv.2 = true) row -> primitiveOpt (getProp (JObj row) k).
Proof.
  cbn [getProp]. induction 1 as [|[k' v] rest Hv _ IH]; [exact I|].
  cbn [lookup_key]. destruct (String.eqb k k'); [exact Hv|exact IH].
Qed.

Lemma coalesce_primitive a b : primitiveOpt a -> primitiveOpt b -> primitiveOpt (a ?? b).
Proof. destruct a as [[]|]; cbn; auto. Qed.

Lemma NumberOpt_primitive v : primitiveOpt v -> exists x, NumberOpt v = Some x.
Proof. destruct v as [[| [] | | | |]|]; cbn; try discriminate; eauto. Qed.

Lemma ToStringOpt_primitive v : primitiveOpt v -> exists s, ToStringOpt v = Some s.
Proof. destruct v as [[| [] | | | |]|]; cbn; try discriminate; eauto. Qed.

Lemma fireOf_primitive row :
  Forall (fun kv => primitive kv.2 = true) row -> exists f, fireOf row = Some f.
Proof.
  intros H. pose proof (fun k => getProp_primitive row k H) as G.
  unfold fireOf. cbv zeta.
  destruct (NumberOpt_primitive
              (getProp (JObj row) "latitude" ?? getProp (JObj row) "Latitude"
               ?? getProp (JObj row) "lat")) as [x1 ->];
    [repeat apply coalesce_primitive; apply G|].
  destruct (NumberOpt_primitive
              (getProp (JObj row) "longitude" ?? getProp (JObj row) "Longitude"
               ?? getProp (JObj row) "lon")) as [x2 ->];
    [repeat apply coalesce_primitive; apply G|].
  destruct (NumberOpt_primitive
              (getProp (JObj row) "confidence" ?? getProp (JObj row) "confidence_text"
               ?? getProp (JObj row) "confidence_level" ?? getProp (JObj row) "conf"))
    as [x3 ->]; [repeat apply coalesce_primitive; apply G|].
  destruct (NumberOpt_primitive (getProp (JObj row) "frp")) as [x4 ->]; [apply G|].
  destruct (ToStringOpt_primitive (getProp (JObj row) "acq_date")) as [s1 ->]; [apply G|].
  destruct (ToStringOpt_primitive (getProp (JObj row) "acq_time")) as [s2 ->]; [apply G|].
  cbn [mbind option_bind fmap option_fmap option_map].
  destruct (notNullish (getProp (JObj row) "frp"));
    destruct (truthyOpt (getProp (JObj row) "acq_date")
              && truthyOpt (getProp (JObj row) "acq_time"));
    cbn [mbind option_bind]; eexists; reflexivity.
Qed.

Lemma GET_unfold_csv candidates csv :
  firstCsv candidates = Some csv ->
  GET parse candidates
  = (fires ← mapM fireOf (parse csv);
     Some (List.filter (fun f => isFinite (lat f) && isFinite (lon f)) fires)).
Proof. intros H. unfold GET. rewrite H. reflexivity. Qed.

(** X24. Every fire of the answer has a finite latitude and a finite longitude,
    and there are at most as many fires as the chosen file has rows; the
    rows whose coordinates are not finite numbers are left out, the others
    kept in order.  The handler raises only if a conversion of a value of
    a row does: it answers when the rows hold no array and no object. *)
Theorem fires_have_finite_coordinates candidates :
  (forall fires, GET parse candidates = Some fires ->
     Forall (fun f => is_finite (lat f) = true /\ is_finite (lon f) = true) fires) /\
  (forall csv, firstCsv candidates = Some csv ->
     GET parse candidates
     = (fires ← mapM fireOf (parse csv);
        Some (List.filter (fun f => isFinite (lat f) && isFinite (lon f)) fires)) /\
     (forall fires, GET parse candidates = Some fires ->
        (length fires <= length (parse csv))%nat) /\
     (Forall (fun row => Forall (fun kv => primitive kv.2 = true) row) (parse csv) ->
      exists fires, GET parse candidates = Some fires)) /\
  (firstCsv candidates = None -> GET parse candidates = Some []).
Proof.
  split; [|split].
  - intros fires. unfold GET.
    destruct (firstCsv candidates) as [csv|]; [|intros [= <-]; constructor].
    destruct (mapM fireOf (parse csv)) as [all|]; [|discriminate].
    intros [= <-]. rewrite Forall_forall. intros f Hf.
    apply list_elem_of_In, filter_In in Hf as [_ Hf].
    apply andb_prop in Hf. exact Hf.
  - intros csv Hcsv. rewrite (GET_unfold_csv _ _ Hcsv). split; [reflexivity|]. split.
    + intros fires. destruct (mapM fireOf (parse csv)) as [all|] eqn:E; [|discriminate].
      intros [= <-]. etransitivity; [apply filter_length_le|].
      rewrite <- (length_mapM _ _ _ E). reflexivity.
    + intros Hrows.
      assert (exists all, mapM fireOf (parse csv) = Some all) as [all ->].
      { apply mapM_is_Some_2. rewrite Forall_forall in *. intros row Hrow.
        destruct (fireOf_primitive row (Hrows row Hrow)) as [f Hf].
        cbn. rewrite Hf. eexists. reflexivity. }
      eexists. reflexivity.
  - intros H. unfold GET. rewrite H. reflexivity.
Qed.

(** a body is blank when it is white space from end to end *)
Lemma trim_empty text : SafeJson.trim text = EmptyString <-> whiteSpace text.
Proof.
  split.
  - intros E. destruct (trim_trimmed text) as [(before & after & Hb & Ha & Et) _].
    rewrite E in Et. rewrite Et. apply whiteSpace_app; [exact Hb|exact Ha].
  - intros H. apply blank_whiteSpace in H. unfold SafeJson.trim.
    unfold SafeJson.blank in H. destruct (SafeJson.trimStart text); [reflexivity|discriminate].
Qed.

Lemma answers_spec resp :
  answers resp = true <-> exists text, resp = Some text /\ ~ whiteSpace text.
Proof.
  unfold answers, tryFetch. destruct resp as [text|].
  - destruct (SafeJson.trim text) as [|c r] eqn:E.
    + cbn. split; [discriminate|]. intros (t & [= <-] & H).
      exfalso. apply H, trim_empty. exact E.
    + cbn. split; [|reflexivity]. intros _. exists text. split; [reflexivity|].
      intros W. apply trim_empty in W. congruence.
  - split; [discriminate|]. intros (t & H & _). discriminate.
Qed.

(** X25. The first address that answers with a body that is not blank (not
    white space from end to end) supplies the fires, whatever the later
    ones answer; when none does, the answer holds no fire. *)
Theorem first_answer_supplies_fires pre csv post :
  (Forall (fun resp => answers resp = false) pre -> answers (Some csv) = true ->
   GET parse (pre ++ Some csv :: post) = GET parse [Some csv]) /\
  (Forall (fun resp => answers resp = false) pre -> GET parse pre = Some []) /\
  (forall resp,
     answers resp = true <-> exists text, resp = Some text /\ ~ whiteSpace text).
Proof.
  split; [|split].
  - intros Hpre Hcsv. unfold GET.
    assert (tryFetch (Some csv) = Some csv) as Ht.
    { unfold answers in Hcsv. unfold tryFetch in *.
      destruct (String.length (SafeJson.trim csv) =? 0)%nat; [discriminate|reflexivity]. }
    rewrite (firstCsv_first pre csv post Hpre Ht).
    cbn [firstCsv]. rewrite Ht. reflexivity.
  - intros Hpre. unfold GET. rewrite (firstCsv_none pre Hpre). reflexivity.
  - apply answers_spec.
Qed.
End FiresFacts.

(** two rows as the parser returns them, the second without longitude *)
Definition twoRows (csv : string) : list (list (string * json)) :=
  [[("latitude", JNum (-33.5)); ("longitude", JNum 151.25); ("confidence", JNum 80);
    ("acq_date", JStr "2024-05-01"); ("acq_time", JNum 130)];
   [("latitude", JNum 10); ("confidence", JStr "h")]].

Lemma fires_have_finite_coordinates_witness :
  (List.map Fires.lat <$> Fires.GET (RT := referenceRuntime) twoRows
                            [None; Some "  "; Some "csv"])
  = Some [-33.5] /\
  (exists fires,
     Fires.GET (RT := referenceRuntime) twoRows [None; Some "  "; Some "csv"] = Some fires /\
     (length fires <= length (twoRows "csv"))%nat).
Proof.
  split; [vm_compute; reflexivity|].
  destruct (fires_have_finite_coordinates (RT := referenceRuntime) twoRows
              [None; Some "  "; Some "csv"]) as (_ & H & _).
  destruct (H "csv" eq_refl) as (_ & Hlen & Hret).
  destruct Hret as [fires E]; [repeat constructor|].
  exists fires. split; [exact E|apply Hlen; exact E].
Defined.

(** the second address answers with a no-break space and a line feed *)
Lemma first_answer_supplies_fires_witness :
  Fires.GET (RT := referenceRuntime) twoRows
    [None; Some (utf8 160 ++ lineFeed)%string; Some "csv"; Some "other"]
  = Fires.GET (RT := referenceRuntime) twoRows [Some "csv"] /\
  Fires.GET (RT := referenceRuntime) twoRows [None; Some (utf8 160 ++ lineFeed)%string] = Some [].
Proof.
  destruct (first_answer_supplies_fires (RT := referenceRuntime) twoRows
              [None; Some (utf8 160 ++ lineFeed)%string] "csv" [Some "other"])
    as (Hfirst & Hnone & _).
  split.
  - apply Hfirst; [repeat constructor|reflexivity].
  - apply Hnone. repeat constructor.
Defined.

(** ** What holds of the returned tracks whatever the observations *)

Section ReturnedTracks.
Context {RT : Runtime}.
Import Balloons Geo.

(** X26. Whatever the hourly lists hold - timestamps that are NaN or infinite
    included - a returned track has at least two points, all of them
    finite, in ascending order of timestamp, no two with the same key. *)
Theorem returned_tracks_are_clean hourly :
  Forall (fun tr =>
            (2 <= length (Track.points tr))%nat /\
            Forall (fun p => pointFinite p = true) (Track.points tr) /\
            StronglySorted tsLe (Track.points tr) /\
            NoDup (pointKey <$> Track.points tr))
    (linkTracks hourly).
Proof.
  rewrite Forall_forall. intros tr Htr.
  assert (2 <= length (Track.points tr))%nat as Hlen.
  { unfold linkTracks in Htr. apply list_elem_of_In, filter_In in Htr as [_ H].
    apply Nat.leb_le. exact H. }
  apply linkTracks_elem in Htr as (tr0 & _ & ->).
  unfold finish in *. cbn [Track.points] in *.
  destruct (dedupeAndSort_facts (Track.points tr0)) as (Hs & Hfin & Hnd).
  split; [exact Hlen|]. split; [exact Hfin|]. split; [exact Hs|exact Hnd].
Qed.
End ReturnedTracks.

(** ** Which of several points with one key is kept *)

Section FirstOccurrence.
Context {RT : Runtime}.
Import Geo.

(** [p] is finite and has the key of [q] *)
Definition sameKeyFinite (q p : TrackPoint.t) : bool :=
  bool_decide (pointKey p = pointKey q) && pointFinite p.

Lemma dedupeLoop_first points :
  forall seen out q,
    q ∈ dedupeLoop points seen out -> q ∈ out \/
    (List.find (sameKeyFinite q) points = Some q /\ pointKey q ∉ seen).
Proof.
  induction points as [|h rest IH]; intros seen out q Hq; cbn [dedupeLoop] in Hq.
  - left. exact Hq.
  - cbn [List.find].
    destruct (bool_decide (pointKey h ∉ seen)) eqn:Hseen;
      [destruct (pointFinite h) eqn:Hfin|]; cbn [andb] in Hq.
    + apply bool_decide_eq_true in Hseen.
      destruct (IH _ _ _ Hq) as [Hout|[Hfind Hnew]].
      * apply elem_of_app in Hout as [Hout|Hh]; [left; exact Hout|].
        apply list_elem_of_singleton in Hh. subst q. right.
        unfold sameKeyFinite at 1.
        rewrite bool_decide_eq_true_2 by reflexivity. rewrite Hfin. auto.
      * right. unfold sameKeyFinite at 1.
        rewrite bool_decide_eq_false_2 by set_solver. cbn [andb].
        split; [exact Hfind|set_solver].
    + destruct (IH _ _ _ Hq) as [Hout|[Hfind Hnew]]; [left; exact Hout|].
      right. unfold sameKeyFinite at 1. rewrite Hfin, andb_false_r. auto.
    + apply bool_decide_eq_false in Hseen.
      destruct (IH _ _ _ Hq) as [Hout|[Hfind Hnew]]; [left; exact Hout|].
      right. unfold sameKeyFinite at 1. rewrite bool_decide_eq_false_2; [auto|].
      intros E. apply Hseen. rewrite E. exact Hnew.
Qed.

(** X27. Of the input points with one key, the first finite one is the one in
    the result: every point of the result is the first finite point of the
    input with its key. *)
Theorem dedupeAndSort_keeps_first pts q :
  q ∈ dedupeAndSort pts -> List.find (sameKeyFinite q) pts = Some q.
Proof.
  unfold dedupeAndSort. rewrite Array_sort_Permutation. intros Hq.
  destruct (dedupeLoop_first pts ∅ [] q Hq) as [Hout|[Hfind _]]; [|exact Hfind].
  apply elem_of_nil in Hout. contradiction.
Qed.
End FirstOccurrence.

Lemma dedupeAndSort_keeps_first_witness :
  List.find (sameKeyFinite (RT := referenceRuntime) (TrackPoint.mk "T1" 1700007200 10 21 None))
    sightings
  = Some (TrackPoint.mk "T1" 1700007200 10 21 None) /\
  TrackPoint.mk "T1" 1700007200 10 21 (Some 18000)
  ∉ Geo.dedupeAndSort (RT := referenceRuntime) sightings.
Proof.
  split.
  - apply (dedupeAndSort_keeps_first (RT := referenceRuntime)).
    vm_compute. right. right. left.
  - intros H. apply (dedupeAndSort_keeps_first (RT := referenceRuntime)) in H.
    vm_compute in H. discriminate.
Defined.

(** ** The two copies of the distance function *)

Section DistanceCopies.
Context {RT : Runtime}.

(** X28. The distance function of the page and that of the library compute the
    same value for every pair of places: the hop test of the page measures
    as the linker and the proximity route do. *)
Theorem page_distance_is_library_distance a b :
  Page.haversineKm a b = Geo.haversineKm a b.
Proof.
  unfold Page.haversineKm, Geo.haversineKm. reflexivity.
Qed.
End DistanceCopies.
